(** * EONTA spatial audio transition engine: embedding and properties

    A shallow embedding of the geometry helpers (MapUtils), of the
    audio service (EnhancedAudioService), of the boundary transition
    manager (BoundaryTransitionManager) and of the path kept by the
    path recorder (PathRecorderService), followed by the properties
    established about them.

    Numbers.  JavaScript numbers are modelled as real numbers: rounding,
    NaN and signed zeros are outside the model.  [Infinity] only occurs
    as the initial value of a running minimum and is modelled by the
    type [xreal].  A division whose divisor is tested against zero in
    the source is written with [divide], which takes the proof that the
    divisor is not zero; the other divisions are the division of [R],
    and the statements about them assume a non-zero divisor.

    Objects.  A point object is its reference together with its fields:
    [Array.prototype.includes] compares references, every other
    operation reads the fields only.

    Failure.  Reading a property of [undefined] throws; a recursion may
    not return.  Both are results of type [outcome]. *)

From Stdlib Require Import Reals Lra Lia.
From stdpp Require Import gmap strings list.

(** ** Results of fallible computations *)

Inductive outcome (A : Type) : Type :=
| Ok (a : A)
| TypeError
| OutOfFuel.

Arguments Ok {A} a.
Arguments TypeError {A}.
Arguments OutOfFuel {A}.

Definition bind {A B : Type} (m : outcome A) (k : A -> outcome B) : outcome B :=
  match m with
  | Ok a => k a
  | TypeError => TypeError
  | OutOfFuel => OutOfFuel
  end.

Notation "'let*' x ':=' m 'in' k" := (bind m (fun x => k))
  (at level 10, x name, m at level 100, k at level 200).

(** [a[i]] followed by a property access: throws out of range. *)
Definition at_index {A : Type} (a : list A) (i : nat) : outcome A :=
  match a !! i with
  | Some x => Ok x
  | None => TypeError
  end.

(** ** Numbers *)

Definition gtb (a b : R) : bool := if Rgt_dec a b then true else false.
Definition ltb (a b : R) : bool := if Rlt_dec a b then true else false.
Definition leb (a b : R) : bool := if Rle_dec a b then true else false.
Definition eqb (a b : R) : bool := if Req_dec_T a b then true else false.

(** [a !== b] on booleans. *)
Definition neqb (a b : bool) : bool := xorb a b.

(** A divisor that the source has tested against zero. *)
Definition divide (a b : R) (nonzero : b <> 0%R) : R := (a / b)%R.

(** Numbers that may be infinite: the running minimum of
    [getDistanceToBoundaryEdge] starts at [Infinity]. *)
Inductive xreal : Type :=
| Real (r : R)
| Infinity
| NegInfinity.

Definition xmin (m : xreal) (d : R) : xreal :=
  match m with
  | Real r => Real (Rmin r d)
  | Infinity => Real d
  | NegInfinity => NegInfinity
  end.

Definition xopp (m : xreal) : xreal :=
  match m with
  | Real r => Real (- r)
  | Infinity => NegInfinity
  | NegInfinity => Infinity
  end.


(** ** MapUtils: geometry *)

Record point : Type := { ref : nat; lat : R; lng : R }.

Module MapUtils.

Local Open Scope R_scope.

Definition distanceToLine (x y x1 y1 x2 y2 : R) : R :=
  let A := x - x1 in
  let B := y - y1 in
  let C := x2 - x1 in
  let D := y2 - y1 in
  let dot := A * C + B * D in
  let len_sq := C * C + D * D in
  let param :=
    match Req_dec_T len_sq 0 with
    | right nonzero => divide dot len_sq nonzero
    | left _ => -1
    end in
  let '(xx, yy) :=
    if ltb param 0 then (x1, y1)
    else if gtb param 1 then (x2, y2)
    else (x1 + param * C, y1 + param * D) in
  let dx := x - xx in
  let dy := y - yy in
  sqrt (dx * dx + dy * dy) * 111000.

(** One edge of the ray casting test; [&&] evaluates the division only
    when the two latitudes differ. *)
Definition intersect (pt pi pj : point) : bool :=
  let xi := lng pi in
  let yi := lat pi in
  let xj := lng pj in
  let yj := lat pj in
  neqb (gtb yi (lat pt)) (gtb yj (lat pt)) &&
  ltb (lng pt) ((xj - xi) * (lat pt - yi) / (yj - yi) + xi).

(** The loop [for (i = 0, j = length - 1; i < length; j = i++)] with
    [n] iterations left. *)
Fixpoint isPointInPolygon_loop (pt : point) (polygon : list point)
    (n i j : nat) (inside : bool) : outcome bool :=
  match n with
  | O => Ok inside
  | S n' =>
      let* pi := at_index polygon i in
      let* pj := at_index polygon j in
      isPointInPolygon_loop pt polygon n' (S i) i
        (if intersect pt pi pj then negb inside else inside)
  end.

Definition isPointInPolygon (pt : point) (polygon : list point) : outcome bool :=
  isPointInPolygon_loop pt polygon (length polygon) 0 (length polygon - 1) false.

(** The loop [for (i = 0; i < length; i++)] with [n] iterations left. *)
Fixpoint nearestEdge_loop (position : point) (polygon : list point)
    (n i : nat) (minDistance : xreal) : outcome xreal :=
  match n with
  | O => Ok minDistance
  | S n' =>
      let* p1 := at_index polygon i in
      let* p2 := at_index polygon ((i + 1) mod length polygon) in
      let distance :=
        distanceToLine (lat position) (lng position)
                       (lat p1) (lng p1) (lat p2) (lng p2) in
      nearestEdge_loop position polygon n' (S i) (xmin minDistance distance)
  end.

Definition getDistanceToBoundaryEdge (position : point) (polygon : list point)
    : outcome xreal :=
  let* isInside := isPointInPolygon position polygon in
  let* minDistance := nearestEdge_loop position polygon (length polygon) 0 Infinity in
  Ok (if isInside : bool then xopp minDistance else minDistance).

(** [result.includes(p)]: an object is found by its reference. *)
Definition includes (result : list point) (p : point) : bool :=
  existsb (fun q => Nat.eqb (ref q) (ref p)) result.

Definition defaultTolerance : R := 0.00001.

Section simplifyPolygon.

Variable points : list point.
Variable tolerance : R.

(** The loop [for (i = start + 1; i < end; i++)] of [findFurthestPoint]
    with [n] iterations left. *)
Fixpoint findFurthestPoint_loop (start end_ n i : nat)
    (maxDistance : R) (maxIndex : nat) : outcome (R * nat) :=
  match n with
  | O => Ok (maxDistance, maxIndex)
  | S n' =>
      let* pi := at_index points i in
      let* ps := at_index points start in
      let* pe := at_index points end_ in
      let distance :=
        distanceToLine (lat pi) (lng pi) (lat ps) (lng ps) (lat pe) (lng pe) in
      if gtb distance maxDistance
      then findFurthestPoint_loop start end_ n' (S i) distance i
      else findFurthestPoint_loop start end_ n' (S i) maxDistance maxIndex
  end.

Definition findFurthestPoint (start end_ : nat) : outcome (R * nat) :=
  findFurthestPoint_loop start end_ (end_ - (start + 1)) (start + 1) 0 0%nat.

(** [result] is the array the source pushes to; it is threaded through
    the calls.  [end_] is an index of [points] in every call that
    [simplifyPolygon] makes, so that [points[end]] is an object. *)
Fixpoint simplifySegment (fuel start end_ : nat) (result : list point)
    : outcome (list point) :=
  match fuel with
  | O => OutOfFuel
  | S fuel' =>
      let* found := findFurthestPoint start end_ in
      let '(maxDistance, maxIndex) := found in
      if gtb maxDistance tolerance then
        let* result1 := simplifySegment fuel' start maxIndex result in
        simplifySegment fuel' maxIndex end_ result1
      else
        let* pe := at_index points end_ in
        Ok (if includes result pe then result else result ++ [pe])
  end.

Definition simplifyPolygon (fuel : nat) : outcome (list point) :=
  if Nat.leb (length points) 2 then Ok points
  else
    let* p0 := at_index points 0 in
    simplifySegment fuel 0 (length points - 1) [p0].

End simplifyPolygon.

Definition toRad (degrees : R) : R := degrees * PI / 180.

(** [Math.atan2(y, x)] on real numbers: the angle of the point
    [(x, y)], in the interval from [-PI] (excluded) to [PI]; 0 at the
    origin. *)
Definition atan2 (y x : R) : R :=
  if gtb x 0 then atan (y / x)
  else if ltb x 0 then
    (if ltb y 0 then atan (y / x) - PI else atan (y / x) + PI)
  else if gtb y 0 then PI / 2
  else if ltb y 0 then - (PI / 2)
  else 0.

(** The constant [a] of [calculateDistance], on the coordinates that
    the function reads from its two arguments. *)
Definition haversineTerm (lat1 lng1 lat2 lng2 : R) : R :=
  let dLat := toRad (lat2 - lat1) in
  let dLon := toRad (lng2 - lng1) in
  sin (dLat / 2) * sin (dLat / 2) +
  cos (toRad lat1) * cos (toRad lat2) *
  sin (dLon / 2) * sin (dLon / 2).

(** The haversine formula of [calculateDistance]. *)
Definition haversine (lat1 lng1 lat2 lng2 : R) : R :=
  let radius := 6371000 in
  let a := haversineTerm lat1 lng1 lat2 lng2 in
  let c := 2 * atan2 (sqrt a) (sqrt (1 - a)) in
  radius * c.

Definition calculateDistance (point1 point2 : point) : R :=
  haversine (lat point1) (lng point1) (lat point2) (lng point2).

(** The loop [for (const point of points)] that adds up the
    coordinates. *)
Fixpoint sumCoordinates (points : list point) (sumLat sumLng : R) : R * R :=
  match points with
  | [] => (sumLat, sumLng)
  | p :: points' => sumCoordinates points' (sumLat + lat p) (sumLng + lng p)
  end.

(** The result is a new object [{lat, lng}], given by its two fields;
    [None] is [null]. *)
Definition calculatePolygonCenter (points : list point) : option (R * R) :=
  match points with
  | [] => None
  | _ :: _ =>
      let '(sumLat, sumLng) := sumCoordinates points 0 0 in
      Some (sumLat / INR (length points), sumLng / INR (length points))
  end.

(** The callback of [polygon.map] in [expandPolygon]: reading
    [center.lng] throws when the center is [null]. *)
Definition expandPoint (center : option (R * R)) (distanceDegrees : R)
    (p : point) : outcome (R * R) :=
  match center with
  | None => TypeError
  | Some (centerLat, centerLng) =>
      let dx := lng p - centerLng in
      let dy := lat p - centerLat in
      let length := sqrt (dx * dx + dy * dy) in
      let nx := dx / length in
      let ny := dy / length in
      Ok (lat p + ny * distanceDegrees, lng p + nx * distanceDegrees)
  end.

(** [array.map(callback)] with a callback that may throw. *)
Fixpoint mapOutcome {A B : Type} (f : A -> outcome B) (l : list A)
    : outcome (list B) :=
  match l with
  | [] => Ok []
  | x :: l' =>
      let* y := f x in
      let* ys := mapOutcome f l' in
      Ok (y :: ys)
  end.

(** The new vertices are new objects [{lat, lng}], given by their two
    fields. *)
Definition expandPolygon (polygon : list point) (distance : R)
    : outcome (list (R * R)) :=
  let distanceDegrees := distance / 111000 in
  let center := calculatePolygonCenter polygon in
  mapOutcome (expandPoint center distanceDegrees) polygon.

End MapUtils.

(** ** The interface of the audio service

    The transition manager receives the audio service as a constructor
    argument and only calls its methods: its functions are modelled by
    the list of calls they make, in order. *)

Inductive jsval : Type :=
| VBool (b : bool)
| VNum (r : R).

(** Truthiness of a value. *)
Definition truthy (v : jsval) : bool :=
  match v with
  | VBool b => b
  | VNum r => negb (eqb r 0)
  end.

(** An object literal with number properties; a missing property reads
    as [undefined]. *)
Definition object : Type := list (string * R).

Fixpoint prop (o : object) (key : string) : option R :=
  match o with
  | [] => None
  | (k, v) :: o' => if String.eqb k key then Some v else prop o' key
  end.

(** The [options] argument of [playAudio]. *)
Record playOptions : Type := {
  fadeIn : option R;
  volume : option R;
  loop : option bool;
  effects : option (list (string * jsval))
}.

Inductive call : Type :=
| PlayAudio (id url : string) (options : playOptions)
| StopAudio (id : string) (fadeOut : R)
| SetVolume (id : string) (volume : R)
| FadeOutAudio (id : string) (duration : R)
| ApplyEffect (id effectType : string) (parameters : object).

(** The options that the transition manager passes to [playAudio]:
    [{ fadeIn: fadeInLength, volume: progress, loop: true, effects }]. *)
Definition entryOptions (fadeInLength progress : R)
    (effectSettings : option (list (string * jsval))) : playOptions :=
  {| fadeIn := Some fadeInLength;
     volume := Some progress;
     loop := Some true;
     effects := effectSettings |}.

(** ** BoundaryTransitionManager *)

Module BoundaryTransitionManager.

Local Open Scope R_scope.

(** [this.transitionTypes] *)
Definition VOLUME_FADE : string := "volume_fade".
Definition LOWPASS_FILTER : string := "lowpass_filter".
Definition HIGHPASS_FILTER : string := "highpass_filter".
Definition REVERB_TAIL : string := "reverb_tail".
Definition PITCH_SHIFT : string := "pitch_shift".
Definition DELAY_FEEDBACK : string := "delay_feedback".
Definition CROSSFADE : string := "crossfade".
Definition DOPPLER : string := "doppler".
Definition SPATIAL_BLEND : string := "spatial_blend".

Record range : Type := { start : R; end_ : R }.

Record advanced : Type := {
  lowpassFrequency : range;
  highpassFrequency : range;
  reverbMix : range;
  reverbDecay : range;
  delayFeedback : range;
  delayTime : range;
  pitchShift : range;
  spatialPosition : R * R * R
}.

(** Transition settings of a region; [volume] is not among the defaults
    and is [undefined] unless the region sets it. *)
Record transitionSettings : Type := {
  fadeInLength : R;
  fadeOutLength : R;
  fadeInType : string;
  fadeOutType : string;
  transitionRadius : R;
  blendingEnabled : bool;
  crossfadeOverlap : bool;
  advancedSettings : advanced;
  volume : option R
}.

Definition defaultSettings : transitionSettings := {|
  fadeInLength := 1.5;
  fadeOutLength := 2.0;
  fadeInType := VOLUME_FADE;
  fadeOutType := VOLUME_FADE;
  transitionRadius := 10;
  blendingEnabled := true;
  crossfadeOverlap := true;
  advancedSettings := {|
    lowpassFrequency := {| start := 20000; end_ := 500 |};
    highpassFrequency := {| start := 20; end_ := 2000 |};
    reverbMix := {| start := 0.1; end_ := 0.7 |};
    reverbDecay := {| start := 1.0; end_ := 3.0 |};
    delayFeedback := {| start := 0.1; end_ := 0.7 |};
    delayTime := {| start := 0.25; end_ := 0.5 |};
    pitchShift := {| start := 0; end_ := -4 |};
    spatialPosition := (0, 0, 0)
  |};
  volume := None
|}.

Record audioData : Type := { url : string }.

(** [case] of a [switch] over a transition type. *)
Definition case (subject label : string) : bool := String.eqb subject label.

Definition entryProgress (transitionRadius distanceToEdge : R) : R :=
  Rmin 1 (Rmax 0 ((transitionRadius - distanceToEdge) / transitionRadius)).

Definition applyEntryTransition (regionId : string) (audio : audioData)
    (settings : transitionSettings) (distanceToEdge : R) : list call :=
  let fadeInLength := fadeInLength settings in
  let fadeInType := fadeInType settings in
  let advancedSettings := advancedSettings settings in
  let progress := entryProgress (transitionRadius settings) distanceToEdge in
  if case fadeInType VOLUME_FADE then
    [PlayAudio regionId (url audio) (entryOptions fadeInLength progress None)]
  else if case fadeInType LOWPASS_FILTER then
    let startFreq := end_ (lowpassFrequency advancedSettings) in
    let endFreq := start (lowpassFrequency advancedSettings) in
    let currentFreq := startFreq + progress * (endFreq - startFreq) in
    [PlayAudio regionId (url audio) (entryOptions fadeInLength progress
       (Some [("lowpass", VBool true); ("lowpassFrequency", VNum currentFreq)]))]
  else if case fadeInType HIGHPASS_FILTER then
    let hpStartFreq := end_ (highpassFrequency advancedSettings) in
    let hpEndFreq := start (highpassFrequency advancedSettings) in
    let hpCurrentFreq := hpStartFreq + progress * (hpEndFreq - hpStartFreq) in
    [PlayAudio regionId (url audio) (entryOptions fadeInLength progress
       (Some [("highpass", VBool true); ("highpassFrequency", VNum hpCurrentFreq)]))]
  else if case fadeInType REVERB_TAIL then
    let reverbStart := end_ (reverbMix advancedSettings) in
    let reverbEnd := start (reverbMix advancedSettings) in
    let currentReverb := reverbStart + progress * (reverbEnd - reverbStart) in
    [PlayAudio regionId (url audio) (entryOptions fadeInLength progress
       (Some [("reverb", VBool true); ("reverbMix", VNum currentReverb);
              ("reverbDecay", VNum (start (reverbDecay advancedSettings)))]))]
  else if case fadeInType PITCH_SHIFT then
    let pitchStart := end_ (pitchShift advancedSettings) in
    let pitchEnd := start (pitchShift advancedSettings) in
    let currentPitch := pitchStart + progress * (pitchEnd - pitchStart) in
    [PlayAudio regionId (url audio) (entryOptions fadeInLength progress
       (Some [("pitchShift", VBool true); ("pitchAmount", VNum currentPitch)]))]
  else if case fadeInType DELAY_FEEDBACK then
    let delayStart := end_ (delayFeedback advancedSettings) in
    let delayEnd := start (delayFeedback advancedSettings) in
    let currentDelay := delayStart + progress * (delayEnd - delayStart) in
    [PlayAudio regionId (url audio) (entryOptions fadeInLength progress
       (Some [("delay", VBool true); ("delayFeedback", VNum currentDelay);
              ("delayTime", VNum (start (delayTime advancedSettings)))]))]
  else if case fadeInType DOPPLER then
    let dopplerShift := if ltb progress 0.5 then 1 + (0.5 - progress) * 0.1 else 1 in
    [PlayAudio regionId (url audio) (entryOptions fadeInLength progress
       (Some [("pitchShift", VBool true); ("pitchAmount", VNum (dopplerShift - 1))]))]
  else if case fadeInType SPATIAL_BLEND then
    let pan := cos (progress * PI) * 0.8 in
    [PlayAudio regionId (url audio) (entryOptions fadeInLength progress
       (Some [("spatialAudio", VBool true); ("pan", VNum pan)]))]
  else
    [PlayAudio regionId (url audio) (entryOptions fadeInLength progress None)].

Definition exitProgress (transitionRadius distanceToEdge : R) : R :=
  Rmin 1 (Rmax 0 (1 - distanceToEdge / transitionRadius)).

(** [if (progress <= 0.05) this.audioService.stopAudio(regionId, fade)] *)
Definition stopWhenFaded (regionId : string) (progress fade : R) : list call :=
  if leb progress 0.05 then [StopAudio regionId fade] else [].

Definition applyExitTransition (regionId : string)
    (settings : transitionSettings) (distanceToEdge : R) : list call :=
  let fadeOutLength := fadeOutLength settings in
  let fadeOutType := fadeOutType settings in
  let advancedSettings := advancedSettings settings in
  let progress := exitProgress (transitionRadius settings) distanceToEdge in
  if case fadeOutType VOLUME_FADE then
    [FadeOutAudio regionId fadeOutLength]
  else if case fadeOutType LOWPASS_FILTER then
    let startFreq := start (lowpassFrequency advancedSettings) in
    let endFreq := end_ (lowpassFrequency advancedSettings) in
    let currentFreq := startFreq + (1 - progress) * (endFreq - startFreq) in
    [ApplyEffect regionId "lowpass" [("frequency", currentFreq); ("Q", 1.0)];
     SetVolume regionId progress]
    ++ stopWhenFaded regionId progress 0.5
  else if case fadeOutType HIGHPASS_FILTER then
    let hpStartFreq := start (highpassFrequency advancedSettings) in
    let hpEndFreq := end_ (highpassFrequency advancedSettings) in
    let hpCurrentFreq := hpStartFreq + (1 - progress) * (hpEndFreq - hpStartFreq) in
    [ApplyEffect regionId "highpass" [("frequency", hpCurrentFreq); ("Q", 1.0)];
     SetVolume regionId progress]
    ++ stopWhenFaded regionId progress 0.5
  else if case fadeOutType REVERB_TAIL then
    let reverbStart := start (reverbMix advancedSettings) in
    let reverbEnd := end_ (reverbMix advancedSettings) in
    let currentReverb := reverbStart + (1 - progress) * (reverbEnd - reverbStart) in
    let decayStart := start (reverbDecay advancedSettings) in
    let decayEnd := end_ (reverbDecay advancedSettings) in
    let currentDecay := decayStart + (1 - progress) * (decayEnd - decayStart) in
    [ApplyEffect regionId "reverb" [("mix", currentReverb); ("decay", currentDecay)];
     SetVolume regionId progress]
    ++ stopWhenFaded regionId progress (fadeOutLength * 1.5)
  else if case fadeOutType PITCH_SHIFT then
    let pitchStart := start (pitchShift advancedSettings) in
    let pitchEnd := end_ (pitchShift advancedSettings) in
    let currentPitch := pitchStart + (1 - progress) * (pitchEnd - pitchStart) in
    [ApplyEffect regionId "pitchShift" [("amount", currentPitch)];
     SetVolume regionId progress]
    ++ stopWhenFaded regionId progress fadeOutLength
  else if case fadeOutType DELAY_FEEDBACK then
    let delayStart := start (delayFeedback advancedSettings) in
    let delayEnd := end_ (delayFeedback advancedSettings) in
    let currentDelay := delayStart + (1 - progress) * (delayEnd - delayStart) in
    let timeStart := start (delayTime advancedSettings) in
    let timeEnd := end_ (delayTime advancedSettings) in
    let currentTime := timeStart + (1 - progress) * (timeEnd - timeStart) in
    [ApplyEffect regionId "delay" [("feedback", currentDelay); ("time", currentTime)];
     SetVolume regionId progress]
    ++ stopWhenFaded regionId progress (fadeOutLength * 2)
  else if case fadeOutType DOPPLER then
    let dopplerShift := if gtb progress 0.5 then 1 - (progress - 0.5) * 0.1 else 1 in
    [ApplyEffect regionId "pitchShift" [("amount", dopplerShift - 1)];
     SetVolume regionId progress]
    ++ stopWhenFaded regionId progress fadeOutLength
  else if case fadeOutType SPATIAL_BLEND then
    let pan := cos (progress * PI) * 0.8 in
    [ApplyEffect regionId "spatialAudio" [("pan", pan)];
     SetVolume regionId progress]
    ++ stopWhenFaded regionId progress fadeOutLength
  else
    [FadeOutAudio regionId fadeOutLength].

Record region : Type := {
  id : string;
  settings : transitionSettings;
  center : point
}.

(** The manager's own [calculateDistance], in coordinate units. *)
Definition calculateDistance (point1 point2 : point) : R :=
  sqrt ((lat point2 - lat point1) ^ 2 + (lng point2 - lng point1) ^ 2).

(** [settings.volume || 1.0] *)
Definition baseVolume (r : region) : R :=
  match volume (settings r) with
  | Some v => if eqb v 0 then 1.0 else v
  | None => 1.0
  end.

(** The body of the inner loop of [handleCrossfades] for one pair. *)
Definition crossfadePair (region1 region2 : region) (position : point) : list call :=
  if negb (crossfadeOverlap (settings region1)) || negb (crossfadeOverlap (settings region2))
  then []
  else
    let distance1 := calculateDistance position (center region1) in
    let distance2 := calculateDistance position (center region2) in
    let totalDistance := distance1 + distance2 in
    match Req_dec_T totalDistance 0 with
    | left _ => []
    | right nonzero =>
        let ratio1 := 1 - divide distance1 totalDistance nonzero in
        let ratio2 := 1 - divide distance2 totalDistance nonzero in
        let baseVolume1 := baseVolume region1 in
        let baseVolume2 := baseVolume region2 in
        let crossfadeVolume1 := baseVolume1 * (0.7 + 0.3 * ratio1) in
        let crossfadeVolume2 := baseVolume2 * (0.7 + 0.3 * ratio2) in
        [SetVolume (id region1) crossfadeVolume1;
         SetVolume (id region2) crossfadeVolume2]
    end.

(** The inner loop: [region1] against each later region. *)
Fixpoint crossfadeWithLater (region1 : region) (later : list region)
    (position : point) : list call :=
  match later with
  | [] => []
  | region2 :: later' =>
      crossfadePair region1 region2 position
      ++ crossfadeWithLater region1 later' position
  end.

(** The outer loop: the pairs [(i, j)], [i < j], in the order of the
    two loops. *)
Fixpoint crossfadeAll (activeRegions : list region) (position : point) : list call :=
  match activeRegions with
  | [] => []
  | region1 :: later =>
      crossfadeWithLater region1 later position ++ crossfadeAll later position
  end.

(** [activeRegions] is an array here; the source also returns at once
    when it is [null] or [undefined]. *)
Definition handleCrossfades (activeRegions : list region) (position : point)
    : list call :=
  if Nat.leb (length activeRegions) 1 then []
  else crossfadeAll activeRegions position.

End BoundaryTransitionManager.

(** ** The Web Audio backend, as the service drives it

    Audio nodes are created by the audio context and are known by
    their number; the service's effect on the backend is the sequence
    of commands it issues. *)

Module WebAudio.

Inductive param : Type := gain | frequency | Q | delayTime | pan.

Inductive command : Type :=
| createBufferSource (node buffer : nat) (loop : bool)
| createGain (node : nat)
| createBiquadFilter (node : nat) (type : string)
| createConvolver (node : nat)
| createDelay (node : nat) (maxDelayTime : R)
| createStereoPanner (node : nat)
| generateReverbImpulse (convolver : nat) (duration : R)
| connect (from to : nat)
| setValue (node : nat) (p : param) (value : R)
| setValueAtTime (node : nat) (p : param) (value time : R)
| linearRampToValueAtTime (node : nat) (p : param) (value time : R)
| start (node : nat) (when : R)
| stop (node : nat).

End WebAudio.

(** ** EnhancedAudioService *)

Module EnhancedAudioService.

Import WebAudio.
Local Open Scope R_scope.

(** The objects the effect factories return. *)
Inductive effectNode : Type :=
| filterEffect (filter : nat)
| reverbEffect (input output wetGain dryGain convolver : nat)
| delayEffect (input output delay feedback : nat)
| pitchEffect (input output : nat) (pitchRatio : R)
| spatialEffect (panner : nat).

Definition input (e : effectNode) : nat :=
  match e with
  | filterEffect f => f
  | reverbEffect i _ _ _ _ => i
  | delayEffect i _ _ _ => i
  | pitchEffect i _ _ => i
  | spatialEffect p => p
  end.

Definition output (e : effectNode) : nat :=
  match e with
  | filterEffect f => f
  | reverbEffect _ o _ _ _ => o
  | delayEffect _ o _ _ => o
  | pitchEffect _ o _ => o
  | spatialEffect p => p
  end.

(** The callbacks handed to [setTimeout], with their delay in
    milliseconds.  The callback of [stopAudio] holds the source object
    that was stored under [id] when [stopAudio] ran. *)
Inductive timer : Type :=
| stopCleanup (delay : R) (source : nat) (id : string)
| fadeOutCleanup (delay : R) (id : string).

Record service : Type := {
  sources : gmap string nat;
  gainNodes : gmap string nat;
  effectNodes : gmap string (gmap string effectNode);
  masterGain : nat;
  (** the next audio node the context creates *)
  nextNode : nat;
  (** [audioContext.currentTime] *)
  currentTime : R;
  (** [node.gain.value] as the backend reports it now *)
  gainValue : nat -> R;
  (** callbacks scheduled by [setTimeout] and not run yet *)
  timers : list timer;
  (** commands issued to the backend, oldest first *)
  commands : list command
}.

Definition with_maps (s : gmap string nat) (g : gmap string nat)
    (e : gmap string (gmap string effectNode)) (st : service) : service :=
  {| sources := s; gainNodes := g; effectNodes := e;
     masterGain := masterGain st; nextNode := nextNode st;
     currentTime := currentTime st; gainValue := gainValue st;
     timers := timers st; commands := commands st |}.

Definition with_timers (t : list timer) (st : service) : service :=
  {| sources := sources st; gainNodes := gainNodes st; effectNodes := effectNodes st;
     masterGain := masterGain st; nextNode := nextNode st;
     currentTime := currentTime st; gainValue := gainValue st;
     timers := t; commands := commands st |}.

(** Issue commands to the backend. *)
Definition emit (cs : list command) (st : service) : service :=
  {| sources := sources st; gainNodes := gainNodes st; effectNodes := effectNodes st;
     masterGain := masterGain st; nextNode := nextNode st;
     currentTime := currentTime st; gainValue := gainValue st;
     timers := timers st; commands := commands st ++ cs |}.

(** Take [n] fresh audio nodes; the first of them is returned. *)
Definition allocate (n : nat) (st : service) : nat * service :=
  (nextNode st,
   {| sources := sources st; gainNodes := gainNodes st; effectNodes := effectNodes st;
      masterGain := masterGain st; nextNode := (nextNode st + n)%nat;
      currentTime := currentTime st; gainValue := gainValue st;
      timers := timers st; commands := commands st |}).

(** [audioContext.destination] *)
Definition destination : nat := 0.

(** The service after its constructor, on a context at time [now]. *)
Definition new (now : R) (reading : nat -> R) : service :=
  {| sources := ∅; gainNodes := ∅; effectNodes := ∅;
     masterGain := 1%nat; nextNode := 2%nat;
     currentTime := now; gainValue := reading;
     timers := []; commands := [createGain 1; connect 1 destination] |}.

Fixpoint entry (o : list (string * jsval)) (key : string) : option jsval :=
  match o with
  | [] => None
  | (k, v) :: o' => if String.eqb k key then Some v else entry o' key
  end.

(** [parameters.key || fallback], read as a number. *)
Definition numberOr (parameters : list (string * jsval)) (key : string)
    (fallback : R) : R :=
  match entry parameters key with
  | Some (VNum r) => if eqb r 0 then fallback else r
  | Some (VBool true) => 1
  | Some (VBool false) => fallback
  | None => fallback
  end.

Definition createLowpassFilter (parameters : list (string * jsval))
    (st : service) : effectNode * service :=
  let '(filter, st) := allocate 1 st in
  (filterEffect filter,
   emit [createBiquadFilter filter "lowpass";
         setValue filter frequency (numberOr parameters "lowpassFrequency" 20000);
         setValue filter Q (numberOr parameters "Q" 1.0)] st).

Definition createHighpassFilter (parameters : list (string * jsval))
    (st : service) : effectNode * service :=
  let '(filter, st) := allocate 1 st in
  (filterEffect filter,
   emit [createBiquadFilter filter "highpass";
         setValue filter frequency (numberOr parameters "highpassFrequency" 20);
         setValue filter Q (numberOr parameters "Q" 1.0)] st).

Definition createReverb (parameters : list (string * jsval))
    (st : service) : effectNode * service :=
  let '(input, st) := allocate 5 st in
  let output := (input + 1)%nat in
  let wetGain := (input + 2)%nat in
  let dryGain := (input + 3)%nat in
  let convolver := (input + 4)%nat in
  let mix := numberOr parameters "reverbMix" 0.3 in
  (reverbEffect input output wetGain dryGain convolver,
   emit [createGain input; createGain output; createGain wetGain;
         createGain dryGain; createConvolver convolver;
         setValue wetGain gain mix; setValue dryGain gain (1 - mix);
         connect input dryGain; connect input convolver;
         connect convolver wetGain; connect dryGain output;
         connect wetGain output;
         generateReverbImpulse convolver (numberOr parameters "reverbDecay" 2.0)] st).

Definition createDelay (parameters : list (string * jsval))
    (st : service) : effectNode * service :=
  let '(input, st) := allocate 4 st in
  let output := (input + 1)%nat in
  let delay := (input + 2)%nat in
  let feedback := (input + 3)%nat in
  (delayEffect input output delay feedback,
   emit [createGain input; createGain output; WebAudio.createDelay delay 5.0;
         createGain feedback;
         setValue delay delayTime (numberOr parameters "delayTime" 0.3);
         setValue feedback gain (numberOr parameters "delayFeedback" 0.3);
         connect input output; connect input delay; connect delay feedback;
         connect feedback delay; connect delay output] st).

Definition createPitchShifter (parameters : list (string * jsval))
    (st : service) : effectNode * service :=
  let '(input, st) := allocate 2 st in
  let output := (input + 1)%nat in
  (pitchEffect input output (Rpower 2 (numberOr parameters "pitchAmount" 0 / 12)),
   emit [createGain input; createGain output; connect input output] st).

Definition createSpatialAudio (parameters : list (string * jsval))
    (st : service) : effectNode * service :=
  let '(panner, st) := allocate 1 st in
  (spatialEffect panner,
   emit [createStereoPanner panner;
         setValue panner pan (numberOr parameters "pan" 0)] st).

(** [this.effectFactories[effectType]] *)
Definition effectFactories (effectType : string)
    : option (list (string * jsval) -> service -> effectNode * service) :=
  if String.eqb effectType "lowpass" then Some createLowpassFilter
  else if String.eqb effectType "highpass" then Some createHighpassFilter
  else if String.eqb effectType "reverb" then Some createReverb
  else if String.eqb effectType "delay" then Some createDelay
  else if String.eqb effectType "pitchShift" then Some createPitchShifter
  else if String.eqb effectType "spatialAudio" then Some createSpatialAudio
  else None.

(** The loop over [Object.entries(settings.effects)]: every enabled
    entry that names a factory adds one effect to the chain. *)
Fixpoint connectEffects (id : string) (parameters entries : list (string * jsval))
    (lastNode : nat) (st : service) : nat * service :=
  match entries with
  | [] => (lastNode, st)
  | (effectType, enabled) :: rest =>
      match (if truthy enabled then effectFactories effectType else None) with
      | Some factory =>
          let '(effectNode, st) := factory parameters st in
          let st := emit [connect lastNode (input effectNode)] st in
          let st :=
            with_maps (sources st) (gainNodes st)
              (alter (fun effectsMap => <[effectType := effectNode]> effectsMap)
                     id (effectNodes st)) st in
          connectEffects id parameters rest (output effectNode) st
      | None => connectEffects id parameters rest lastNode st
      end
  end.

(** [playAudio] awaits the fetch and the decoding of [url] before it
    touches the service; [audioBuffer] is what they deliver, [None] when
    either of them rejects.  The rest of the body runs without
    interruption and is one step of the service. *)
Definition playAudio (id url : string) (options : playOptions)
    (audioBuffer : option nat) (st : service) : service * bool :=
  let loop := default true (loop options) in
  let volume := default 1.0 (volume options) in
  let fadeIn := default 0.5 (fadeIn options) in
  let effects := default [] (effects options) in
  match audioBuffer with
  | None => (st, false)
  | Some buffer =>
      let '(source, st) := allocate 1 st in
      let st := emit [createBufferSource source buffer loop] st in
      let '(gainNode, st) := allocate 1 st in
      let st := emit [createGain gainNode; setValue gainNode gain 0] st in
      let st :=
        with_maps (<[id := source]> (sources st))
                  (<[id := gainNode]> (gainNodes st))
                  (<[id := ∅]> (effectNodes st)) st in
      let st := emit [connect source gainNode] st in
      let '(lastNode, st) := connectEffects id effects effects gainNode st in
      let st := emit [connect lastNode (masterGain st); start source 0] st in
      let now := currentTime st in
      (emit [setValueAtTime gainNode gain 0 now;
             linearRampToValueAtTime gainNode gain volume (now + fadeIn)] st,
       true)
  end.

Definition stopAudio (id : string) (fadeOut : R) (st : service) : service * bool :=
  match sources st !! id, gainNodes st !! id with
  | Some source, Some gainNode =>
      let now := currentTime st in
      let st :=
        emit [setValueAtTime gainNode gain (gainValue st gainNode) now;
              linearRampToValueAtTime gainNode gain 0 (now + fadeOut)] st in
      (with_timers (timers st ++ [stopCleanup (fadeOut * 1000) source id]) st, true)
  | _, _ => (st, false)
  end.

Definition setVolume (id : string) (volume : R) (st : service) : service * bool :=
  match gainNodes st !! id with
  | Some gainNode =>
      let now := currentTime st in
      (emit [setValueAtTime gainNode gain (gainValue st gainNode) now;
             linearRampToValueAtTime gainNode gain volume (now + 0.05)] st,
       true)
  | None => (st, false)
  end.

Definition fadeOutAudio (id : string) (duration : R) (st : service) : service * bool :=
  match gainNodes st !! id with
  | Some gainNode =>
      let now := currentTime st in
      let st :=
        emit [setValueAtTime gainNode gain (gainValue st gainNode) now;
              linearRampToValueAtTime gainNode gain 0 (now + duration)] st in
      (with_timers (timers st ++ [fadeOutCleanup (duration * 1000) id]) st, true)
  | None => (st, false)
  end.

(** The callback of a timer, run when its delay has elapsed. *)
Definition runTimer (t : timer) (st : service) : service :=
  match t with
  | stopCleanup _ source id =>
      let st := emit [stop source] st in
      with_maps (delete id (sources st)) (delete id (gainNodes st))
                (delete id (effectNodes st)) st
  | fadeOutCleanup _ id =>
      match sources st !! id with
      | Some _ => fst (stopAudio id 0 st)
      | None => st
      end
  end.

(** The event loop runs the pending callback number [k]. *)
Definition fireTimer (k : nat) (st : service) : service :=
  match timers st !! k with
  | Some t => runTimer t (with_timers (delete k (timers st)) st)
  | None => st
  end.

(** [if (parameters.key)] *)
Definition given (parameters : object) (key : string) : option R :=
  match prop parameters key with
  | Some v => if eqb v 0 then None else Some v
  | None => None
  end.

(** Reading [effectNode.filter], [effectNode.wetGain] and the like and
    then a property of it throws when the effect has no such part. *)
Definition part (name : string) (e : effectNode) : outcome nat :=
  match e with
  | filterEffect f =>
      if String.eqb name "filter" then Ok f else TypeError
  | reverbEffect _ _ w d _ =>
      if String.eqb name "wetGain" then Ok w
      else if String.eqb name "dryGain" then Ok d else TypeError
  | delayEffect _ _ d f =>
      if String.eqb name "delay" then Ok d
      else if String.eqb name "feedback" then Ok f else TypeError
  | pitchEffect _ _ _ => TypeError
  | spatialEffect p =>
      if String.eqb name "panner" then Ok p else TypeError
  end.

(** [effectNode.<name>.<p>.setValueAtTime(value, currentTime)] when
    [value] is given. *)
Definition setPart (e : effectNode) (name : string) (p : param)
    (value : option R) (st : service) : outcome service :=
  match value with
  | Some v =>
      let* node := part name e in
      Ok (emit [setValueAtTime node p v (currentTime st)] st)
  | None => Ok st
  end.

(** [effectNode.pitchRatio = ratio] *)
Definition setPitchRatio (ratio : R) (e : effectNode) : effectNode :=
  match e with
  | pitchEffect i o _ => pitchEffect i o ratio
  | other => other
  end.

Definition applyEffect (id effectType : string) (parameters : object)
    (st : service) : outcome (service * bool) :=
  match effectNodes st !! id with
  | None => Ok (st, false)
  | Some effectsMap =>
      match effectsMap !! effectType with
      | None => Ok (st, false)
      | Some effectNode =>
          if String.eqb effectType "lowpass" then
            let* st := setPart effectNode "filter" frequency (given parameters "frequency") st in
            let* st := setPart effectNode "filter" Q (given parameters "Q") st in
            Ok (st, true)
          else if String.eqb effectType "highpass" then
            let* st := setPart effectNode "filter" frequency (given parameters "frequency") st in
            let* st := setPart effectNode "filter" Q (given parameters "Q") st in
            Ok (st, true)
          else if String.eqb effectType "reverb" then
            let* st := setPart effectNode "wetGain" gain (prop parameters "mix") st in
            let* st :=
              setPart effectNode "dryGain" gain
                      ((fun mix => 1 - mix) <$> prop parameters "mix") st in
            Ok (st, true)
          else if String.eqb effectType "delay" then
            let* st := setPart effectNode "delay" delayTime (prop parameters "time") st in
            let* st := setPart effectNode "feedback" gain (prop parameters "feedback") st in
            Ok (st, true)
          else if String.eqb effectType "pitchShift" then
            match prop parameters "amount" with
            | Some amount =>
                Ok (with_maps (sources st) (gainNodes st)
                      (<[id := <[effectType :=
                                   setPitchRatio (Rpower 2 (amount / 12)) effectNode]>
                                effectsMap]> (effectNodes st)) st,
                    true)
            | None => Ok (st, true)
            end
          else if String.eqb effectType "spatialAudio" then
            let* st := setPart effectNode "panner" pan (prop parameters "pan") st in
            Ok (st, true)
          else Ok (st, true)
      end
  end.

(** One call of the transition manager, carried out by the service.
    [audioBuffer] is what the fetch of a [playAudio] call delivers. *)
Definition perform (c : call) (audioBuffer : option nat) (st : service)
    : outcome (service * bool) :=
  match c with
  | PlayAudio id url options => Ok (playAudio id url options audioBuffer st)
  | StopAudio id fadeOut => Ok (stopAudio id fadeOut st)
  | SetVolume id volume => Ok (setVolume id volume st)
  | FadeOutAudio id duration => Ok (fadeOutAudio id duration st)
  | ApplyEffect id effectType parameters => applyEffect id effectType parameters st
  end.

Definition setMasterVolume (volume : R) (st : service) : service :=
  emit [setValueAtTime (masterGain st) gain volume (currentTime st)] st.

(** What happens to a service: the methods that change it are called,
    a pending callback runs, time passes on the audio context. *)
Inductive event : Type :=
| called (c : call) (audioBuffer : option nat)
| masterVolume (volume : R)
| fired (k : nat)
| elapsed (now : R) (reading : nat -> R).

Definition step (e : event) (st : service) : outcome service :=
  match e with
  | called c audioBuffer =>
      let* r := perform c audioBuffer st in
      Ok (fst r)
  | masterVolume volume => Ok (setMasterVolume volume st)
  | fired k => Ok (fireTimer k st)
  | elapsed now reading =>
      Ok {| sources := sources st; gainNodes := gainNodes st;
            effectNodes := effectNodes st;
            masterGain := masterGain st; nextNode := nextNode st;
            currentTime := now; gainValue := reading;
            timers := timers st; commands := commands st |}
  end.

(** The services that a run of events produces from a new one. *)
Inductive reachable : service -> Prop :=
| reachable_new (now : R) (reading : nat -> R) :
    reachable (new now reading)
| reachable_step (e : event) (st st' : service) :
    reachable st -> step e st = Ok st' -> reachable st'.

(** The three maps hold the same ids: [playAudio] sets all three and
    the cleanup deletes from all three. *)
Definition consistent (st : service) : Prop :=
  forall id : string,
    (sources st !! id = None <-> gainNodes st !! id = None) /\
    (sources st !! id = None <-> effectNodes st !! id = None).

(** [st'] has the ids of [st], with the same sources. *)
Definition same_ids (st st' : service) : Prop :=
  sources st' = sources st /\
  gainNodes st' = gainNodes st /\
  (forall id : string, effectNodes st' !! id = None <-> effectNodes st !! id = None) /\
  (nextNode st <= nextNode st')%nat.

(** Every stored source and gain node was created by the context. *)
Definition created (st : service) : Prop :=
  forall (id : string) (node : nat),
    sources st !! id = Some node \/ gainNodes st !! id = Some node ->
    (node < nextNode st)%nat.

(** The effect that the factory of [effectType] returns. *)
Definition made_by (effectType : string) (e : effectNode) : bool :=
  match e with
  | filterEffect _ =>
      String.eqb effectType "lowpass" || String.eqb effectType "highpass"
  | reverbEffect _ _ _ _ _ => String.eqb effectType "reverb"
  | delayEffect _ _ _ _ => String.eqb effectType "delay"
  | pitchEffect _ _ _ => String.eqb effectType "pitchShift"
  | spatialEffect _ => String.eqb effectType "spatialAudio"
  end.

(** Every stored effect is stored under the type of its factory. *)
Definition shaped (st : service) : Prop :=
  forall (id effectType : string) (effectsMap : gmap string effectNode)
         (e : effectNode),
    effectNodes st !! id = Some effectsMap ->
    effectsMap !! effectType = Some e ->
    made_by effectType e = true.

(** A command that sets a parameter at once, at time [now]. *)
Definition instant (now : R) (c : command) : Prop :=
  exists node p value, c = setValueAtTime node p value now.

(** A command that stops no source. *)
Definition quiet (c : command) : Prop := forall node, c <> stop node.

(** [st'] is [st] after the creation and the wiring of audio nodes:
    the ids and their sources, the timers and the clock are the same. *)
Definition wired (st st' : service) : Prop :=
  sources st' = sources st /\
  gainNodes st' = gainNodes st /\
  (forall id : string, effectNodes st' !! id = None <-> effectNodes st !! id = None) /\
  timers st' = timers st /\
  masterGain st' = masterGain st /\
  currentTime st' = currentTime st /\
  gainValue st' = gainValue st /\
  (nextNode st <= nextNode st')%nat /\
  exists cs, commands st' = commands st ++ cs /\ Forall quiet cs.

End EnhancedAudioService.

(** ** PathRecorderService

    The recorder keeps the path that was walked.  The positions come
    from the geolocation watch; the map, the events sent to the window
    and the contents of the audio snapshots are not modelled, the
    snapshots are kept by their number. *)

Module PathRecorderService.

Local Open Scope R_scope.

Record recorderSettings : Type := {
  captureInterval : R;
  minDistance : R;
  maxDuration : R;
  includeAudioSnapshot : bool
}.

Record recorder : Type := {
  isRecording : bool;
  recordedPath : list point;
  recordedAudio : nat;
  currentCompositionId : option string;
  settings : recorderSettings
}.

(** The recorder after its constructor. *)
Definition new : recorder :=
  {| isRecording := false;
     recordedPath := [];
     recordedAudio := 0;
     currentCompositionId := None;
     settings := {| captureInterval := 1000;
                    minDistance := 2;
                    maxDuration := 3600000;
                    includeAudioSnapshot := true |} |}.

(** [geolocation] tells whether [navigator.geolocation] is there. *)
Definition startRecording (geolocation : bool) (compositionId : string)
    (rec : recorder) : recorder * bool :=
  if isRecording rec then (rec, false)
  else if negb geolocation then (rec, false)
  else
    ({| isRecording := true;
        recordedPath := [];
        recordedAudio := 0;
        currentCompositionId := Some compositionId;
        settings := settings rec |},
     true).

Definition captureAudioState (rec : recorder) : recorder :=
  {| isRecording := isRecording rec;
     recordedPath := recordedPath rec;
     recordedAudio := S (recordedAudio rec);
     currentCompositionId := currentCompositionId rec;
     settings := settings rec |}.

(** The callback of the geolocation watch; [newPoint] is the point
    made from the position.  [||] does not read the last point of an
    empty path. *)
Definition capturePosition (newPoint : point) (rec : recorder) : recorder :=
  let far :=
    match last (recordedPath rec) with
    | None => true
    | Some lastPoint =>
        leb (minDistance (settings rec))
            (MapUtils.calculateDistance lastPoint newPoint)
    end in
  if far then
    let rec :=
      {| isRecording := isRecording rec;
         recordedPath := recordedPath rec ++ [newPoint];
         recordedAudio := recordedAudio rec;
         currentCompositionId := currentCompositionId rec;
         settings := settings rec |} in
    if includeAudioSnapshot (settings rec) then captureAudioState rec else rec
  else rec.

(** What [stopRecording] goes on to do. *)
Inductive stopped : Type :=
| notRecording
| generateComposition (path : list point) (audioEvents : nat)
| notEnoughMovement.

(** [stopRecording] up to the request that generates the composition. *)
Definition stopRecording (rec : recorder) : recorder * stopped :=
  if negb (isRecording rec) then (rec, notRecording)
  else
    let rec :=
      if includeAudioSnapshot (settings rec) then captureAudioState rec else rec in
    let rec :=
      {| isRecording := false;
         recordedPath := recordedPath rec;
         recordedAudio := recordedAudio rec;
         currentCompositionId := currentCompositionId rec;
         settings := settings rec |} in
    if Nat.leb 2 (length (recordedPath rec))
    then (rec, generateComposition (recordedPath rec) (recordedAudio rec))
    else (rec, notEnoughMovement).

(** The positions that the watch delivers, one after the other. *)
Definition capturePositions (positions : list point) (rec : recorder) : recorder :=
  foldl (fun rec newPoint => capturePosition newPoint rec) rec positions.

End PathRecorderService.

(** ** The simplification of a polygon, told on lists

    [distanceTo a b p] is the distance that [findFurthestPoint]
    computes for a point [p] between the ends [a] and [b] of a segment,
    and [furthest] is its loop over the distances of the points in
    between.  [kept tolerance a mid b ks] holds when [ks] are the points
    among [mid], the points strictly between [a] and [b], that the
    recursion of [simplifySegment] keeps: none when no point is further
    than the tolerance, else the furthest point [c] and the points kept
    on either side of it. *)

Definition distanceTo (a b p : point) : R :=
  MapUtils.distanceToLine (lat p) (lng p) (lat a) (lng a) (lat b) (lng b).

Fixpoint furthest (distances : list R) (i : nat)
    (maxDistance : R) (maxIndex : nat) : R * nat :=
  match distances with
  | [] => (maxDistance, maxIndex)
  | distance :: distances' =>
      if gtb distance maxDistance
      then furthest distances' (S i) distance i
      else furthest distances' (S i) maxDistance maxIndex
  end.

Inductive kept (tolerance : R)
    : point -> list point -> point -> list point -> Prop :=
| kept_none (a b : point) (mid : list point) :
    (fst (furthest (distanceTo a b <$> mid) 1 0%R 0) <= tolerance)%R ->
    kept tolerance a mid b []
| kept_furthest (a b c : point) (m1 m2 k1 k2 : list point) :
    furthest (distanceTo a b <$> (m1 ++ c :: m2)) 1 0%R 0
      = (distanceTo a b c, S (length m1)) ->
    (distanceTo a b c > tolerance)%R ->
    kept tolerance a m1 c k1 ->
    kept tolerance c m2 b k2 ->
    kept tolerance a (m1 ++ c :: m2) b (k1 ++ c :: k2).

(** ** Reading the calls of the transition manager *)


(** The volume of the crossfade as the specification words it:
    [base * (0.7 + 0.3 * ratio)] with [ratio = 1 - d / (d + other)],
    for a region at distance [d] whose partner is at distance [other]. *)
Definition crossfadeVolume (base d other : R) : R :=
  (base * (0.7 + 0.3 * (1 - d / (d + other))))%R.

(** ** Segments and rays, told on coordinates and lists *)

(** The squared distance from [(x, y)] to the point at [t] along the
    segment from [(x1, y1)] to [(x2, y2)]. *)
Definition squaredDistanceAlong (x y x1 y1 x2 y2 t : R) : R :=
  ((x - (x1 + t * (x2 - x1))) * (x - (x1 + t * (x2 - x1))) +
   (y - (y1 + t * (y2 - y1))) * (y - (y1 + t * (y2 - y1))))%R.

(** The ray casting test, told on lists: the value of [inside] after
    the edges that end at the points of [l], the first of which starts
    at [prev]. *)
Fixpoint crossings (pt prev : point) (l : list point) (inside : bool) : bool :=
  match l with
  | [] => inside
  | p :: l' =>
      crossings pt p l'
        (if MapUtils.intersect pt p prev then negb inside else inside)
  end.

(** The value of an effect parameter at a given progress: the start of
    its range at progress 1, the end of its range at progress 0. *)
Definition interpolate (r : BoundaryTransitionManager.range) (progress : R) : R :=
  (BoundaryTransitionManager.start r
   + (1 - progress)
     * (BoundaryTransitionManager.end_ r - BoundaryTransitionManager.start r))%R.

(** ** Reading the calls and the callbacks of the audio service *)

(** The id that a call is for. *)
Definition target (c : call) : string :=
  match c with
  | PlayAudio id _ _ => id
  | StopAudio id _ => id
  | SetVolume id _ => id
  | FadeOutAudio id _ => id
  | ApplyEffect id _ _ => id
  end.

(** The id that a callback is for. *)
Definition timerId (t : EnhancedAudioService.timer) : string :=
  match t with
  | EnhancedAudioService.stopCleanup _ _ id => id
  | EnhancedAudioService.fadeOutCleanup _ id => id
  end.



(** * Properties *)

(** ** Numbers *)

Section numbers.

Local Open Scope R_scope.

Lemma gtb_true (a b : R) : gtb a b = true <-> a > b.
Proof. unfold gtb. destruct (Rgt_dec a b); split; intros; congruence || lra. Qed.

Lemma gtb_false (a b : R) : gtb a b = false <-> a <= b.
Proof. unfold gtb. destruct (Rgt_dec a b); split; intros; congruence || lra. Qed.

Lemma ltb_true (a b : R) : ltb a b = true <-> a < b.
Proof. unfold ltb. destruct (Rlt_dec a b); split; intros; congruence || lra. Qed.

Lemma ltb_false (a b : R) : ltb a b = false <-> b <= a.
Proof. unfold ltb. destruct (Rlt_dec a b); split; intros; congruence || lra. Qed.

Lemma leb_true (a b : R) : leb a b = true <-> a <= b.
Proof. unfold leb. destruct (Rle_dec a b); split; intros; congruence || lra. Qed.

Lemma leb_false (a b : R) : leb a b = false <-> b < a.
Proof. unfold leb. destruct (Rle_dec a b); split; intros; congruence || lra. Qed.

Lemma eqb_true (a b : R) : eqb a b = true <-> a = b.
Proof. unfold eqb. destruct (Req_dec_T a b); split; intros; congruence. Qed.


End numbers.

(** ** Geometry *)

Section geometry.

Import MapUtils.
Local Open Scope R_scope.

Lemma distanceToLine_nonneg (x y x1 y1 x2 y2 : R) :
  0 <= distanceToLine x y x1 y1 x2 y2.
Proof.
  unfold distanceToLine. cbv zeta.
  repeat match goal with
         | |- context [if ?b then _ else _] => destruct b
         end;
    apply Rmult_le_pos; try apply sqrt_pos; lra.
Qed.





End geometry.

(** ** The furthest point of a segment *)

Section furthest_point.

Local Open Scope R_scope.

(** What the loop returns: either no distance exceeded the running
    maximum, or the first of the largest distances and its index. *)
Lemma furthest_spec (ds : list R) :
  forall (i : nat) (md : R) (mi : nat) (r : R) (k : nat),
    furthest ds i md mi = (r, k) ->
    (k = mi /\ r = md /\ Forall (fun x => x <= md) ds) \/
    (exists ds1 d ds2,
        ds = ds1 ++ d :: ds2 /\ k = (i + length ds1)%nat /\ r = d /\ md < d /\
        Forall (fun x => x < d) ds1 /\ Forall (fun x => x <= d) ds2).
Proof.
  induction ds as [| d0 ds IH]; intros i md mi r k H; cbn in H.
  - left. inversion H; subst. repeat split. constructor.
  - destruct (gtb d0 md) eqn:Hgt.
    + apply gtb_true in Hgt. right.
      destruct (IH _ _ _ _ _ H) as [(-> & -> & Hall) | (ds1 & d & ds2 & -> & -> & -> & Hlt & H1 & H2)].
      * exists [], d0, ds. cbn. repeat split; try lra; try lia; auto.
      * exists (d0 :: ds1), d, ds2. cbn. repeat split; try lra; try lia; auto.
        all: try (constructor; [lra | exact H1]).
    + apply gtb_false in Hgt.
      destruct (IH _ _ _ _ _ H) as [(-> & -> & Hall) | (ds1 & d & ds2 & -> & -> & -> & Hlt & H1 & H2)].
      * left. repeat split. constructor; [lra | exact Hall].
      * right. exists (d0 :: ds1), d, ds2. cbn. repeat split; try lra; try lia; auto.
        all: try (constructor; [lra | exact H1]).
Qed.

Lemma furthest_no_update (ds : list R) :
  forall (i : nat) (md : R) (mi : nat),
    Forall (fun x => x <= md) ds -> furthest ds i md mi = (md, mi).
Proof.
  induction ds as [| d0 ds IH]; intros i md mi Hall; cbn; [reflexivity |].
  apply Forall_cons in Hall as [H0 Hall].
  apply gtb_false in H0. rewrite H0. now apply IH.
Qed.

(** Conversely, a distance that exceeds everything before it and is
    not exceeded after it is the one returned. *)
Lemma furthest_complete (ds1 : list R) :
  forall (d : R) (ds2 : list R) (i : nat) (md : R) (mi : nat),
    md < d ->
    Forall (fun x => x < d) ds1 ->
    Forall (fun x => x <= d) ds2 ->
    furthest (ds1 ++ d :: ds2) i md mi = (d, (i + length ds1)%nat).
Proof.
  induction ds1 as [| d0 ds1 IH]; intros d ds2 i md mi Hlt H1 H2; cbn.
  - assert (Hgt : gtb d md = true) by (apply gtb_true; lra).
    rewrite Hgt, Nat.add_0_r. now apply furthest_no_update.
  - apply Forall_cons in H1 as [H0 H1].
    replace (i + S (length ds1))%nat with (S i + length ds1)%nat by lia.
    destruct (gtb d0 md); apply IH; auto; lra.
Qed.

(** The facts about the distances that a premise of [kept_furthest]
    carries. *)
Lemma furthest_at (a b c : point) (m1 m2 : list point) (i : nat) :
  furthest (distanceTo a b <$> (m1 ++ c :: m2)) (S i) 0 0%nat
    = (distanceTo a b c, (S i + length m1)%nat) ->
  0 < distanceTo a b c /\
  Forall (fun p => distanceTo a b p < distanceTo a b c) m1 /\
  Forall (fun p => distanceTo a b p <= distanceTo a b c) m2.
Proof.
  intros H. apply furthest_spec in H as [(Hk & _) | (ds1 & d & ds2 & Heq & Hk & Hd & Hlt & H1 & H2)].
  - lia.
  - assert (Hlen : length ds1 = length m1) by lia.
    rewrite fmap_app, fmap_cons in Heq.
    apply app_inj_1 in Heq as [<- Heq]; [| now rewrite length_fmap].
    inversion Heq; subst.
    rewrite Forall_fmap in H1. rewrite Forall_fmap in H2.
    repeat split; auto.
Qed.

End furthest_point.

(** ** Simplification: the points that are kept *)

Section kept_points.

Local Open Scope R_scope.

Variable tolerance : R.
Hypothesis tolerance_nonneg : 0 <= tolerance.

Lemma kept_sublist (a b : point) (mid ks : list point) :
  kept tolerance a mid b ks -> ks `sublist_of` mid.
Proof.
  induction 1 as [| a b c m1 m2 k1 k2 _ _ _ IH1 _ IH2].
  - apply sublist_nil_l.
  - apply sublist_app; [exact IH1 |]. now apply sublist_skip.
Qed.

(** Between any two ends the recursion keeps some points: it is
    defined on every segment, because a point further than a
    non-negative tolerance lies strictly between the ends. *)
Lemma kept_total (n : nat) :
  forall (a b : point) (mid : list point),
    (length mid < n)%nat -> exists ks, kept tolerance a mid b ks.
Proof.
  induction n as [| n IH]; intros a b mid Hlen; [lia |].
  destruct (furthest (distanceTo a b <$> mid) 1 0 0%nat) as [r k] eqn:Hf.
  destruct (Rle_dec r tolerance) as [Hle | Hgt].
  - exists []. apply kept_none. now rewrite Hf.
  - pose proof Hf as Hf'.
    apply furthest_spec in Hf' as [(_ & -> & _) | (ds1 & d & ds2 & Heq & -> & -> & _)];
      [lra |].
    apply fmap_app_inv in Heq as (m1 & rest & -> & Hrest & ->).
    symmetry in Hrest. apply fmap_cons_inv in Hrest as (c & m2 & -> & -> & ->).
    rewrite length_app in Hlen. cbn in Hlen.
    destruct (IH a c m1) as [k1 Hk1]; [lia |].
    destruct (IH c b m2) as [k2 Hk2]; [lia |].
    exists (k1 ++ c :: k2). apply kept_furthest; auto; [| lra].
    rewrite Hf, length_fmap. reflexivity.
Qed.

(** Simplifying what was kept keeps all of it. *)
Lemma kept_again (a b : point) (mid ks : list point) :
  kept tolerance a mid b ks -> kept tolerance a ks b ks.
Proof.
  induction 1 as [a b mid _ | a b c m1 m2 k1 k2 Hf Hgt H1 IH1 H2 IH2].
  - apply kept_none. cbn. exact tolerance_nonneg.
  - apply kept_furthest; auto.
    apply (furthest_at a b c m1 m2 0) in Hf as (Hpos & Hm1 & Hm2).
    rewrite fmap_app, fmap_cons.
    rewrite <- (length_fmap (distanceTo a b) k1).
    apply furthest_complete; [exact Hpos | |].
    + apply Forall_fmap. rewrite Forall_forall in Hm1 |- *.
      intros p Hp. apply Hm1. eapply elem_of_sublist; [exact Hp |].
      eapply kept_sublist; eassumption.
    + apply Forall_fmap. rewrite Forall_forall in Hm2 |- *.
      intros p Hp. apply Hm2. eapply elem_of_sublist; [exact Hp |].
      eapply kept_sublist; eassumption.
Qed.

End kept_points.

(** ** Simplification: the recursion on an array *)

Section simplify_array.

Import MapUtils.
Local Open Scope R_scope.

Lemma at_index_middle {A : Type} (pre : list A) (x : A) (post : list A) :
  at_index (pre ++ x :: post) (length pre) = Ok x.
Proof. unfold at_index. now rewrite list_lookup_middle. Qed.

Lemma furthest_fst (ds : list R) :
  forall (i i' : nat) (md : R) (mi mi' : nat),
    fst (furthest ds i md mi) = fst (furthest ds i' md mi').
Proof.
  induction ds as [| d ds IH]; intros i i' md mi mi'; cbn; [reflexivity |].
  destruct (gtb d md); apply IH.
Qed.

(** The loop of [findFurthestPoint] over the points [mid] that the
    array holds from index [i] on. *)
Lemma findFurthestPoint_loop_eq (points : list point) (s e : nat) (a b : point) :
  at_index points s = Ok a ->
  at_index points e = Ok b ->
  forall (mid pre post : list point) (md : R) (mi : nat),
    points = pre ++ mid ++ post ->
    findFurthestPoint_loop points s e (length mid) (length pre) md mi
      = Ok (furthest (distanceTo a b <$> mid) (length pre) md mi).
Proof.
  intros Hs He mid.
  induction mid as [| p mid IH]; intros pre post md mi Hp; [reflexivity |].
  cbn [length findFurthestPoint_loop].
  rewrite Hs, He.
  assert (Hi : at_index points (length pre) = Ok p).
  { rewrite Hp. apply at_index_middle. }
  rewrite Hi. cbn [bind fmap list_fmap furthest].
  fold (distanceTo a b p).
  specialize (IH (pre ++ [p]) post).
  rewrite length_app in IH. cbn [length] in IH.
  replace (length pre + 1)%nat with (S (length pre)) in IH by lia.
  destruct (gtb (distanceTo a b p) md); apply IH;
    rewrite Hp, <- app_assoc; reflexivity.
Qed.

Lemma findFurthestPoint_eq (pre mid post : list point) (a b : point) :
  findFurthestPoint (pre ++ a :: mid ++ b :: post)
                    (length pre) (length pre + S (length mid))
  = Ok (furthest (distanceTo a b <$> mid) (length pre + 1) 0 0%nat).
Proof.
  unfold findFurthestPoint.
  replace (length pre + S (length mid) - (length pre + 1))%nat
    with (length mid) by lia.
  pose proof (findFurthestPoint_loop_eq (pre ++ a :: mid ++ b :: post)
                (length pre) (length pre + S (length mid)) a b) as H.
  specialize (H (at_index_middle pre a (mid ++ b :: post))).
  assert (He : at_index (pre ++ a :: mid ++ b :: post)
                        (length pre + S (length mid)) = Ok b).
  { replace (pre ++ a :: mid ++ b :: post)
      with ((pre ++ a :: mid) ++ b :: post)
      by (rewrite <- app_assoc; reflexivity).
    replace (length pre + S (length mid))%nat with (length (pre ++ a :: mid))
      by (rewrite length_app; reflexivity).
    apply at_index_middle. }
  specialize (H He mid (pre ++ [a]) (b :: post) 0 0%nat).
  rewrite length_app in H. cbn [length] in H.
  apply H. rewrite <- app_assoc. reflexivity.
Qed.

Lemma includes_false (result : list point) (p : point) :
  (forall q, q ∈ result -> ref q <> ref p) -> includes result p = false.
Proof.
  intros H. unfold includes.
  induction result as [| q result IH]; [reflexivity |].
  cbn. rewrite IH by (intros q' Hq'; apply H; now right).
  assert (Hq : ref q <> ref p) by (apply H; now left).
  apply Nat.eqb_neq in Hq. now rewrite Hq.
Qed.

(** In an array of distinct objects, an object is not among those that
    come before it. *)
Lemma distinct_before (l1 l2 : list point) (b q : point) :
  NoDup (ref <$> (l1 ++ l2)) -> q ∈ l1 -> b ∈ l2 -> ref q <> ref b.
Proof.
  intros Hnd Hq Hb Heq.
  rewrite fmap_app in Hnd. apply NoDup_app in Hnd as (_ & Hdis & _).
  apply (Hdis (ref q)).
  - apply list_elem_of_fmap. now exists q.
  - rewrite Heq. apply list_elem_of_fmap. now exists b.
Qed.

Variable tolerance : R.

(** On a segment of an array of distinct objects, [simplifySegment]
    returns and pushes the kept points and the end of the segment. *)
Lemma simplifySegment_kept (a b : point) (mid ks : list point) :
  kept tolerance a mid b ks ->
  forall (pre post result : list point),
    NoDup (ref <$> (pre ++ a :: mid ++ b :: post)) ->
    (forall p, p ∈ result -> p ∈ pre ++ [a]) ->
    exists f0 : nat, forall fuel : nat, (f0 <= fuel)%nat ->
      simplifySegment (pre ++ a :: mid ++ b :: post) tolerance fuel
                      (length pre) (length pre + S (length mid)) result
      = Ok (result ++ ks ++ [b]).
Proof.
  induction 1 as [a b mid Hle | a b c m1 m2 k1 k2 Hf Hgt H1 IH1 H2 IH2];
    intros pre post result Hnd Hres.
  - exists 1%nat. intros [| fuel] Hfuel; [lia |].
    cbn [simplifySegment].
    rewrite findFurthestPoint_eq. cbn [bind].
    destruct (furthest (distanceTo a b <$> mid) (length pre + 1) 0 0%nat)
      as [r k] eqn:Hr.
    assert (Hrle : r <= tolerance).
    { rewrite (furthest_fst _ 1 (length pre + 1) 0 0%nat 0%nat) in Hle.
      now rewrite Hr in Hle. }
    apply gtb_false in Hrle. rewrite Hrle.
    assert (He : at_index (pre ++ a :: mid ++ b :: post)
                          (length pre + S (length mid)) = Ok b).
    { replace (pre ++ a :: mid ++ b :: post)
        with ((pre ++ a :: mid) ++ b :: post)
        by (rewrite <- app_assoc; reflexivity).
      replace (length pre + S (length mid))%nat with (length (pre ++ a :: mid))
        by (rewrite length_app; reflexivity).
      apply at_index_middle. }
    rewrite He. cbn [bind].
    rewrite includes_false; [reflexivity |].
    intros q Hq. apply Hres in Hq.
    apply (distinct_before (pre ++ [a]) (mid ++ b :: post)); auto.
    + now rewrite <- app_assoc.
    + apply elem_of_app. right. now left.
  - destruct (IH1 pre (m2 ++ b :: post) result) as [f1 Hf1].
    { now rewrite <- app_assoc in Hnd. }
    { exact Hres. }
    destruct (IH2 (pre ++ a :: m1) post (result ++ k1 ++ [c])) as [f2 Hf2].
    { rewrite <- app_assoc in Hnd. now rewrite <- app_assoc. }
    { intros p Hp. apply elem_of_app in Hp as [Hp | Hp].
      - apply Hres in Hp. apply elem_of_app in Hp as [Hp | Hp].
        + apply elem_of_app. left. apply elem_of_app. now left.
        + apply elem_of_app. left. apply elem_of_app. right.
          apply list_elem_of_singleton in Hp as ->. now left.
      - apply elem_of_app in Hp as [Hp | Hp].
        + apply elem_of_app. left. apply elem_of_app. right. right.
          eapply elem_of_sublist; [exact Hp |]. eapply kept_sublist; eassumption.
        + apply elem_of_app. now right. }
    exists (S (Nat.max f1 f2)). intros [| fuel] Hfuel; [lia |].
    cbn [simplifySegment].
    rewrite findFurthestPoint_eq. cbn [bind].
    apply (furthest_at a b c m1 m2 0) in Hf as (Hpos & Hm1 & Hm2).
    rewrite fmap_app, fmap_cons.
    rewrite furthest_complete;
      [| exact Hpos | now apply Forall_fmap | now apply Forall_fmap].
    assert (Hgtb : gtb (distanceTo a b c) tolerance = true)
      by now apply gtb_true.
    rewrite Hgtb, length_fmap.
    replace (length pre + 1 + length m1)%nat
      with (length pre + S (length m1))%nat by lia.
    replace (pre ++ a :: (m1 ++ c :: m2) ++ b :: post)
      with (pre ++ a :: m1 ++ c :: m2 ++ b :: post)
      by (now rewrite <- app_assoc).
    rewrite Hf1 by lia. cbn [bind].
    specialize (Hf2 fuel).
    rewrite <- app_assoc in Hf2. cbn [app] in Hf2.
    rewrite length_app in Hf2. cbn [length] in Hf2.
    rewrite length_app. cbn [length].
    replace (length pre + S (length m1 + S (length m2)))%nat
      with (length pre + S (length m1) + S (length m2))%nat by lia.
    rewrite Hf2 by lia.
    f_equal. rewrite <- !app_assoc. reflexivity.
Qed.

End simplify_array.

(** ** Simplification: the whole polygon *)

Section simplify_polygon.

Import MapUtils.
Local Open Scope R_scope.

Lemma ends_of {A : Type} (l : list A) :
  (2 <= length l)%nat -> exists a mid b, l = a :: mid ++ [b].
Proof.
  intros Hlen. destruct l as [| a l]; [cbn in Hlen; lia |].
  destruct l as [| x l] using rev_ind; [cbn in Hlen; lia |].
  now exists a, l, x.
Qed.

(** A polygon of distinct objects is reduced to its ends and the kept
    points between them. *)
Lemma simplifyPolygon_kept (tolerance : R) (a b : point) (mid ks : list point) :
  0 <= tolerance ->
  kept tolerance a mid b ks ->
  NoDup (ref <$> (a :: mid ++ [b])) ->
  exists f0 : nat, forall fuel : nat, (f0 <= fuel)%nat ->
    simplifyPolygon (a :: mid ++ [b]) tolerance fuel = Ok (a :: ks ++ [b]).
Proof.
  intros Htol Hk Hnd. unfold simplifyPolygon.
  destruct (Nat.leb (length (a :: mid ++ [b])) 2) eqn:Hlen.
  - exists 0%nat. intros fuel _.
    apply Nat.leb_le in Hlen. cbn in Hlen. rewrite length_app in Hlen.
    cbn in Hlen. destruct mid as [| m mid]; [| cbn in Hlen; lia].
    apply kept_sublist, sublist_nil_r in Hk as ->. reflexivity.
  - destruct (simplifySegment_kept tolerance a b mid ks Hk [] [] [a])
      as [f0 Hf0].
    + exact Hnd.
    + intros p Hp. exact Hp.
    + exists f0. intros fuel Hfuel. cbn [at_index lookup list_lookup bind].
      specialize (Hf0 fuel Hfuel). cbn [app length Nat.add] in Hf0.
      replace (length (a :: mid ++ [b]) - 1)%nat with (S (length mid))
        by (cbn; rewrite length_app; cbn; lia).
      exact Hf0.
Qed.

(** C7, for arrays of distinct point objects and a tolerance that is
    not negative: [simplifyPolygon] returns, simplifying its result
    again returns the same result, and the result starts with the
    first and ends with the last point of the input. *)
Theorem simplifyPolygon_idempotent (points : list point) (tolerance : R) :
  NoDup (ref <$> points) ->
  0 <= tolerance ->
  exists simplified : list point,
    (exists f0 : nat, forall fuel : nat, (f0 <= fuel)%nat ->
        simplifyPolygon points tolerance fuel = Ok simplified) /\
    (exists f0 : nat, forall fuel : nat, (f0 <= fuel)%nat ->
        simplifyPolygon simplified tolerance fuel = Ok simplified) /\
    head simplified = head points /\
    last simplified = last points.
Proof.
  intros Hnd Htol.
  destruct (le_lt_dec 2 (length points)) as [Hlen | Hlen].
  - apply ends_of in Hlen as (a & mid & b & ->).
    destruct (kept_total tolerance Htol (S (length mid)) a b mid) as [ks Hk];
      [lia |].
    exists (a :: ks ++ [b]). repeat split.
    + now apply simplifyPolygon_kept.
    + apply simplifyPolygon_kept; [exact Htol | | ].
      * eapply kept_again; eassumption.
      * eapply sublist_NoDup; [exact Hnd |].
        apply (fmap_sublist ref). apply sublist_skip.
        apply sublist_app; [| reflexivity].
        eapply kept_sublist; eassumption.
    + now rewrite !app_comm_cons, !last_snoc.
  - exists points. repeat split.
    + exists 0%nat. intros fuel _. unfold simplifyPolygon.
      assert (H : Nat.leb (length points) 2 = true) by (apply Nat.leb_le; lia).
      now rewrite H.
    + exists 0%nat. intros fuel _. unfold simplifyPolygon.
      assert (H : Nat.leb (length points) 2 = true) by (apply Nat.leb_le; lia).
      now rewrite H.
Qed.

(** A result does not depend on the fuel that was enough for it. *)
Lemma simplifySegment_more_fuel (points : list point) (tolerance : R) :
  forall (fuel fuel' s e : nat) (result simplified : list point),
    (fuel <= fuel')%nat ->
    simplifySegment points tolerance fuel s e result = Ok simplified ->
    simplifySegment points tolerance fuel' s e result = Ok simplified.
Proof.
  induction fuel as [| fuel IH]; intros fuel' s e result simplified Hle H;
    [discriminate |].
  destruct fuel' as [| fuel']; [lia |].
  cbn [simplifySegment] in H |- *.
  destruct (findFurthestPoint points s e) as [[r k] | |];
    cbn [bind] in H |- *; try discriminate.
  destruct (gtb r tolerance); [| exact H].
  destruct (simplifySegment points tolerance fuel s k result) as [r1 | |] eqn:H1;
    cbn [bind] in H; try discriminate.
  rewrite (IH fuel' s k result r1) by (auto; lia). cbn [bind].
  apply (IH fuel'); [lia | exact H].
Qed.

(** With a negative tolerance the recursion never returns a result
    once it is entered: every distance exceeds the tolerance. *)
Lemma findFurthestPoint_loop_nonneg (points : list point) (s e : nat) :
  forall (n i : nat) (md : R) (mi : nat) (r : R) (k : nat),
    0 <= md ->
    findFurthestPoint_loop points s e n i md mi = Ok (r, k) -> 0 <= r.
Proof.
  induction n as [| n IH]; intros i md mi r k Hmd H; cbn in H.
  - now inversion H; subst.
  - destruct (at_index points i) as [p | |]; cbn in H; try discriminate.
    destruct (at_index points s) as [ps | |]; cbn in H; try discriminate.
    destruct (at_index points e) as [pe | |]; cbn in H; try discriminate.
    destruct (gtb _ md) eqn:Hgt.
    + eapply IH; [| exact H]. apply distanceToLine_nonneg.
    + eapply IH; [| exact H]. exact Hmd.
Qed.

Lemma simplifySegment_negative_tolerance (points : list point) (tolerance : R) :
  tolerance < 0 ->
  forall (fuel s e : nat) (result simplified : list point),
    simplifySegment points tolerance fuel s e result <> Ok simplified.
Proof.
  intros Htol. induction fuel as [| fuel IH]; intros s e result simplified;
    cbn [simplifySegment]; [discriminate |].
  destruct (findFurthestPoint points s e) as [[r k] | |] eqn:Hf;
    cbn [bind]; try discriminate.
  apply findFurthestPoint_loop_nonneg in Hf; [| lra].
  assert (Hgt : gtb r tolerance = true) by (apply gtb_true; lra).
  rewrite Hgt.
  destruct (simplifySegment points tolerance fuel s k result) as [r1 | |] eqn:H1;
    cbn [bind]; try discriminate.
  now apply IH in H1.
Qed.

Lemma simplifyPolygon_negative_tolerance (points : list point) (tolerance : R) :
  tolerance < 0 ->
  (2 < length points)%nat ->
  forall (fuel : nat) (simplified : list point),
    simplifyPolygon points tolerance fuel <> Ok simplified.
Proof.
  intros Htol Hlen fuel simplified. unfold simplifyPolygon.
  assert (H : Nat.leb (length points) 2 = false) by (apply Nat.leb_gt; lia).
  rewrite H.
  destruct (at_index points 0) as [p0 | |]; cbn [bind]; try discriminate.
  now apply simplifySegment_negative_tolerance.
Qed.

End simplify_polygon.

(** An array that holds one object twice.  The points [a], [b], [a],
    [c], [d] are simplified to [a], [b], [c], [d]: the second
    occurrence of [a] is a furthest point but is not pushed again, and
    [c] is kept because it is off the segment from [a] to [d].
    Simplified again, [c] lies on the segment from [b] to [d] and is
    dropped. *)

Section shared_point.

Import MapUtils.
Local Open Scope R_scope.

Ltac decide_if :=
  match goal with
  | |- context [ltb ?x ?y] =>
      first [ rewrite (proj2 (ltb_true x y)) by lra
            | rewrite (proj2 (ltb_false x y)) by lra ]
  | |- context [gtb ?x ?y] =>
      first [ rewrite (proj2 (gtb_true x y)) by lra
            | rewrite (proj2 (gtb_false x y)) by lra ]
  end.

Ltac distance_is :=
  unfold distanceToLine; cbv zeta;
  destruct (Req_dec_T _ 0) as [? | ?]; [exfalso; lra |];
  unfold divide; repeat decide_if;
  f_equal; f_equal; field.

Lemma distance_b_ad : distanceToLine 0 0 1 0 0 2 = sqrt (4 / 5) * 111000.
Proof. distance_is. Qed.

Lemma distance_a_ad : distanceToLine 1 0 1 0 0 2 = sqrt 0 * 111000.
Proof. distance_is. Qed.

Lemma distance_c_ad : distanceToLine 0 1 1 0 0 2 = sqrt (1 / 5) * 111000.
Proof. distance_is. Qed.

Lemma distance_a_bd : distanceToLine 1 0 0 0 0 2 = sqrt 1 * 111000.
Proof. distance_is. Qed.

Lemma distance_c_bd : distanceToLine 0 1 0 0 0 2 = sqrt 0 * 111000.
Proof. distance_is. Qed.

Lemma gtb_scaled (u v : R) :
  0 <= u -> 0 <= v -> gtb (sqrt u * 111000) (sqrt v * 111000) = gtb u v.
Proof.
  intros Hu Hv. destruct (gtb u v) eqn:H.
  - apply gtb_true in H. apply gtb_true.
    pose proof (sqrt_lt_1 v u Hv Hu H). lra.
  - apply gtb_false in H. apply gtb_false.
    pose proof (sqrt_le_1_alt u v H). lra.
Qed.

Lemma gtb_scaled_0 (u : R) : 0 <= u -> gtb (sqrt u * 111000) 0 = gtb u 0.
Proof.
  intros Hu. rewrite <- (gtb_scaled u 0) by lra. now rewrite sqrt_0, Rmult_0_l.
Qed.

Ltac run :=
  repeat (cbn -[distanceToLine gtb];
          rewrite ?distance_b_ad, ?distance_a_ad, ?distance_c_ad,
                  ?distance_a_bd, ?distance_c_bd;
          rewrite ?gtb_scaled, ?gtb_scaled_0 by lra;
          repeat decide_if).

(** C7 as stated fails on an array that holds the same point object
    twice, here with tolerance 0. *)
Lemma simplifyPolygon_shared_point_not_idempotent :
  let a := {| ref := 0; lat := 1; lng := 0 |} in
  let b := {| ref := 1; lat := 0; lng := 0 |} in
  let c := {| ref := 2; lat := 0; lng := 1 |} in
  let d := {| ref := 3; lat := 0; lng := 2 |} in
  simplifyPolygon [a; b; a; c; d] 0 4 = Ok [a; b; c; d] /\
  simplifyPolygon [a; b; c; d] 0 4 = Ok [a; b; d] /\
  [a; b; c; d] <> [a; b; d].
Proof.
  intros a b c d. subst a b c d. repeat split.
  - unfold simplifyPolygon. run. reflexivity.
  - unfold simplifyPolygon. run. reflexivity.
  - discriminate.
Qed.

End shared_point.

(** ** Entry and exit transitions *)

Section transitions.

(** The [volume] of the options of [playAudio], as opposed to the
    [volume] of the settings of a region. *)
Local Abbreviation volumeOption := volume (only parsing).

Import BoundaryTransitionManager.
Local Open Scope R_scope.

Lemma clamp_unit (x : R) : 0 <= Rmin 1 (Rmax 0 x) <= 1.
Proof.
  unfold Rmin, Rmax.
  destruct (Rle_dec 0 x); destruct (Rle_dec 1 _); lra.
Qed.

Lemma clamp_inside (x : R) : 0 <= x <= 1 -> Rmin 1 (Rmax 0 x) = x.
Proof.
  intros Hx. unfold Rmin, Rmax.
  destruct (Rle_dec 0 x); destruct (Rle_dec 1 _); lra.
Qed.

(** Whatever the fade type, [applyEntryTransition] makes one call of
    [playAudio], with the progress as volume. *)
Lemma applyEntryTransition_call (regionId : string) (audio : audioData)
    (settings : transitionSettings) (distanceToEdge : R) :
  exists effectSettings,
    applyEntryTransition regionId audio settings distanceToEdge
    = [PlayAudio regionId (url audio)
         (entryOptions (fadeInLength settings)
            (entryProgress (transitionRadius settings) distanceToEdge)
            effectSettings)].
Proof.
  unfold applyEntryTransition.
  repeat match goal with
         | |- context [if case ?x ?y then _ else _] => destruct (case x y)
         end;
    eexists; reflexivity.
Qed.

(** C4. The entry progress is [min(1, max(0, (radius - distance) / radius))];
    it is the volume of the [playAudio] call; with a radius of 10 it is
    0 at distance 10, 0.5 at distance 5 and 1 at distance 0; it lies
    between 0 and 1. *)
Theorem entry_progress (regionId : string) (audio : audioData)
    (settings : transitionSettings) (distanceToEdge : R) :
  0 < transitionRadius settings ->
  let radius := transitionRadius settings in
  let progress := Rmin 1 (Rmax 0 ((radius - distanceToEdge) / radius)) in
  (exists options,
      applyEntryTransition regionId audio settings distanceToEdge
      = [PlayAudio regionId (url audio) options] /\
      volumeOption options = Some progress) /\
  0 <= progress <= 1 /\
  (radius = 10 -> distanceToEdge = 10 -> progress = 0) /\
  (radius = 10 -> distanceToEdge = 5 -> progress = 0.5) /\
  (radius = 10 -> distanceToEdge = 0 -> progress = 1).
Proof.
  intros Hr radius progress. repeat split.
  - destruct (applyEntryTransition_call regionId audio settings distanceToEdge)
      as [effectSettings H].
    eexists. split; [exact H | reflexivity].
  - apply clamp_unit.
  - apply clamp_unit.
  - intros H10 Hd. subst progress. rewrite H10, Hd.
    rewrite clamp_inside; lra.
  - intros H10 Hd. subst progress. rewrite H10, Hd.
    rewrite clamp_inside; lra.
  - intros H10 Hd. subst progress. rewrite H10, Hd.
    rewrite clamp_inside; lra.
Qed.




Ltac exit_type H :=
  unfold applyExitTransition; rewrite H; vm_compute case; cbv iota.




End transitions.

(** ** Crossfades *)

Section crossfades.

Import BoundaryTransitionManager.
Local Open Scope R_scope.

Lemma calculateDistance_nonneg (p q : point) : 0 <= calculateDistance p q.
Proof. apply sqrt_pos. Qed.

(** What one pair contributes: nothing, or one volume for each of the
    two regions, computed from a total distance that is not zero. *)
Lemma crossfadePair_calls (region1 region2 : region) (position : point) :
  let d1 := calculateDistance position (center region1) in
  let d2 := calculateDistance position (center region2) in
  (crossfadePair region1 region2 position = [] /\
   (crossfadeOverlap (settings region1) = false \/
    crossfadeOverlap (settings region2) = false \/
    d1 + d2 = 0)) \/
  (crossfadePair region1 region2 position
     = [SetVolume (id region1) (crossfadeVolume (baseVolume region1) d1 d2);
        SetVolume (id region2) (crossfadeVolume (baseVolume region2) d2 d1)] /\
   crossfadeOverlap (settings region1) = true /\
   crossfadeOverlap (settings region2) = true /\
   d1 + d2 <> 0).
Proof.
  intros d1 d2. unfold crossfadePair. fold d1 d2.
  destruct (crossfadeOverlap (settings region1)); cbn [negb orb]; [| left; auto].
  destruct (crossfadeOverlap (settings region2)); cbn [negb orb]; [| left; auto].
  destruct (Req_dec_T (d1 + d2) 0) as [Hz | Hnz]; [left; auto |].
  right. repeat split; auto.
  unfold crossfadeVolume, divide. now rewrite (Rplus_comm d2 d1).
Qed.

Lemma crossfadeWithLater_calls (region1 : region) (later : list region)
    (position : point) (c : call) :
  c ∈ crossfadeWithLater region1 later position ->
  exists region2, region2 ∈ later /\ c ∈ crossfadePair region1 region2 position.
Proof.
  induction later as [| r later IH]; cbn; intros Hc.
  - now apply not_elem_of_nil in Hc.
  - apply elem_of_app in Hc as [Hc | Hc].
    + exists r. split; [now left | exact Hc].
    + destruct (IH Hc) as (r2 & Hr2 & Hc2). exists r2. split; [now right | exact Hc2].
Qed.

(** Every call of [handleCrossfades] comes from a pair of the active
    regions. *)
Lemma handleCrossfades_calls (activeRegions : list region) (position : point)
    (c : call) :
  c ∈ handleCrossfades activeRegions position ->
  exists region1 region2,
    region1 ∈ activeRegions /\ region2 ∈ activeRegions /\
    c ∈ crossfadePair region1 region2 position.
Proof.
  unfold handleCrossfades.
  destruct (Nat.leb (length activeRegions) 1);
    [intros Hc; now apply not_elem_of_nil in Hc |].
  induction activeRegions as [| r rs IH]; cbn; intros Hc.
  - now apply not_elem_of_nil in Hc.
  - apply elem_of_app in Hc as [Hc | Hc].
    + apply crossfadeWithLater_calls in Hc as (r2 & Hr2 & Hc).
      exists r, r2. repeat split; [now left | now right | exact Hc].
    + destruct (IH Hc) as (r1 & r2 & H1 & H2 & Hc').
      exists r1, r2. repeat split; [now right | now right | exact Hc'].
Qed.

Lemma crossfadeVolume_bounds (base d other : R) :
  0 <= base -> 0 <= d -> 0 <= other -> d + other <> 0 ->
  0.7 * base <= crossfadeVolume base d other <= 1.0 * base.
Proof.
  intros Hb Hd Ho Hnz. unfold crossfadeVolume.
  assert (Hpos : 0 < d + other) by lra.
  assert (Hq : 0 <= d / (d + other) <= 1).
  { split.
    - apply Rmult_le_pos; [lra |]. left. now apply Rinv_0_lt_compat.
    - apply (Rmult_le_reg_r (d + other)); [lra |].
      unfold Rdiv. rewrite Rmult_assoc, Rinv_l by lra. lra. }
  split; nra.
Qed.



(** C9. A pair of regions whose centers are both at distance zero from
    the listener is skipped and gets no volume; every volume that
    [handleCrossfades] applies comes from a pair whose total distance,
    the divisor of its ratios, is not zero. *)
Theorem crossfade_total_distance_nonzero (activeRegions : list region)
    (position : point) :
  (forall region1 region2,
      calculateDistance position (center region1) = 0 ->
      calculateDistance position (center region2) = 0 ->
      crossfadePair region1 region2 position = [] /\
      handleCrossfades [region1; region2] position = []) /\
  (forall c, c ∈ handleCrossfades activeRegions position ->
     exists region1 region2,
       region1 ∈ activeRegions /\ region2 ∈ activeRegions /\
       c ∈ crossfadePair region1 region2 position /\
       calculateDistance position (center region1)
       + calculateDistance position (center region2) <> 0).
Proof.
  split.
  - intros r1 r2 H1 H2.
    assert (Hnil : crossfadePair r1 r2 position = []).
    { destruct (crossfadePair_calls r1 r2 position)
        as [[Hnil _] | (_ & _ & _ & Hnz)]; [exact Hnil |].
      exfalso. apply Hnz. rewrite H1, H2. lra. }
    split; [exact Hnil |].
    unfold handleCrossfades. cbn [length Nat.leb crossfadeAll crossfadeWithLater].
    now rewrite Hnil.
  - intros c Hc.
    apply handleCrossfades_calls in Hc as (r1 & r2 & H1 & H2 & Hc).
    exists r1, r2. repeat split; auto.
    destruct (crossfadePair_calls r1 r2 position)
      as [[Hnil _] | (_ & _ & _ & Hnz)]; [| exact Hnz].
    rewrite Hnil in Hc. now apply not_elem_of_nil in Hc.
Qed.

End crossfades.

(** ** The audio service: its maps *)

Section service_maps.

Import WebAudio EnhancedAudioService.
Local Open Scope R_scope.

Lemma emit_nil (st : service) : emit [] st = st.
Proof. destruct st. unfold emit. cbn. now rewrite app_nil_r. Qed.

Lemma emit_emit (cs1 cs2 : list command) (st : service) :
  emit cs2 (emit cs1 st) = emit (cs1 ++ cs2) st.
Proof. unfold emit. cbn. now rewrite app_assoc. Qed.

Lemma wired_refl (st : service) : wired st st.
Proof.
  repeat split; auto. exists []. split; [now rewrite app_nil_r | constructor].
Qed.

Lemma wired_trans (st1 st2 st3 : service) :
  wired st1 st2 -> wired st2 st3 -> wired st1 st3.
Proof.
  intros (Hs & Hg & He & Ht & Hm & Hc & Hv & Hn & cs & Hcs & Hq)
         (Hs' & Hg' & He' & Ht' & Hm' & Hc' & Hv' & Hn' & cs' & Hcs' & Hq').
  repeat split; try congruence; try lia.
  - intros H. apply He, He'. exact H.
  - intros H. apply He', He. exact H.
  - exists (cs ++ cs'). split.
    + now rewrite Hcs', Hcs, app_assoc.
    + now apply Forall_app.
Qed.

Lemma wired_emit (cs : list command) (st : service) :
  Forall quiet cs -> wired st (emit cs st).
Proof. intros Hq. repeat split; auto. now exists cs. Qed.

Lemma wired_allocate (n : nat) (st : service) : wired st (snd (allocate n st)).
Proof.
  repeat split; auto; cbn; try lia.
  exists []. split; [now rewrite app_nil_r | constructor].
Qed.

Ltac quiet_commands :=
  repeat constructor; intros ? ?; discriminate.

(** The effect factories create and wire nodes. *)
Lemma effectFactories_wired (effectType : string)
    (factory : list (string * jsval) -> service -> effectNode * service)
    (parameters : list (string * jsval)) (st : service) :
  effectFactories effectType = Some factory ->
  wired st (snd (factory parameters st)).
Proof.
  unfold effectFactories. intros H.
  repeat match type of H with
         | (if ?b then _ else _) = _ => destruct b
         end;
    inversion H; subst; clear H;
    unfold createLowpassFilter, createHighpassFilter, createReverb,
      createDelay, createPitchShifter, createSpatialAudio;
    cbn [allocate snd];
    (eapply wired_trans; [| apply wired_emit; quiet_commands]);
    (repeat split; auto; cbn; try lia);
    exists []; (split; [now rewrite app_nil_r | constructor]).
Qed.

Lemma connectEffects_wired (id : string) (parameters : list (string * jsval)) :
  forall (entries : list (string * jsval)) (lastNode : nat) (st : service),
    wired st (snd (connectEffects id parameters entries lastNode st)).
Proof.
  induction entries as [| [effectType enabled] rest IH]; intros lastNode st.
  - apply wired_refl.
  - cbn [connectEffects].
    destruct (if truthy enabled then effectFactories effectType else None)
      as [factory |] eqn:Hfactory; [| apply IH].
    assert (Hf : effectFactories effectType = Some factory).
    { destruct (truthy enabled); [exact Hfactory | discriminate]. }
    pose proof (effectFactories_wired effectType factory parameters st Hf) as Hw.
    destruct (factory parameters st) as [effectNode st1]. cbn [snd] in Hw.
    eapply wired_trans; [exact Hw |].
    eapply wired_trans; [| apply IH].
    repeat split; auto.
    + cbn. intros H. now apply lookup_alter_None in H.
    + cbn. intros H. now apply lookup_alter_None.
    + exists [connect lastNode (input effectNode)].
      split; [reflexivity | quiet_commands].
Qed.

(** What a successful [playAudio] does to the service. *)
Lemma playAudio_started (id url : string) (options : playOptions)
    (buffer : nat) (st : service) :
  exists st' : service,
    playAudio id url options (Some buffer) st = (st', true) /\
    sources st' = <[id := nextNode st]> (sources st) /\
    gainNodes st' = <[id := S (nextNode st)]> (gainNodes st) /\
    (forall id', effectNodes st' !! id' = None <->
                 id' <> id /\ effectNodes st !! id' = None) /\
    timers st' = timers st /\
    (nextNode st + 2 <= nextNode st')%nat /\
    exists cs, commands st' = commands st ++ cs /\ Forall quiet cs /\
               start (nextNode st) 0 ∈ cs.
Proof.
  unfold playAudio. cbn [allocate].
  match goal with
  | |- context [connectEffects ?i ?p ?e ?l ?s] =>
      pose proof (connectEffects_wired i p e l s) as Hw;
      destruct (connectEffects i p e l s) as [lastNode st1]
  end.
  cbn [snd] in Hw.
  destruct Hw as (Hs & Hg & He & Ht & Hm & Hc & Hv & Hn & cs & Hcs & Hq).
  cbn in Hs, Hg, He, Ht, Hn, Hcs.
  eexists. split; [reflexivity |]. cbn.
  repeat split; try assumption.
  - replace (nextNode st + 1)%nat with (S (nextNode st)) in Hg by lia. exact Hg.
  - rewrite He in H. intros ->. now rewrite lookup_insert_eq in H.
  - rewrite He in H. destruct (decide (id = id')) as [-> | Hne].
    + now rewrite lookup_insert_eq in H.
    + now rewrite lookup_insert_ne in H.
  - intros [Hne Hnone]. apply He. now rewrite lookup_insert_ne.
  - lia.
  - eexists. split; [| split].
    + rewrite Hcs. rewrite <- !app_assoc. reflexivity.
    + repeat (apply Forall_app; split); try exact Hq; quiet_commands.
    + rewrite !elem_of_app, !elem_of_cons. auto 10.
Qed.

End service_maps.

(** ** The audio service: what its methods change *)

Section service_methods.

Import WebAudio EnhancedAudioService.
Local Open Scope R_scope.

Lemma same_ids_refl (st : service) : same_ids st st.
Proof. repeat split; auto. Qed.

Lemma stopAudio_same_ids (id : string) (fadeOut : R) (st : service) :
  same_ids st (fst (stopAudio id fadeOut st)).
Proof.
  unfold stopAudio.
  destruct (sources st !! id), (gainNodes st !! id); repeat split; auto.
Qed.

Lemma setVolume_same_ids (id : string) (volume : R) (st : service) :
  same_ids st (fst (setVolume id volume st)).
Proof.
  unfold setVolume. destruct (gainNodes st !! id); repeat split; auto.
Qed.

Lemma fadeOutAudio_same_ids (id : string) (duration : R) (st : service) :
  same_ids st (fst (fadeOutAudio id duration st)).
Proof.
  unfold fadeOutAudio. destruct (gainNodes st !! id); repeat split; auto.
Qed.

(** [setPart] issues at most one command, which sets a value at once. *)
Lemma setPart_emits (e : effectNode) (name : string) (p : param)
    (value : option R) (st st' : service) :
  setPart e name p value st = Ok st' ->
  exists cs, st' = emit cs st /\ Forall (instant (currentTime st)) cs.
Proof.
  unfold setPart. destruct value as [v |]; intros H.
  - destruct (part name e) as [node | |]; cbn in H; inversion H; subst.
    eexists. split; [reflexivity |].
    repeat constructor. now exists node, p, v.
  - inversion H; subst. exists []. split; [now rewrite emit_nil | constructor].
Qed.

Lemma setPart_twice (e : effectNode) (name1 name2 : string) (p1 p2 : param)
    (value1 value2 : option R) (st st' : service) (b : bool) :
  (let* st1 := setPart e name1 p1 value1 st in
   let* st2 := setPart e name2 p2 value2 st1 in
   Ok (st2, true)) = Ok (st', b) ->
  b = true /\
  exists cs, st' = emit cs st /\ Forall (instant (currentTime st)) cs.
Proof.
  intros H.
  destruct (setPart e name1 p1 value1 st) as [st1 | |] eqn:H1;
    cbn [bind] in H; try discriminate.
  destruct (setPart e name2 p2 value2 st1) as [st2 | |] eqn:H2;
    cbn [bind] in H; try discriminate.
  inversion H; subst. split; [reflexivity |].
  apply setPart_emits in H1 as (cs1 & -> & Hc1).
  apply setPart_emits in H2 as (cs2 & -> & Hc2).
  exists (cs1 ++ cs2). split; [apply emit_emit |].
  apply Forall_app. split; [exact Hc1 | exact Hc2].
Qed.

(** What [applyEffect] does when it answers: it fails on an unknown id
    or effect and changes nothing, or it sets values at once, or it
    stores a pitch ratio. *)
Lemma applyEffect_cases (id effectType : string) (parameters : object)
    (st st' : service) (b : bool) :
  applyEffect id effectType parameters st = Ok (st', b) ->
  (b = false /\ st' = st /\
   (effectNodes st !! id = None \/
    exists effectsMap, effectNodes st !! id = Some effectsMap /\
                       effectsMap !! effectType = None)) \/
  (b = true /\
   exists effectsMap effectNode,
     effectNodes st !! id = Some effectsMap /\
     effectsMap !! effectType = Some effectNode /\
     ((exists cs, st' = emit cs st /\ Forall (instant (currentTime st)) cs) \/
      (exists ratio,
          st' = with_maps (sources st) (gainNodes st)
                  (<[id := <[effectType := setPitchRatio ratio effectNode]>
                             effectsMap]> (effectNodes st)) st))).
Proof.
  unfold applyEffect. intros H.
  destruct (effectNodes st !! id) as [effectsMap |] eqn:Hid;
    [| inversion H; subst; left; auto].
  destruct (effectsMap !! effectType) as [effectNode |] eqn:Htype;
    [| inversion H; subst; left; repeat split; auto; right; eauto].
  right.
  assert (Hlast : forall name p value,
             (let* st1 := setPart effectNode name p value st in Ok (st1, true))
             = Ok (st', b) ->
             b = true /\
             exists cs, st' = emit cs st /\ Forall (instant (currentTime st)) cs).
  { intros name p value H1.
    destruct (setPart effectNode name p value st) as [st1 | |] eqn:H2;
      cbn [bind] in H1; try discriminate.
    inversion H1; subst. split; [reflexivity |]. eapply setPart_emits; eassumption. }
  repeat match type of H with
         | (if ?c then _ else _) = _ => destruct c
         end.
  - apply setPart_twice in H as [-> Hcs]. split; [reflexivity |].
    exists effectsMap, effectNode. auto.
  - apply setPart_twice in H as [-> Hcs]. split; [reflexivity |].
    exists effectsMap, effectNode. auto.
  - apply setPart_twice in H as [-> Hcs]. split; [reflexivity |].
    exists effectsMap, effectNode. auto.
  - apply setPart_twice in H as [-> Hcs]. split; [reflexivity |].
    exists effectsMap, effectNode. auto.
  - destruct (prop parameters "amount") as [amount |]; inversion H; subst;
      (split; [reflexivity |]); exists effectsMap, effectNode;
      repeat split; auto.
    + right. eauto.
    + left. exists []. split; [now rewrite emit_nil | constructor].
  - apply Hlast in H as [-> Hcs]. split; [reflexivity |].
    exists effectsMap, effectNode. auto.
  - inversion H; subst. split; [reflexivity |].
    exists effectsMap, effectNode. repeat split; auto.
    left. exists []. split; [now rewrite emit_nil | constructor].
Qed.

Lemma applyEffect_same_ids (id effectType : string) (parameters : object)
    (st st' : service) (b : bool) :
  applyEffect id effectType parameters st = Ok (st', b) -> same_ids st st'.
Proof.
  intros H. apply applyEffect_cases in H
    as [(_ & -> & _) | (_ & effectsMap & effectNode & Hid & _ & [(cs & -> & _) | (ratio & ->)])].
  - apply same_ids_refl.
  - repeat split; auto.
  - repeat split; auto; cbn; intros H.
    + destruct (decide (id = id0)) as [<- | Hne].
      * now rewrite lookup_insert_eq in H.
      * now rewrite lookup_insert_ne in H.
    + destruct (decide (id = id0)) as [<- | Hne].
      * congruence.
      * now rewrite lookup_insert_ne.
Qed.

(** The ids after a step that keeps them. *)
Lemma same_ids_invariant (st st' : service) :
  same_ids st st' -> consistent st /\ created st -> consistent st' /\ created st'.
Proof.
  intros (Hs & Hg & He & Hn) [Hc Hcr]. split.
  - intros id. rewrite Hs, Hg, He. apply Hc.
  - intros id node H. rewrite Hs, Hg in H. apply Hcr in H. lia.
Qed.

Lemma runTimer_invariant (t : timer) (st : service) :
  consistent st /\ created st ->
  consistent (runTimer t st) /\ created (runTimer t st).
Proof.
  intros [Hc Hcr]. destruct t as [delay source id | delay id]; cbn [runTimer].
  - split.
    + intros id'. cbn. destruct (decide (id = id')) as [<- | Hne].
      * rewrite !lookup_delete_eq. tauto.
      * rewrite !lookup_delete_ne by exact Hne. apply Hc.
    + intros id' node H. cbn in H. apply (Hcr id').
      destruct H as [H | H]; apply lookup_delete_Some in H as [_ H]; auto.
  - destruct (sources st !! id); [| auto].
    eapply same_ids_invariant; [apply stopAudio_same_ids | auto].
Qed.

(** The invariant of the service. *)
Lemma reachable_invariant (st : service) :
  reachable st -> consistent st /\ created st.
Proof.
  induction 1 as [now reading | e st st' _ IH Hstep].
  - split.
    + intros id. cbn. rewrite !lookup_empty. tauto.
    + intros id node H. cbn in H. rewrite !lookup_empty in H.
      destruct H; discriminate.
  - destruct e as [c audioBuffer | volume | k | now reading]; cbn [step] in Hstep.
    + destruct c as [id url options | id fadeOut | id volume | id duration
                    | id effectType parameters];
        cbn [perform bind fst] in Hstep.
      * inversion Hstep; subst; clear Hstep.
        destruct audioBuffer as [buffer |]; [| exact IH].
        destruct (playAudio_started id url options buffer st)
          as (st1 & -> & Hs & Hg & He & _ & Hn & _).
        cbn [fst]. destruct IH as [Hc Hcr]. split.
        -- intros id'. rewrite Hs, Hg, He.
           destruct (decide (id = id')) as [<- | Hne].
           ++ rewrite !lookup_insert_eq. split; split; intros H;
                try discriminate; now destruct H.
           ++ rewrite !lookup_insert_ne by exact Hne.
              destruct (Hc id') as [H1 H2]. split; [exact H1 |].
              rewrite H2. split; [intros H; split; [congruence | exact H] | tauto].
        -- intros id' node H. rewrite Hs, Hg in H.
           destruct H as [H | H];
             apply lookup_insert_Some in H as [[_ <-] | [_ H]]; try lia.
           ++ assert (node < nextNode st)%nat by (apply (Hcr id'); auto). lia.
           ++ assert (node < nextNode st)%nat by (apply (Hcr id'); auto). lia.
      * inversion Hstep; subst.
        eapply same_ids_invariant; [apply stopAudio_same_ids | exact IH].
      * inversion Hstep; subst.
        eapply same_ids_invariant; [apply setVolume_same_ids | exact IH].
      * inversion Hstep; subst.
        eapply same_ids_invariant; [apply fadeOutAudio_same_ids | exact IH].
      * destruct (applyEffect id effectType parameters st) as [[st1 b] | |] eqn:Ha;
          cbn [bind fst] in Hstep; inversion Hstep; subst.
        eapply same_ids_invariant; [eapply applyEffect_same_ids; eassumption | exact IH].
    + inversion Hstep; subst. exact IH.
    + inversion Hstep; subst. unfold fireTimer.
      destruct (timers st !! k) as [t |]; [| exact IH].
      apply runTimer_invariant. exact IH.
    + inversion Hstep; subst. exact IH.
Qed.

End service_methods.

(** ** The audio service: the stored effects *)

Section service_effects.

Import WebAudio EnhancedAudioService.
Local Open Scope R_scope.

Lemma shaped_same (st st' : service) :
  effectNodes st' = effectNodes st -> shaped st -> shaped st'.
Proof. intros H Hsh id ty m e. rewrite H. apply Hsh. Qed.

Lemma effectFactories_made (effectType : string)
    (factory : list (string * jsval) -> service -> effectNode * service)
    (parameters : list (string * jsval)) (st : service) :
  effectFactories effectType = Some factory ->
  effectNodes (snd (factory parameters st)) = effectNodes st /\
  made_by effectType (fst (factory parameters st)) = true.
Proof.
  unfold effectFactories. intros H.
  destruct (String.eqb effectType "lowpass") eqn:E1;
    [inversion H; subst; cbn; now rewrite E1 |].
  destruct (String.eqb effectType "highpass") eqn:E2;
    [inversion H; subst; cbn; now rewrite E1, E2 |].
  destruct (String.eqb effectType "reverb") eqn:E3;
    [inversion H; subst; cbn; now rewrite E3 |].
  destruct (String.eqb effectType "delay") eqn:E4;
    [inversion H; subst; cbn; now rewrite E4 |].
  destruct (String.eqb effectType "pitchShift") eqn:E5;
    [inversion H; subst; cbn; now rewrite E5 |].
  destruct (String.eqb effectType "spatialAudio") eqn:E6;
    [inversion H; subst; cbn; now rewrite E6 |].
  discriminate.
Qed.

Lemma connectEffects_shaped (id : string) (parameters : list (string * jsval)) :
  forall (entries : list (string * jsval)) (lastNode : nat) (st : service),
    shaped st ->
    shaped (snd (connectEffects id parameters entries lastNode st)).
Proof.
  induction entries as [| [effectType enabled] rest IH]; intros lastNode st Hsh.
  - exact Hsh.
  - cbn [connectEffects].
    destruct (if truthy enabled then effectFactories effectType else None)
      as [factory |] eqn:Hfactory; [| now apply IH].
    assert (Hf : effectFactories effectType = Some factory).
    { destruct (truthy enabled); [exact Hfactory | discriminate]. }
    destruct (effectFactories_made effectType factory parameters st Hf)
      as [Hsame Hmade].
    destruct (factory parameters st) as [effectNode st1].
    cbn [fst snd] in Hsame, Hmade.
    apply IH. intros id' ty m e Hid Hty. cbn in Hid.
    apply lookup_alter_Some in Hid as [(<- & m0 & Hm0 & ->) | (_ & Hid)].
    + apply lookup_insert_Some in Hty as [[<- <-] | [_ Hty]]; [exact Hmade |].
      rewrite Hsame in Hm0. eapply Hsh; eassumption.
    + rewrite Hsame in Hid. eapply Hsh; eassumption.
Qed.

Lemma playAudio_shaped (id url : string) (options : playOptions)
    (audioBuffer : option nat) (st : service) :
  shaped st -> shaped (fst (playAudio id url options audioBuffer st)).
Proof.
  intros Hsh. unfold playAudio.
  destruct audioBuffer as [buffer |]; [| exact Hsh].
  cbn [allocate].
  match goal with
  | |- context [connectEffects ?i ?p ?e ?l ?s] =>
      assert (Hc : shaped (snd (connectEffects i p e l s)));
      [| destruct (connectEffects i p e l s) as [lastNode st1]]
  end.
  - apply connectEffects_shaped. intros id' ty m e Hid Hty. cbn in Hid.
    apply lookup_insert_Some in Hid as [[_ <-] | [_ Hid]].
    + now rewrite lookup_empty in Hty.
    + eapply Hsh; eassumption.
  - exact Hc.
Qed.

Lemma setPitchRatio_made (effectType : string) (ratio : R) (e : effectNode) :
  made_by effectType (setPitchRatio ratio e) = made_by effectType e.
Proof. now destruct e. Qed.

Lemma applyEffect_shaped (id effectType : string) (parameters : object)
    (st st' : service) (b : bool) :
  applyEffect id effectType parameters st = Ok (st', b) ->
  shaped st -> shaped st'.
Proof.
  intros H Hsh. apply applyEffect_cases in H
    as [(_ & -> & _) | (_ & effectsMap & effectNode & Hid & Hty & [(cs & -> & _) | (ratio & ->)])].
  - exact Hsh.
  - exact Hsh.
  - intros id' ty m e Hid' Hty'. cbn in Hid'.
    apply lookup_insert_Some in Hid' as [[<- <-] | [_ Hid']].
    + apply lookup_insert_Some in Hty' as [[<- <-] | [_ Hty']].
      * rewrite setPitchRatio_made. eapply Hsh; eassumption.
      * eapply Hsh; eassumption.
    + eapply Hsh; eassumption.
Qed.

Lemma stopAudio_effectNodes (id : string) (fadeOut : R) (st : service) :
  effectNodes (fst (stopAudio id fadeOut st)) = effectNodes st.
Proof. unfold stopAudio. now destruct (sources st !! id), (gainNodes st !! id). Qed.

Lemma reachable_shaped (st : service) : reachable st -> shaped st.
Proof.
  induction 1 as [now reading | e st st' _ IH Hstep].
  - intros id ty m e H. cbn in H. now rewrite lookup_empty in H.
  - destruct e as [c audioBuffer | volume | k | now reading]; cbn [step] in Hstep.
    + destruct c as [id url options | id fadeOut | id volume | id duration
                    | id effectType parameters];
        cbn [perform bind fst] in Hstep.
      * inversion Hstep; subst. now apply playAudio_shaped.
      * inversion Hstep; subst.
        eapply shaped_same; [apply stopAudio_effectNodes | exact IH].
      * inversion Hstep; subst. unfold setVolume.
        now destruct (gainNodes st !! id).
      * inversion Hstep; subst. unfold fadeOutAudio.
        now destruct (gainNodes st !! id).
      * destruct (applyEffect id effectType parameters st) as [[st1 b] | |] eqn:Ha;
          cbn [bind fst] in Hstep; inversion Hstep; subst.
        eapply applyEffect_shaped; eassumption.
    + inversion Hstep; subst. exact IH.
    + inversion Hstep; subst. unfold fireTimer.
      destruct (timers st !! k) as [[delay source id | delay id] |];
        [| | exact IH]; cbn [runTimer].
      * intros id' ty m e Hid. cbn in Hid.
        apply lookup_delete_Some in Hid as [_ Hid]. now apply (IH id' ty m e).
      * cbn [sources with_timers].
        destruct (sources st !! id); [| exact IH].
        eapply shaped_same; [apply stopAudio_effectNodes | exact IH].
    + inversion Hstep; subst. exact IH.
Qed.

(** On a stored effect [applyEffect] does not throw: it returns [true]. *)
Lemma applyEffect_returns (id effectType : string) (parameters : object)
    (st : service) (effectsMap : gmap string effectNode) (e : effectNode) :
  shaped st ->
  effectNodes st !! id = Some effectsMap ->
  effectsMap !! effectType = Some e ->
  exists st', applyEffect id effectType parameters st = Ok (st', true).
Proof.
  intros Hsh Hid Hty. pose proof (Hsh _ _ _ _ Hid Hty) as Hmade.
  unfold applyEffect. rewrite Hid, Hty.
  destruct e; cbn [made_by] in Hmade;
    try apply orb_true_iff in Hmade as [Hmade | Hmade];
    apply String.eqb_eq in Hmade; subst effectType;
    cbn [String.eqb Ascii.eqb Bool.eqb];
    unfold setPart; cbn [part String.eqb Ascii.eqb Bool.eqb bind];
    repeat match goal with
           | |- context [match ?o with Some _ => _ | None => _ end] =>
               destruct o; cbn [bind fmap option_fmap option_map]
           end;
    eauto.
Qed.

End service_effects.

(** ** The audio service: starting, stopping, changing *)

Section service_claims.

Import WebAudio EnhancedAudioService.
Local Open Scope R_scope.

(** C8. On an id that has no active source, [stopAudio], [setVolume]
    and [applyEffect] return [false], without throwing, and leave the
    service as it is. *)
Theorem unknown_id_fails (st : service) (id : string) (fadeOut volume : R)
    (effectType : string) (parameters : object) :
  reachable st ->
  sources st !! id = None ->
  stopAudio id fadeOut st = (st, false) /\
  setVolume id volume st = (st, false) /\
  applyEffect id effectType parameters st = Ok (st, false).
Proof.
  intros Hr Hs.
  destruct (reachable_invariant st Hr) as [Hc _].
  destruct (Hc id) as [Hg He].
  unfold stopAudio, setVolume, applyEffect.
  rewrite Hs, (proj1 Hg Hs), (proj1 He Hs). auto.
Qed.

Lemma playAudio_no_effects (id url : string) (options : playOptions)
    (buffer : nat) (st : service) :
  effects options = None ->
  effectNodes (fst (playAudio id url options (Some buffer) st))
  = <[id := ∅]> (effectNodes st).
Proof. intros H. unfold playAudio. rewrite H. reflexivity. Qed.


Ltac among := repeat first [apply list_elem_of_here | apply list_elem_of_further].

Ltac not_among :=
  let H := fresh in
  intros H;
  repeat (apply elem_of_cons in H as [H | H]; [discriminate |]);
  now apply not_elem_of_nil in H.


(** No method takes a callback back: until it runs, a scheduled
    callback keeps its place among the pending ones. *)
Lemma step_keeps_timers (e : event) (st st' : service) :
  step e st = Ok st' ->
  (forall k, e <> fired k) ->
  exists later, timers st' = timers st ++ later.
Proof.
  intros Hstep Hfired.
  destruct e as [c audioBuffer | volume | k | now reading]; cbn [step] in Hstep.
  - destruct c as [id url options | id fadeOut | id volume | id duration
                  | id effectType parameters];
      cbn [perform bind fst] in Hstep.
    + inversion Hstep; subst; clear Hstep. exists [].
      destruct audioBuffer as [buffer |]; [| now rewrite app_nil_r].
      destruct (playAudio_started id url options buffer st)
        as (st1 & -> & _ & _ & _ & Ht & _).
      cbn [fst]. now rewrite Ht, app_nil_r.
    + inversion Hstep; subst. unfold stopAudio.
      destruct (sources st !! id), (gainNodes st !! id);
        try (exists []; now rewrite app_nil_r).
      eexists. reflexivity.
    + inversion Hstep; subst. unfold setVolume. exists [].
      destruct (gainNodes st !! id); now rewrite app_nil_r.
    + inversion Hstep; subst. unfold fadeOutAudio.
      destruct (gainNodes st !! id);
        try (exists []; now rewrite app_nil_r).
      eexists. reflexivity.
    + destruct (applyEffect id effectType parameters st) as [[st1 b] | |] eqn:Ha;
        cbn [bind fst] in Hstep; inversion Hstep; subst.
      exists [].
      apply applyEffect_cases in Ha
        as [(_ & -> & _) | (_ & m & e & _ & _ & [(cs & -> & _) | (ratio & ->)])];
        now rewrite app_nil_r.
  - inversion Hstep; subst. exists []. now rewrite app_nil_r.
  - now destruct (Hfired k).
  - inversion Hstep; subst. exists []. now rewrite app_nil_r.
Qed.

(** When the callback of a [stopAudio] runs, it stops the source it
    holds and deletes the id from the three maps, whatever is stored
    under the id by then. *)
Lemma fireTimer_stopCleanup (st : service) (k : nat) (delay : R)
    (source : nat) (id : string) :
  timers st !! k = Some (stopCleanup delay source id) ->
  sources (fireTimer k st) !! id = None /\
  gainNodes (fireTimer k st) !! id = None /\
  effectNodes (fireTimer k st) !! id = None /\
  commands (fireTimer k st) = commands st ++ [stop source] /\
  timers (fireTimer k st) = delete k (timers st).
Proof.
  intros H. unfold fireTimer. rewrite H. cbn.
  repeat split; apply lookup_delete_eq.
Qed.

(** C2, as the code has it.  Nothing cancels the callback that
    [stopAudio] schedules.  When the id is started again before the
    callback runs, the callback still runs: it stops the source that
    was playing when [stopAudio] was called, not the new one, and it
    deletes the id from the three maps, where by then the entries of
    the new source are. *)
Theorem restart_before_cleanup (st : service) (id url : string)
    (options : playOptions) (buffer oldSource : nat) (fadeOut : R) :
  reachable st ->
  sources st !! id = Some oldSource ->
  let stopped := stopAudio id fadeOut st in
  let restarted := playAudio id url options (Some buffer) (fst stopped) in
  let after := fireTimer (length (timers st)) (fst restarted) in
  snd stopped = true /\
  snd restarted = true /\
  timers (fst restarted) !! length (timers st)
    = Some (stopCleanup (fadeOut * 1000) oldSource id) /\
  sources (fst restarted) !! id = Some (nextNode st) /\
  nextNode st <> oldSource /\
  sources after !! id = None /\
  gainNodes after !! id = None /\
  effectNodes after !! id = None /\
  commands after = commands (fst restarted) ++ [stop oldSource].
Proof.
  intros Hr Hs stopped restarted after.
  destruct (reachable_invariant st Hr) as [Hc Hcr].
  assert (Hold : (oldSource < nextNode st)%nat) by (apply (Hcr id); auto).
  destruct (gainNodes st !! id) as [gainNode |] eqn:Hg;
    [| apply (Hc id) in Hg; congruence].
  assert (Hstopped :
    stopped
    = (with_timers (timers st ++ [stopCleanup (fadeOut * 1000) oldSource id])
         (emit [setValueAtTime gainNode gain (gainValue st gainNode) (currentTime st);
                linearRampToValueAtTime gainNode gain 0 (currentTime st + fadeOut)]
               st), true)).
  { subst stopped. unfold stopAudio. now rewrite Hs, Hg. }
  destruct (playAudio_started id url options buffer (fst stopped))
    as (st2 & Hplay & Hs2 & Hg2 & He2 & Ht2 & _).
  fold restarted in Hplay.
  assert (Htimer : timers st2 !! length (timers st)
                   = Some (stopCleanup (fadeOut * 1000) oldSource id)).
  { rewrite Ht2, Hstopped. cbn. apply list_lookup_middle. reflexivity. }
  subst after. rewrite Hplay. cbn [fst snd].
  rewrite Hstopped at 1. cbn [snd].
  repeat split; auto.
  - rewrite Hs2, Hstopped. cbn. apply lookup_insert_eq.
  - lia.
  - now apply fireTimer_stopCleanup in Htimer.
  - now apply fireTimer_stopCleanup in Htimer.
  - now apply fireTimer_stopCleanup in Htimer.
  - now apply fireTimer_stopCleanup in Htimer.
Qed.

(** C2 as stated fails: the callback of a [stopAudio] that was followed
    by a new [playAudio] for the same id deletes the entries of the new
    source, which was started and is never stopped. *)
Lemma cleanup_deletes_restarted_source :
  let options := entryOptions 1.5 1 None in
  let st1 := fst (playAudio "region" "a.mp3" options (Some 0%nat)
                            (new 0 (fun _ => 0))) in
  let st2 := fst (stopAudio "region" 2 st1) in
  let st3 := fst (playAudio "region" "a.mp3" options (Some 0%nat) st2) in
  let st4 := fireTimer 0 st3 in
  timers st3 = [stopCleanup (2 * 1000) 2 "region"] /\
  sources st3 !! "region" = Some 4%nat /\
  sources st4 !! "region" = None /\
  gainNodes st4 !! "region" = None /\
  effectNodes st4 !! "region" = None /\
  start 4 0 ∈ commands st4 /\
  stop 4 ∉ commands st4.
Proof.
  intros options st1 st2 st3 st4. subst st4 st3 st2 st1 options.
  repeat split; try (vm_compute; reflexivity).
  - vm_compute. among.
  - vm_compute. not_among.
Qed.



End service_claims.

(** ** Instances *)

Section instances.

Import WebAudio EnhancedAudioService.
Local Open Scope R_scope.


Lemma simplifyPolygon_idempotent_witness :
  let points := [ {| ref := 0; lat := 0; lng := 0 |};
                  {| ref := 1; lat := 1; lng := 1 |};
                  {| ref := 2; lat := 2; lng := 0 |} ] in
  NoDup (ref <$> points) /\
  0 <= 0 /\
  exists simplified : list point,
    (exists f0 : nat, forall fuel : nat, (f0 <= fuel)%nat ->
        MapUtils.simplifyPolygon points 0 fuel = Ok simplified) /\
    (exists f0 : nat, forall fuel : nat, (f0 <= fuel)%nat ->
        MapUtils.simplifyPolygon simplified 0 fuel = Ok simplified) /\
    head simplified = head points /\
    last simplified = last points.
Proof.
  intros points.
  assert (Hnd : NoDup (ref <$> points)).
  { apply (bool_decide_unpack _). vm_compute. exact I. }
  assert (Htol : 0 <= 0) by lra.
  split; [exact Hnd |]. split; [exact Htol |].
  exact (simplifyPolygon_idempotent points 0 Hnd Htol).
Defined.

Lemma entry_progress_witness :
  let settings := BoundaryTransitionManager.defaultSettings in
  let progress := Rmin 1 (Rmax 0 ((10 - 5) / 10)) in
  0 < BoundaryTransitionManager.transitionRadius settings /\
  0 <= progress <= 1 /\
  progress = 0.5.
Proof.
  intros settings progress.
  assert (Hr : 0 < BoundaryTransitionManager.transitionRadius settings)
    by (cbn; lra).
  pose proof (entry_progress "region" {| BoundaryTransitionManager.url := "a.mp3" |}
                settings 5 Hr) as (_ & Hunit & _ & Hhalf & _).
  split; [exact Hr |]. split; [exact Hunit |].
  apply Hhalf; reflexivity.
Defined.


Lemma distance_3_4 :
  BoundaryTransitionManager.calculateDistance
    {| ref := 0; lat := 0; lng := 0 |} {| ref := 1; lat := 3; lng := 4 |} = 5.
Proof.
  unfold BoundaryTransitionManager.calculateDistance. cbn [lat lng].
  replace ((3 - 0) ^ 2 + (4 - 0) ^ 2) with (5 * 5) by lra.
  apply sqrt_square. lra.
Qed.

Lemma distance_same (p : point) :
  BoundaryTransitionManager.calculateDistance p p = 0.
Proof.
  unfold BoundaryTransitionManager.calculateDistance.
  replace ((lat p - lat p) ^ 2 + (lng p - lng p) ^ 2) with 0 by lra.
  apply sqrt_0.
Qed.


Lemma crossfade_total_distance_nonzero_witness :
  let position := {| ref := 0; lat := 1; lng := 2 |} in
  let region1 :=
    {| BoundaryTransitionManager.id := "one";
       BoundaryTransitionManager.settings := BoundaryTransitionManager.defaultSettings;
       BoundaryTransitionManager.center := position |} in
  let region2 :=
    {| BoundaryTransitionManager.id := "two";
       BoundaryTransitionManager.settings := BoundaryTransitionManager.defaultSettings;
       BoundaryTransitionManager.center := position |} in
  BoundaryTransitionManager.calculateDistance position
    (BoundaryTransitionManager.center region1) = 0 /\
  BoundaryTransitionManager.calculateDistance position
    (BoundaryTransitionManager.center region2) = 0 /\
  BoundaryTransitionManager.handleCrossfades [region1; region2] position = [].
Proof.
  intros position region1 region2.
  assert (H1 : BoundaryTransitionManager.calculateDistance position
                 (BoundaryTransitionManager.center region1) = 0)
    by apply distance_same.
  assert (H2 : BoundaryTransitionManager.calculateDistance position
                 (BoundaryTransitionManager.center region2) = 0)
    by apply distance_same.
  split; [exact H1 |]. split; [exact H2 |].
  exact (proj2 (proj1 (crossfade_total_distance_nonzero [region1; region2] position)
                  region1 region2 H1 H2)).
Defined.

Lemma unknown_id_fails_witness :
  let st := new 0 (fun _ => 0) in
  reachable st /\
  sources st !! "region" = None /\
  stopAudio "region" 0.5 st = (st, false) /\
  setVolume "region" 1 st = (st, false) /\
  applyEffect "region" "lowpass" [("frequency", 500)] st = Ok (st, false).
Proof.
  intros st.
  assert (Hr : reachable st) by apply reachable_new.
  assert (Hs : sources st !! "region" = None) by reflexivity.
  split; [exact Hr |]. split; [exact Hs |].
  exact (unknown_id_fails st "region" 0.5 1 "lowpass" [("frequency", 500)] Hr Hs).
Defined.

(** A service on which the region plays through a lowpass filter. *)
Lemma playing_reachable :
  reachable
    (fst (playAudio "region" "a.mp3"
            (entryOptions 1.5 1 (Some [("lowpass", VBool true)]))
            (Some 0%nat) (new 0 (fun _ => 0)))).
Proof.
  eapply (reachable_step
            (called (PlayAudio "region" "a.mp3"
                       (entryOptions 1.5 1 (Some [("lowpass", VBool true)])))
                    (Some 0%nat))).
  - apply reachable_new.
  - reflexivity.
Qed.


Lemma restart_before_cleanup_witness :
  let options := entryOptions 1.5 1 (Some [("lowpass", VBool true)]) in
  let st := fst (playAudio "region" "a.mp3" options (Some 0%nat)
                           (new 0 (fun _ => 0))) in
  let stopped := stopAudio "region" 2 st in
  let restarted := playAudio "region" "a.mp3" options (Some 0%nat) (fst stopped) in
  let after := fireTimer (length (timers st)) (fst restarted) in
  reachable st /\
  sources st !! "region" = Some 2%nat /\
  sources after !! "region" = None /\
  commands after = commands (fst restarted) ++ [stop 2].
Proof.
  intros options st stopped restarted after.
  assert (Hr : reachable st) by apply playing_reachable.
  assert (Hs : sources st !! "region" = Some 2%nat) by (vm_compute; reflexivity).
  split; [exact Hr |]. split; [exact Hs |].
  pose proof (restart_before_cleanup st "region" "a.mp3" options 0 2 2 Hr Hs)
    as (_ & _ & _ & _ & _ & Hnone & _ & _ & Hcommands).
  split; [exact Hnone | exact Hcommands].
Defined.


End instances.

(** * Further properties *)

(** ** Great-circle distance *)

Section great_circle.

Import MapUtils.
Local Open Scope R_scope.

Lemma atan2_quadrant (y x : R) : 0 <= y -> 0 <= x -> 0 <= atan2 y x <= PI / 2.
Proof.
  intros Hy Hx. unfold atan2. pose proof PI_RGT_0 as Hpi.
  destruct (gtb x 0) eqn:Hgx.
  - apply gtb_true in Hgx.
    pose proof (atan_bound (y / x)) as [_ Hup].
    split; [| lra].
    destruct (Req_dec_T y 0) as [-> | Hne].
    + unfold Rdiv. rewrite Rmult_0_l, atan_0. lra.
    + rewrite <- atan_0. left. apply atan_increasing.
      apply Rdiv_lt_0_compat; lra.
  - apply gtb_false in Hgx.
    assert (Hlx : ltb x 0 = false) by (apply ltb_false; lra).
    rewrite Hlx.
    destruct (gtb y 0); [lra |].
    assert (Hly : ltb y 0 = false) by (apply ltb_false; lra).
    rewrite Hly. lra.
Qed.

(** The quantity [a] of the haversine formula. *)
Lemma haversine_term_unit (lat1 lat2 dLon : R) :
  -90 <= lat1 <= 90 -> -90 <= lat2 <= 90 ->
  let a :=
    sin (toRad (lat2 - lat1) / 2) * sin (toRad (lat2 - lat1) / 2) +
    cos (toRad lat1) * cos (toRad lat2) * sin (dLon / 2) * sin (dLon / 2) in
  0 <= a <= 1.
Proof.
  intros H1 H2 a. pose proof PI_RGT_0 as Hpi.
  assert (Hc1 : 0 <= cos (toRad lat1)).
  { apply cos_ge_0; unfold toRad; nra. }
  assert (Hc2 : 0 <= cos (toRad lat2)).
  { apply cos_ge_0; unfold toRad; nra. }
  pose proof (SIN_bound (dLon / 2)) as Hs.
  assert (Hs2 : 0 <= sin (dLon / 2) * sin (dLon / 2) <= 1) by nra.
  pose proof (cos_2a_sin (toRad (lat2 - lat1) / 2)) as Hhalf.
  replace (2 * (toRad (lat2 - lat1) / 2)) with (toRad lat2 - toRad lat1) in Hhalf
    by (unfold toRad; lra).
  rewrite cos_minus in Hhalf.
  pose proof (COS_bound (toRad lat2 + toRad lat1)) as Hsum.
  rewrite cos_plus in Hsum.
  assert (Hcc : 0 <= cos (toRad lat1) * cos (toRad lat2)) by nra.
  subst a. split.
  - assert (0 <= sin (toRad (lat2 - lat1) / 2) * sin (toRad (lat2 - lat1) / 2))
      by nra.
    nra.
  - nra.
Qed.

Lemma haversine_same (lat1 lng1 : R) : haversine lat1 lng1 lat1 lng1 = 0.
Proof.
  unfold haversine, haversineTerm. cbv zeta.
  replace (toRad (lat1 - lat1) / 2) with 0 by (unfold toRad; lra).
  replace (toRad (lng1 - lng1) / 2) with 0 by (unfold toRad; lra).
  rewrite sin_0, !Rmult_0_r, Rplus_0_r, Rminus_0_r, sqrt_0, sqrt_1.
  unfold atan2.
  assert (H1 : gtb 1 0 = true) by (apply gtb_true; lra).
  rewrite H1. unfold Rdiv. rewrite Rmult_0_l, atan_0. lra.
Qed.

(** X1. The great-circle distance is the same in both directions and
    is zero from a point to itself.  For latitudes between -90 and 90
    degrees the constant [a] of the formula lies between 0 and 1, so
    that both square roots are taken of numbers that are not negative,
    and the distance lies between 0 and half the circumference of the
    earth. *)
Theorem calculateDistance_symmetric_bounded (p q : point) :
  calculateDistance p q = calculateDistance q p /\
  calculateDistance p p = 0 /\
  (-90 <= lat p <= 90 -> -90 <= lat q <= 90 ->
   0 <= haversineTerm (lat p) (lng p) (lat q) (lng q) <= 1 /\
   0 <= calculateDistance p q <= 6371000 * PI).
Proof.
  split; [| split].
  - unfold calculateDistance, haversine. cbv zeta.
    replace (haversineTerm (lat q) (lng q) (lat p) (lng p))
      with (haversineTerm (lat p) (lng p) (lat q) (lng q)); [reflexivity |].
    unfold haversineTerm. cbv zeta.
    assert (Hs : forall u v : R,
               sin (toRad (u - v) / 2) * sin (toRad (u - v) / 2)
               = sin (toRad (v - u) / 2) * sin (toRad (v - u) / 2)).
    { intros u v.
      replace (toRad (u - v) / 2) with (- (toRad (v - u) / 2))
        by (unfold toRad; lra).
      rewrite sin_neg. ring. }
    assert (Hl : forall u v w : R,
               w * sin (toRad (u - v) / 2) * sin (toRad (u - v) / 2)
               = w * sin (toRad (v - u) / 2) * sin (toRad (v - u) / 2)).
    { intros u v w. rewrite !Rmult_assoc. now rewrite Hs. }
    rewrite (Hs (lat q) (lat p)), (Hl (lng q) (lng p)).
    rewrite (Rmult_comm (cos (toRad (lat p))) (cos (toRad (lat q)))).
    reflexivity.
  - apply haversine_same.
  - intros Hp Hq.
    assert (Ha : 0 <= haversineTerm (lat p) (lng p) (lat q) (lng q) <= 1).
    { unfold haversineTerm. cbv zeta. now apply haversine_term_unit. }
    split; [exact Ha |].
    unfold calculateDistance, haversine. cbv zeta.
    destruct (atan2_quadrant
                (sqrt (haversineTerm (lat p) (lng p) (lat q) (lng q)))
                (sqrt (1 - haversineTerm (lat p) (lng p) (lat q) (lng q))))
      as [Hlo Hup]; [apply sqrt_pos | apply sqrt_pos |].
    lra.
Qed.

(** The angle whose sine was squared is recovered from the two square
    roots of the formula. *)
Lemma atan2_half_angle (theta : R) :
  - (PI / 2) <= theta <= PI / 2 ->
  atan2 (sqrt (sin theta * sin theta)) (sqrt (1 - sin theta * sin theta))
  = Rabs theta.
Proof.
  assert (Hpos : forall t : R, 0 <= t <= PI / 2 ->
            atan2 (sqrt (sin t * sin t)) (sqrt (1 - sin t * sin t)) = t).
  { intros t [Hlo Hup]. pose proof PI_RGT_0 as Hpi.
    assert (Hsin : 0 <= sin t) by (apply sin_ge_0; lra).
    assert (Hcos : 0 <= cos t) by (apply cos_ge_0; lra).
    pose proof (sin2_cos2 t) as Hone. unfold Rsqr in Hone.
    replace (1 - sin t * sin t) with (cos t * cos t) by lra.
    rewrite !sqrt_square by assumption.
    unfold atan2.
    destruct (Req_dec_T t (PI / 2)) as [-> | Hne].
    - rewrite cos_PI2, sin_PI2.
      assert (H0 : gtb 0 0 = false) by (apply gtb_false; lra).
      assert (H0' : ltb 0 0 = false) by (apply ltb_false; lra).
      assert (H1 : gtb 1 0 = true) by (apply gtb_true; lra).
      now rewrite H0, H0', H1.
    - assert (Hc : 0 < cos t) by (apply cos_gt_0; lra).
      assert (Hg : gtb (cos t) 0 = true) by (apply gtb_true; lra).
      rewrite Hg. fold (tan t). apply atan_tan. lra. }
  intros [Hlo Hup].
  destruct (Rle_dec 0 theta) as [Hge | Hlt].
  - rewrite Rabs_right by lra. apply Hpos. lra.
  - rewrite Rabs_left by lra.
    replace (sin theta * sin theta) with (sin (- theta) * sin (- theta))
      by (rewrite sin_neg; ring).
    apply Hpos. lra.
Qed.

(** X2. Along a meridian and along the equator the distance is the
    length of the arc: the radius of the earth times the difference of
    the latitudes, or of the longitudes, in radians, for differences
    of at most 180 degrees. *)
Theorem calculateDistance_arc_length (p q : point) :
  (lng p = lng q -> Rabs (lat q - lat p) <= 180 ->
   calculateDistance p q = 6371000 * toRad (Rabs (lat q - lat p))) /\
  (lat p = 0 -> lat q = 0 -> Rabs (lng q - lng p) <= 180 ->
   calculateDistance p q = 6371000 * toRad (Rabs (lng q - lng p))).
Proof.
  pose proof PI_RGT_0 as Hpi.
  assert (Hangle : forall d : R, Rabs d <= 180 ->
            - (PI / 2) <= toRad d / 2 <= PI / 2).
  { intros d Hd. unfold toRad.
    unfold Rabs in Hd. destruct (Rcase_abs d); split; nra. }
  assert (Habs : forall d : R, 2 * Rabs (toRad d / 2) = toRad (Rabs d)).
  { intros d. unfold toRad.
    replace (d * PI / 180 / 2) with (d * (PI / 360)) by lra.
    rewrite Rabs_mult, (Rabs_right (PI / 360)) by lra. lra. }
  split.
  - intros Hlng Hd.
    unfold calculateDistance, haversine, haversineTerm. cbv zeta.
    rewrite Hlng.
    replace (toRad (lng q - lng q) / 2) with 0 by (unfold toRad; lra).
    rewrite sin_0, !Rmult_0_r, Rplus_0_r.
    rewrite atan2_half_angle by now apply Hangle.
    rewrite Habs. reflexivity.
  - intros Hp Hq Hd.
    unfold calculateDistance, haversine, haversineTerm. cbv zeta.
    rewrite Hp, Hq.
    replace (toRad (0 - 0) / 2) with 0 by (unfold toRad; lra).
    replace (toRad 0) with 0 by (unfold toRad; lra).
    rewrite sin_0, cos_0, !Rmult_0_r, Rplus_0_l, !Rmult_1_l.
    rewrite atan2_half_angle by now apply Hangle.
    rewrite Habs. reflexivity.
Qed.

End great_circle.

(** ** Distance to a segment *)

Section segment_distance.

Import MapUtils.
Local Open Scope R_scope.

Lemma distanceToLine_at (x y x1 y1 x2 y2 : R) :
  exists t, 0 <= t <= 1 /\
    distanceToLine x y x1 y1 x2 y2
    = sqrt (squaredDistanceAlong x y x1 y1 x2 y2 t) * 111000 /\
    forall u, 0 <= u <= 1 ->
      squaredDistanceAlong x y x1 y1 x2 y2 t <= squaredDistanceAlong x y x1 y1 x2 y2 u.
Proof.
  unfold distanceToLine, squaredDistanceAlong. cbv zeta.
  set (C := x2 - x1). set (D := y2 - y1).
  set (A := x - x1). set (B := y - y1).
  assert (Hex : forall u,
             (x - (x1 + u * C)) * (x - (x1 + u * C)) +
             (y - (y1 + u * D)) * (y - (y1 + u * D))
             = A * A + B * B - 2 * u * (A * C + B * D) + u * u * (C * C + D * D)).
  { intros u. subst A B. ring. }
  destruct (Req_dec_T (C * C + D * D) 0) as [Hz | Hnz].
  - assert (HC : C = 0) by nra. assert (HD : D = 0) by nra.
    assert (Hlt : ltb (-1) 0 = true) by (apply ltb_true; lra).
    rewrite Hlt. exists 0. split; [lra |]. split.
    + f_equal. f_equal. subst A B. ring.
    + intros u Hu. rewrite !Hex, HC, HD. nra.
  - unfold divide. set (q := (A * C + B * D) / (C * C + D * D)).
    assert (Hlen : 0 < C * C + D * D) by nra.
    assert (Hq : q * (C * C + D * D) = A * C + B * D).
    { subst q. field. exact Hnz. }
    clearbody q.
    destruct (ltb q 0) eqn:Hlt.
    + apply ltb_true in Hlt. exists 0. split; [lra |]. split.
      * f_equal. f_equal. subst A B. ring.
      * intros u Hu. rewrite !Hex.
        assert (Hdot : A * C + B * D < 0).
        { assert (0 < (- q) * (C * C + D * D))
            by (apply Rmult_lt_0_compat; lra).
          lra. }
        assert (0 <= u * (- (A * C + B * D))) by (apply Rmult_le_pos; lra).
        assert (0 <= u * u * (C * C + D * D))
          by (apply Rmult_le_pos; [nra | lra]).
        lra.
    + apply ltb_false in Hlt.
      destruct (gtb q 1) eqn:Hgt.
      * apply gtb_true in Hgt. exists 1. split; [lra |]. split.
        -- f_equal. f_equal. subst A B C D. ring.
        -- intros u Hu. rewrite !Hex.
           assert (Hdot : C * C + D * D < A * C + B * D).
           { assert (0 < (q - 1) * (C * C + D * D))
               by (apply Rmult_lt_0_compat; lra).
             lra. }
           assert (0 <= (1 - u) * (2 * (A * C + B * D) - (1 + u) * (C * C + D * D))).
           { apply Rmult_le_pos; [lra |].
             assert (0 <= (1 - u) * (C * C + D * D))
               by (apply Rmult_le_pos; lra).
             lra. }
           lra.
      * apply gtb_false in Hgt. exists q. split; [lra |]. split.
        -- reflexivity.
        -- intros u Hu. rewrite !Hex. rewrite <- Hq.
           assert (0 <= (u - q) * (u - q) * (C * C + D * D))
             by (apply Rmult_le_pos; [apply (Rle_0_sqr (u - q)) | lra]).
           lra.
Qed.

(** X3. [distanceToLine] is 111000 times the distance from the point
    to the nearest point of the segment: it is the distance to some
    point of the segment, and no point of the segment is nearer. *)
Theorem distanceToLine_nearest (x y x1 y1 x2 y2 : R) :
  (exists t, 0 <= t <= 1 /\
     distanceToLine x y x1 y1 x2 y2
     = 111000 * sqrt ((x - (x1 + t * (x2 - x1))) * (x - (x1 + t * (x2 - x1))) +
                      (y - (y1 + t * (y2 - y1))) * (y - (y1 + t * (y2 - y1))))) /\
  (forall u, 0 <= u <= 1 ->
     distanceToLine x y x1 y1 x2 y2
     <= 111000 * sqrt ((x - (x1 + u * (x2 - x1))) * (x - (x1 + u * (x2 - x1))) +
                       (y - (y1 + u * (y2 - y1))) * (y - (y1 + u * (y2 - y1))))).
Proof.
  destruct (distanceToLine_at x y x1 y1 x2 y2) as (t & Ht & Heq & Hmin).
  unfold squaredDistanceAlong in Heq, Hmin. split.
  - exists t. split; [exact Ht |]. rewrite Heq. apply Rmult_comm.
  - intros u Hu. rewrite Heq.
    pose proof (sqrt_le_1_alt _ _ (Hmin u Hu)). lra.
Qed.

(** X4. [distanceToLine] is zero exactly for the points of the
    segment. *)
Theorem distanceToLine_zero (x y x1 y1 x2 y2 : R) :
  distanceToLine x y x1 y1 x2 y2 = 0 <->
  exists t, 0 <= t <= 1 /\ x = x1 + t * (x2 - x1) /\ y = y1 + t * (y2 - y1).
Proof.
  destruct (distanceToLine_at x y x1 y1 x2 y2) as (t & Ht & Heq & Hmin).
  unfold squaredDistanceAlong in Heq, Hmin. split.
  - intros H0. rewrite H0 in Heq. exists t. split; [exact Ht |].
    assert (Hs : sqrt ((x - (x1 + t * (x2 - x1))) * (x - (x1 + t * (x2 - x1))) +
                       (y - (y1 + t * (y2 - y1))) * (y - (y1 + t * (y2 - y1)))) = 0)
      by lra.
    apply sqrt_eq_0 in Hs;
      [| apply Rplus_le_le_0_compat; apply Rle_0_sqr].
    apply Rplus_sqr_eq_0 in Hs as [Hx Hy]. split; lra.
  - intros (u & Hu & Hx & Hy).
    pose proof (Hmin u Hu) as Hle.
    rewrite <- Hx, <- Hy in Hle.
    rewrite !Rminus_diag, !Rmult_0_l, Rplus_0_l in Hle.
    rewrite Heq.
    assert (Hz : (x - (x1 + t * (x2 - x1))) * (x - (x1 + t * (x2 - x1))) +
                 (y - (y1 + t * (y2 - y1))) * (y - (y1 + t * (y2 - y1))) = 0).
    { apply Rle_antisym; [exact Hle |].
      apply Rplus_le_le_0_compat; apply Rle_0_sqr. }
    rewrite Hz, sqrt_0. lra.
Qed.

End segment_distance.

(** ** Center and expansion of a polygon *)

Section polygon_center.

Import MapUtils.
Local Open Scope R_scope.

Lemma sumCoordinates_bounds (lo hi lo' hi' : R) (points : list point) :
  forall sumLat sumLng : R,
    (forall p, p ∈ points -> lo <= lat p <= hi /\ lo' <= lng p <= hi') ->
    sumLat + INR (length points) * lo <= fst (sumCoordinates points sumLat sumLng)
      <= sumLat + INR (length points) * hi /\
    sumLng + INR (length points) * lo' <= snd (sumCoordinates points sumLat sumLng)
      <= sumLng + INR (length points) * hi'.
Proof.
  induction points as [| p points IH]; intros sumLat sumLng Hall.
  - cbn. lra.
  - cbn [sumCoordinates length]. rewrite S_INR.
    destruct (Hall p) as [Hlat Hlng]; [now left |].
    destruct (IH (sumLat + lat p) (sumLng + lng p)) as [H1 H2].
    { intros q Hq. apply Hall. now right. }
    split; lra.
Qed.

(** X5. The center of a polygon is [null] exactly for the empty array;
    otherwise each of its coordinates lies between the least and the
    greatest of that coordinate among the vertices. *)
Theorem calculatePolygonCenter_inside_box (points : list point)
    (lo hi lo' hi' : R) :
  (calculatePolygonCenter points = None <-> points = []) /\
  (points <> [] ->
   (forall p, p ∈ points -> lo <= lat p <= hi /\ lo' <= lng p <= hi') ->
   exists centerLat centerLng,
     calculatePolygonCenter points = Some (centerLat, centerLng) /\
     lo <= centerLat <= hi /\ lo' <= centerLng <= hi').
Proof.
  split.
  - destruct points as [| p points]; cbn.
    + tauto.
    + destruct (sumCoordinates points (0 + lat p) (0 + lng p)).
      split; discriminate.
  - intros Hne Hall. destruct points as [| p points]; [congruence |].
    unfold calculatePolygonCenter.
    pose proof (sumCoordinates_bounds lo hi lo' hi' (p :: points) 0 0 Hall)
      as [Hlat Hlng].
    destruct (sumCoordinates (p :: points) 0 0) as [sumLat sumLng].
    cbn [fst snd] in Hlat, Hlng.
    assert (Hn : 0 < INR (length (p :: points))) by (apply lt_0_INR; cbn; lia).
    eexists. eexists. split; [reflexivity |].
    split; split.
    + apply (Rmult_le_reg_r (INR (length (p :: points)))); [exact Hn |].
      unfold Rdiv. rewrite Rmult_assoc, Rinv_l by lra. lra.
    + apply (Rmult_le_reg_r (INR (length (p :: points)))); [exact Hn |].
      unfold Rdiv. rewrite Rmult_assoc, Rinv_l by lra. lra.
    + apply (Rmult_le_reg_r (INR (length (p :: points)))); [exact Hn |].
      unfold Rdiv. rewrite Rmult_assoc, Rinv_l by lra. lra.
    + apply (Rmult_le_reg_r (INR (length (p :: points)))); [exact Hn |].
      unfold Rdiv. rewrite Rmult_assoc, Rinv_l by lra. lra.
Qed.

Lemma mapOutcome_ok {A B : Type} (f : A -> outcome B) (l : list A) :
  (forall x, x ∈ l -> exists y, f x = Ok y) ->
  exists ys, mapOutcome f l = Ok ys /\
    length ys = length l /\
    forall i x, l !! i = Some x -> exists y, ys !! i = Some y /\ f x = Ok y.
Proof.
  induction l as [| x l IH]; intros Hall.
  - exists []. repeat split. intros i x H. discriminate.
  - destruct (Hall x) as [y Hy]; [now left |].
    destruct IH as (ys & Hys & Hlen & Hnth).
    { intros z Hz. apply Hall. now right. }
    exists (y :: ys). cbn [mapOutcome]. rewrite Hy, Hys. cbn [bind].
    repeat split; [cbn; lia |].
    intros [| i] z Hz; cbn in Hz.
    + inversion Hz; subst. exists y. auto.
    + apply Hnth in Hz. exact Hz.
Qed.

(** A vertex is moved along the line from the center through it. *)
Lemma expandPoint_moves (centerLat centerLng distanceDegrees : R) (p : point) :
  let length := sqrt ((lng p - centerLng) * (lng p - centerLng) +
                      (lat p - centerLat) * (lat p - centerLat)) in
  0 < length ->
  exists lat' lng',
    expandPoint (Some (centerLat, centerLng)) distanceDegrees p = Ok (lat', lng') /\
    sqrt ((lat' - lat p) * (lat' - lat p) + (lng' - lng p) * (lng' - lng p))
    = Rabs distanceDegrees /\
    lat' - centerLat = (1 + distanceDegrees / length) * (lat p - centerLat) /\
    lng' - centerLng = (1 + distanceDegrees / length) * (lng p - centerLng).
Proof.
  intros len Hlen. unfold expandPoint. fold len.
  eexists. eexists. split; [reflexivity |].
  assert (Hsq : len * len = (lng p - centerLng) * (lng p - centerLng) +
                            (lat p - centerLat) * (lat p - centerLat)).
  { subst len. apply sqrt_sqrt.
    apply Rplus_le_le_0_compat; apply Rle_0_sqr. }
  clearbody len. repeat split.
  - rewrite <- (sqrt_Rsqr_abs distanceDegrees). f_equal. unfold Rsqr.
    replace (lat p + (lat p - centerLat) / len * distanceDegrees - lat p)
      with ((lat p - centerLat) / len * distanceDegrees) by ring.
    replace (lng p + (lng p - centerLng) / len * distanceDegrees - lng p)
      with ((lng p - centerLng) / len * distanceDegrees) by ring.
    transitivity (((lng p - centerLng) * (lng p - centerLng) +
                   (lat p - centerLat) * (lat p - centerLat)) / (len * len)
                  * (distanceDegrees * distanceDegrees)).
    + field. lra.
    + rewrite <- Hsq. field. lra.
  - field. lra.
  - field. lra.
Qed.

(** X6. [expandPolygon] returns the empty array for the empty polygon
    and does not throw; it keeps the number of vertices, and it moves
    every vertex that is not the center by [distance / 111000] degrees
    along the line from the center through the vertex. *)
Theorem expandPolygon_moves_vertices (polygon : list point) (distance : R) :
  expandPolygon [] distance = Ok [] /\
  exists expanded,
    expandPolygon polygon distance = Ok expanded /\
    length expanded = length polygon /\
    forall (i : nat) (p : point) (centerLat centerLng : R),
      polygon !! i = Some p ->
      calculatePolygonCenter polygon = Some (centerLat, centerLng) ->
      let length := sqrt ((lng p - centerLng) * (lng p - centerLng) +
                          (lat p - centerLat) * (lat p - centerLat)) in
      0 < length ->
      exists lat' lng',
        expanded !! i = Some (lat', lng') /\
        sqrt ((lat' - lat p) * (lat' - lat p) + (lng' - lng p) * (lng' - lng p))
        = Rabs (distance / 111000) /\
        lat' - centerLat = (1 + distance / 111000 / length) * (lat p - centerLat) /\
        lng' - centerLng = (1 + distance / 111000 / length) * (lng p - centerLng).
Proof.
  split; [reflexivity |].
  unfold expandPolygon.
  destruct (mapOutcome_ok
              (expandPoint (calculatePolygonCenter polygon) (distance / 111000))
              polygon) as (expanded & Heq & Hlen & Hnth).
  { intros p Hp. destruct polygon as [| q polygon].
    - now apply not_elem_of_nil in Hp.
    - unfold calculatePolygonCenter.
      destruct (sumCoordinates (q :: polygon) 0 0). cbn. eauto. }
  exists expanded. split; [exact Heq |]. split; [exact Hlen |].
  intros i p centerLat centerLng Hi Hc Hpos.
  destruct (Hnth i p Hi) as (y & Hy & Hf). rewrite Hc in Hf.
  destruct (expandPoint_moves centerLat centerLng (distance / 111000) p Hpos)
    as (lat' & lng' & Hmove & Hnorm & Hlat & Hlng).
  rewrite Hmove in Hf. inversion Hf; subst y.
  exists lat', lng'. auto.
Qed.

End polygon_center.

(** ** Containment *)

Section containment.

Import MapUtils.
Local Open Scope R_scope.

Lemma isPointInPolygon_loop_eq (pt : point) (polygon : list point) :
  forall (l pre : list point) (prev : point) (j : nat) (inside : bool),
    polygon = pre ++ l ->
    polygon !! j = Some prev ->
    isPointInPolygon_loop pt polygon (length l) (length pre) j inside
    = Ok (crossings pt prev l inside).
Proof.
  induction l as [| p l IH]; intros pre prev j inside Hp Hj; [reflexivity |].
  cbn [length isPointInPolygon_loop crossings].
  assert (Hi : polygon !! length pre = Some p)
    by (rewrite Hp; apply list_lookup_middle; reflexivity).
  unfold at_index at 1 2. rewrite Hi, Hj. cbn [bind].
  specialize (IH (pre ++ [p]) p (length pre)
                 (if intersect pt p prev then negb inside else inside)).
  rewrite length_app in IH. cbn [length] in IH.
  replace (length pre + 1)%nat with (S (length pre)) in IH by lia.
  apply IH; [| exact Hi].
  rewrite Hp, <- app_assoc. reflexivity.
Qed.

(** The loop of [isPointInPolygon] runs over the edges of the closed
    polygon, starting with the edge from the last vertex to the first. *)
Lemma isPointInPolygon_crossings (pt : point) (polygon : list point) :
  isPointInPolygon pt polygon
  = Ok (match last polygon with
        | Some z => crossings pt z polygon false
        | None => false
        end).
Proof.
  unfold isPointInPolygon.
  destruct (last polygon) as [z |] eqn:Hlast.
  - apply (isPointInPolygon_loop_eq pt polygon polygon [] z); [reflexivity |].
    rewrite last_lookup in Hlast.
    replace (length polygon - 1)%nat with (Nat.pred (length polygon)) by lia.
    exact Hlast.
  - apply last_None in Hlast. subst. reflexivity.
Qed.








End containment.

(** ** Distance to the boundary *)

Section boundary_distance.

Import MapUtils.
Local Open Scope R_scope.

Lemma nearestEdge_loop_min (position : point) (polygon : list point) :
  forall (n i : nat) (r : R),
    (i + n = length polygon)%nat ->
    exists r' : R,
      nearestEdge_loop position polygon n i (Real r) = Ok (Real r') /\
      r' <= r /\
      (r' = r \/
       exists (j : nat) (p1 p2 : point),
         polygon !! j = Some p1 /\
         polygon !! ((j + 1) mod length polygon)%nat = Some p2 /\
         r' = distanceTo p1 p2 position) /\
      (forall (j : nat) (p1 p2 : point),
         (i <= j)%nat ->
         polygon !! j = Some p1 ->
         polygon !! ((j + 1) mod length polygon)%nat = Some p2 ->
         r' <= distanceTo p1 p2 position).
Proof.
  induction n as [| n IH]; intros i r Hlen.
  - exists r. cbn. repeat split; [lra | now left |].
    intros j p1 p2 Hj H1 _. apply lookup_lt_Some in H1. lia.
  - assert (Hi : (i < length polygon)%nat) by lia.
    destruct (lookup_lt_is_Some_2 polygon i Hi) as [p1 H1].
    assert (Hnext : ((i + 1) mod length polygon < length polygon)%nat)
      by (apply Nat.mod_upper_bound; lia).
    destruct (lookup_lt_is_Some_2 polygon _ Hnext) as [p2 H2].
    cbn [nearestEdge_loop]. unfold at_index. rewrite H1, H2. cbn [bind xmin].
    fold (distanceTo p1 p2 position).
    destruct (IH (S i) (Rmin r (distanceTo p1 p2 position))) as
      (r' & Hrun & Hle & Hfrom & Hall); [lia |].
    exists r'. split; [exact Hrun |].
    pose proof (Rmin_l r (distanceTo p1 p2 position)) as Hl.
    pose proof (Rmin_r r (distanceTo p1 p2 position)) as Hr.
    split; [lra |]. split.
    + destruct Hfrom as [Heq | Hfrom]; [| now right].
      unfold Rmin in Heq. destruct (Rle_dec _ _); [now left |].
      right. exists i, p1, p2. auto.
    + intros j q1 q2 Hj Hq1 Hq2.
      destruct (decide (j = i)) as [-> | Hne].
      * rewrite H1 in Hq1. rewrite H2 in Hq2.
        inversion Hq1; inversion Hq2; subst. lra.
      * apply (Hall j q1 q2); [lia | assumption | assumption].
Qed.

Lemma nearestEdge_loop_some (position : point) (polygon : list point) :
  polygon <> [] ->
  exists m : R,
    nearestEdge_loop position polygon (length polygon) 0 Infinity = Ok (Real m) /\
    (exists (j : nat) (p1 p2 : point),
       polygon !! j = Some p1 /\
       polygon !! ((j + 1) mod length polygon)%nat = Some p2 /\
       m = distanceTo p1 p2 position) /\
    (forall (j : nat) (p1 p2 : point),
       polygon !! j = Some p1 ->
       polygon !! ((j + 1) mod length polygon)%nat = Some p2 ->
       m <= distanceTo p1 p2 position).
Proof.
  intros Hne.
  destruct polygon as [| a rest] eqn:Hpoly; [congruence |].
  rewrite <- Hpoly in *.
  assert (Hlen : length polygon = S (length rest)) by now subst.
  assert (H0 : polygon !! 0%nat = Some a) by now subst.
  assert (Hnext : ((0 + 1) mod length polygon < length polygon)%nat)
    by (apply Nat.mod_upper_bound; lia).
  destruct (lookup_lt_is_Some_2 polygon _ Hnext) as [p2 H2].
  rewrite Hlen. cbn [nearestEdge_loop]. unfold at_index.
  rewrite H0, H2. cbn [bind xmin]. fold (distanceTo a p2 position).
  destruct (nearestEdge_loop_min position polygon (length rest) 1
              (distanceTo a p2 position)) as (m & Hrun & Hle & Hfrom & Hall);
    [lia |].
  exists m. split; [exact Hrun |]. rewrite <- Hlen. split.
  - destruct Hfrom as [Heq | Hfrom]; [| exact Hfrom].
    exists 0%nat, a, p2. auto.
  - intros j q1 q2 Hq1 Hq2.
    destruct (decide (j = 0%nat)) as [-> | Hj].
    + rewrite H0 in Hq1. rewrite H2 in Hq2.
      inversion Hq1; inversion Hq2; subst. lra.
    + apply (Hall j q1 q2); [lia | assumption | assumption].
Qed.

(** X8. [getDistanceToBoundaryEdge] does not throw.  For a polygon
    without vertices it returns [Infinity].  For any other polygon it
    returns a number whose magnitude is the least of the distances
    from the position to the edges of the polygon, the edge from the
    last vertex back to the first included: the distance to one of the
    edges, and no greater than the distance to any edge.  The number
    is the opposite of that distance when [isPointInPolygon] answers
    true, and the distance itself otherwise. *)
Theorem getDistanceToBoundaryEdge_nearest_edge (position : point)
    (polygon : list point) :
  getDistanceToBoundaryEdge position [] = Ok Infinity /\
  (polygon <> [] ->
   exists (inside : bool) (m : R),
     isPointInPolygon position polygon = Ok inside /\
     getDistanceToBoundaryEdge position polygon
     = Ok (Real (if inside then - m else m)) /\
     0 <= m /\
     (exists (j : nat) (p1 p2 : point),
        polygon !! j = Some p1 /\
        polygon !! ((j + 1) mod length polygon)%nat = Some p2 /\
        m = distanceTo p1 p2 position) /\
     (forall (j : nat) (p1 p2 : point),
        polygon !! j = Some p1 ->
        polygon !! ((j + 1) mod length polygon)%nat = Some p2 ->
        m <= distanceTo p1 p2 position)).
Proof.
  split; [reflexivity |].
  intros Hne.
  destruct (nearestEdge_loop_some position polygon Hne)
    as (m & Hrun & Hfrom & Hall).
  pose proof (isPointInPolygon_crossings position polygon) as Hin.
  eexists _, m. split; [exact Hin |].
  split; [| split; [| split; [exact Hfrom | exact Hall]]].
  - unfold getDistanceToBoundaryEdge. rewrite Hin, Hrun. cbn [bind].
    now destruct (match last polygon with Some z => _ | None => _ end).
  - destruct Hfrom as (j & p1 & p2 & _ & _ & ->).
    apply distanceToLine_nonneg.
Qed.

End boundary_distance.

(** ** Simplification: every array *)

Section simplify_any_array.

Import MapUtils.
Local Open Scope R_scope.

(** No distance exceeds the one that the loop returns. *)
Lemma furthest_bounds (ds : list R) (i : nat) (md : R) (mi : nat) :
  Forall (fun x => x <= fst (furthest ds i md mi)) ds.
Proof.
  destruct (furthest ds i md mi) as [r k] eqn:Hf.
  apply furthest_spec in Hf
    as [(_ & -> & Hall) | (ds1 & d & ds2 & -> & _ & -> & _ & H1 & H2)];
    [exact Hall |].
  cbn [fst]. apply Forall_app. split.
  - eapply Forall_impl; [exact H1 |]. cbn. intros x Hx. lra.
  - constructor; [lra | exact H2].
Qed.

(** The distances that the recursion leaves behind are within the
    tolerance: a point between the two ends is kept, or lies within
    the tolerance of the segment between two neighbours of the
    result. *)
Lemma kept_near (tolerance : R) (a b : point) (mid ks : list point) :
  kept tolerance a mid b ks ->
  forall p : point,
    p ∈ mid ->
    p ∈ ks \/
    exists (l1 : list point) (a' b' : point) (l2 : list point),
      a :: ks ++ [b] = l1 ++ a' :: b' :: l2 /\
      distanceTo a' b' p <= tolerance.
Proof.
  induction 1 as [a b mid Hle | a b c m1 m2 k1 k2 _ _ _ IH1 _ IH2];
    intros p Hp.
  - right. exists [], a, b, []. split; [reflexivity |].
    pose proof (furthest_bounds (distanceTo a b <$> mid) 1 0 0%nat) as Hall.
    rewrite Forall_fmap, Forall_forall in Hall.
    specialize (Hall p Hp). cbn in Hall. lra.
  - apply elem_of_app in Hp as [Hp | Hp].
    + destruct (IH1 p Hp) as [Hin | (l1 & a' & b' & l2 & Heq & Hd)].
      * left. apply elem_of_app. now left.
      * right. exists l1, a', b', (l2 ++ k2 ++ [b]). split; [| exact Hd].
        change (l1 ++ a' :: b' :: l2 ++ k2 ++ [b])
          with (l1 ++ (a' :: b' :: l2) ++ k2 ++ [b]).
        rewrite (app_assoc l1), <- Heq.
        cbn [app]. now rewrite <- !app_assoc.
    + apply elem_of_cons in Hp as [-> | Hp].
      * left. apply elem_of_app. right. now left.
      * destruct (IH2 p Hp) as [Hin | (l1 & a' & b' & l2 & Heq & Hd)].
        -- left. apply elem_of_app. right. now right.
        -- right. exists (a :: k1 ++ l1), a', b', l2. split; [| exact Hd].
           cbn [app]. rewrite <- !app_assoc. cbn [app].
           f_equal. f_equal. exact Heq.
Qed.

(** X9. The guarantee of the Douglas-Peucker simplification, for an
    array of distinct point objects and a tolerance that is not
    negative: [simplifyPolygon] returns some of the points of its
    input, in the order of the input, and every point of the input is
    either returned or lies, by [distanceToLine], within the tolerance
    of the segment between two points that follow one another in the
    result. *)
Theorem simplifyPolygon_within_tolerance (points : list point) (tolerance : R) :
  NoDup (ref <$> points) ->
  0 <= tolerance ->
  exists simplified : list point,
    (exists f0 : nat, forall fuel : nat, (f0 <= fuel)%nat ->
        simplifyPolygon points tolerance fuel = Ok simplified) /\
    simplified `sublist_of` points /\
    forall p : point,
      p ∈ points ->
      p ∈ simplified \/
      exists (l1 : list point) (a b : point) (l2 : list point),
        simplified = l1 ++ a :: b :: l2 /\
        distanceTo a b p <= tolerance.
Proof.
  intros Hnd Htol.
  destruct (le_lt_dec 2 (length points)) as [Hlen | Hlen].
  - apply ends_of in Hlen as (a & mid & b & ->).
    destruct (kept_total tolerance Htol (S (length mid)) a b mid) as [ks Hk];
      [lia |].
    exists (a :: ks ++ [b]). split; [| split].
    + now apply simplifyPolygon_kept.
    + apply sublist_skip. apply sublist_app; [| reflexivity].
      eapply kept_sublist; eassumption.
    + intros p Hp. apply elem_of_cons in Hp as [-> | Hp]; [left; now left |].
      apply elem_of_app in Hp as [Hp | Hp].
      * destruct (kept_near tolerance a b mid ks Hk p Hp) as [Hin | Hnear].
        -- left. right. apply elem_of_app. now left.
        -- now right.
      * left. right. apply elem_of_app. now right.
  - exists points. split; [| split].
    + exists 0%nat. intros fuel _. unfold simplifyPolygon.
      assert (H : Nat.leb (length points) 2 = true) by (apply Nat.leb_le; lia).
      now rewrite H.
    + reflexivity.
    + intros p Hp. now left.
Qed.

(** The loop of [findFurthestPoint] reads inside the array and returns
    either what it started from or a later index and a greater
    distance. *)
Lemma findFurthestPoint_loop_returns (points : list point) (s e : nat) :
  (s < length points)%nat ->
  (e < length points)%nat ->
  forall (n i : nat) (md : R) (mi : nat),
    (i + n <= length points)%nat ->
    exists (r : R) (k : nat),
      findFurthestPoint_loop points s e n i md mi = Ok (r, k) /\
      md <= r /\
      ((r = md /\ k = mi) \/ (i <= k < i + n)%nat /\ md < r).
Proof.
  intros Hs He.
  destruct (lookup_lt_is_Some_2 points s Hs) as [ps Hps].
  destruct (lookup_lt_is_Some_2 points e He) as [pe Hpe].
  induction n as [| n IH]; intros i md mi Hi.
  - exists md, mi. cbn. split; [reflexivity |]. split; [lra | now left].
  - assert (Hlt : (i < length points)%nat) by lia.
    destruct (lookup_lt_is_Some_2 points i Hlt) as [p Hp].
    cbn [findFurthestPoint_loop]. unfold at_index.
    rewrite Hp, Hps, Hpe. cbn [bind].
    destruct (gtb _ md) eqn:Hgt.
    + apply gtb_true in Hgt.
      destruct (IH (S i) (distanceToLine (lat p) (lng p) (lat ps) (lng ps)
                                         (lat pe) (lng pe)) i)
        as (r & k & Hrun & Hle & Hcase); [lia |].
      exists r, k. split; [exact Hrun |]. split; [lra |].
      right. destruct Hcase as [(-> & ->) | (Hk & Hr)]; split; try lia; lra.
    + destruct (IH (S i) md mi) as (r & k & Hrun & Hle & Hcase); [lia |].
      exists r, k. split; [exact Hrun |]. split; [exact Hle |].
      destruct Hcase as [Hsame | (Hk & Hr)]; [now left |].
      right. split; [lia | exact Hr].
Qed.

Lemma findFurthestPoint_returns (points : list point) (s e : nat) :
  (s < length points)%nat ->
  (e < length points)%nat ->
  exists (r : R) (k : nat),
    findFurthestPoint points s e = Ok (r, k) /\
    0 <= r /\
    ((r = 0 /\ k = 0%nat) \/ (s < k < e)%nat /\ 0 < r).
Proof.
  intros Hs He. unfold findFurthestPoint.
  destruct (findFurthestPoint_loop_returns points s e Hs He
              (e - (s + 1)) (s + 1) 0 0%nat) as (r & k & Hrun & Hle & Hcase);
    [lia |].
  exists r, k. split; [exact Hrun |]. split; [exact Hle |].
  destruct Hcase as [Hsame | (Hk & Hr)]; [now left |].
  right. split; [lia | exact Hr].
Qed.

Lemma includes_true (result : list point) (p : point) :
  includes result p = true <-> ref p ∈ ref <$> result.
Proof.
  unfold includes. rewrite existsb_exists, list_elem_of_fmap.
  split.
  - intros (q & Hq & Heq). apply Nat.eqb_eq in Heq.
    exists q. split; [now symmetry |]. now apply list_elem_of_In.
  - intros (q & Heq & Hq). exists q. split; [now apply list_elem_of_In |].
    apply Nat.eqb_eq. now symmetry.
Qed.

Lemma includes_more (result ext : list point) (p : point) :
  includes result p = true -> includes (result ++ ext) p = true.
Proof.
  rewrite !includes_true, fmap_app, elem_of_app. now left.
Qed.

(** With a tolerance that is not negative, [simplifySegment] returns
    on every segment whose end is an index of the array: it extends
    the result with points of the array, never with an object that the
    result already holds, and leaves the end of the segment in it. *)
Lemma simplifySegment_returns (points : list point) (tolerance : R) :
  0 <= tolerance ->
  forall (n s e : nat) (result : list point),
    (e - s <= n)%nat ->
    (s < length points)%nat ->
    (e < length points)%nat ->
    exists ext : list point,
      (forall fuel : nat, (S n <= fuel)%nat ->
         simplifySegment points tolerance fuel s e result
         = Ok (result ++ ext)) /\
      (forall p, p ∈ ext -> p ∈ points) /\
      (NoDup (ref <$> result) -> NoDup (ref <$> (result ++ ext))) /\
      (forall b, points !! e = Some b -> includes (result ++ ext) b = true).
Proof.
  intros Htol.
  induction n as [n IH] using lt_wf_ind. intros s e result Hn Hs He.
  destruct (findFurthestPoint_returns points s e Hs He)
    as (r & k & Hfind & Hr & Hcase).
  destruct (gtb r tolerance) eqn:Hgt.
  - apply gtb_true in Hgt.
    destruct Hcase as [(-> & _) | (Hk & _)]; [lra |].
    destruct n as [| n]; [lia |].
    destruct (IH n ltac:(lia) s k result) as (ext1 & Hrun1 & Hin1 & Hnd1 & _);
      [lia | lia | lia |].
    destruct (IH n ltac:(lia) k e (result ++ ext1))
      as (ext2 & Hrun2 & Hin2 & Hnd2 & Hlast2); [lia | lia | lia |].
    exists (ext1 ++ ext2). rewrite app_assoc. repeat split.
    + intros [| fuel] Hfuel; [lia |].
      cbn [simplifySegment]. rewrite Hfind. cbn [bind].
      assert (Hgtb : gtb r tolerance = true) by now apply gtb_true.
      rewrite Hgtb, Hrun1 by lia. cbn [bind]. apply Hrun2. lia.
    + intros p Hp. apply elem_of_app in Hp as [Hp | Hp]; auto.
    + auto.
    + exact Hlast2.
  - destruct (lookup_lt_is_Some_2 points e He) as [pe Hpe].
    destruct (includes result pe) eqn:Hinc.
    + exists []. rewrite app_nil_r. repeat split.
      * intros [| fuel] Hfuel; [lia |].
        cbn [simplifySegment]. rewrite Hfind. cbn [bind].
        rewrite Hgt. unfold at_index. rewrite Hpe. cbn [bind].
        now rewrite Hinc.
      * intros p Hp. inversion Hp.
      * auto.
      * intros b Hb. rewrite Hpe in Hb. now inversion Hb; subst.
    + exists [pe]. repeat split.
      * intros [| fuel] Hfuel; [lia |].
        cbn [simplifySegment]. rewrite Hfind. cbn [bind].
        rewrite Hgt. unfold at_index. rewrite Hpe. cbn [bind].
        now rewrite Hinc.
      * intros p Hp. apply list_elem_of_singleton in Hp as ->.
        eapply list_elem_of_lookup_2; eassumption.
      * intros Hnd. rewrite fmap_app. apply NoDup_app. repeat split.
        -- exact Hnd.
        -- intros x Hx Hx'. cbn in Hx'.
           apply list_elem_of_singleton in Hx' as ->.
           apply includes_true in Hx. congruence.
        -- cbn. apply NoDup_singleton.
      * intros b Hb. rewrite Hpe in Hb. inversion Hb; subst.
        apply includes_true. rewrite fmap_app, elem_of_app. right.
        cbn. now left.
Qed.

(** X10. For every array, whether or not it holds an object more than
    once, and every tolerance that is not negative, [simplifyPolygon]
    returns and does not throw.  The result holds points of the input
    only, no more of them than the input has, starts with the first
    point of the input and holds its last point.  An input of more
    than two points is reduced to a result that holds no object
    twice; a shorter input is returned as it is. *)
Theorem simplifyPolygon_returns (points : list point) (tolerance : R) :
  0 <= tolerance ->
  exists simplified : list point,
    (forall fuel : nat, (length points <= fuel)%nat ->
       simplifyPolygon points tolerance fuel = Ok simplified) /\
    (forall p, p ∈ simplified -> p ∈ points) /\
    (length simplified <= length points)%nat /\
    head simplified = head points /\
    (forall b, last points = Some b -> includes simplified b = true) /\
    ((2 < length points)%nat -> NoDup (ref <$> simplified)) /\
    ((length points <= 2)%nat -> simplified = points).
Proof.
  intros Htol.
  destruct (le_lt_dec (length points) 2) as [Hlen | Hlen].
  - exists points. repeat split; auto; try lia.
    + intros fuel _. unfold simplifyPolygon.
      assert (H : Nat.leb (length points) 2 = true) by (apply Nat.leb_le; lia).
      now rewrite H.
    + intros b Hb. apply includes_true. apply list_elem_of_fmap.
      exists b. split; [reflexivity |].
      rewrite last_lookup in Hb. eapply list_elem_of_lookup_2; eassumption.
  - destruct points as [| p0 rest] eqn:Hpoints; [cbn in Hlen; lia |].
    rewrite <- Hpoints in *.
    assert (H0 : points !! 0%nat = Some p0) by now subst.
    destruct (simplifySegment_returns points tolerance Htol
                (length points - 1) 0 (length points - 1) [p0])
      as (ext & Hrun & Hin & Hnd & Hlast); [lia | lia | lia |].
    assert (Hall : forall p, p ∈ [p0] ++ ext -> p ∈ points).
    { intros p Hp. apply elem_of_app in Hp as [Hp | Hp]; [| now apply Hin].
      apply list_elem_of_singleton in Hp as ->.
      eapply list_elem_of_lookup_2; eassumption. }
    assert (Hdistinct : NoDup (ref <$> ([p0] ++ ext))).
    { apply Hnd. cbn. apply NoDup_singleton. }
    exists ([p0] ++ ext). repeat split.
    + intros fuel Hfuel. unfold simplifyPolygon.
      assert (H : Nat.leb (length points) 2 = false) by (apply Nat.leb_gt; lia).
      rewrite H. unfold at_index at 1. rewrite H0. cbn [bind].
      apply Hrun. lia.
    + exact Hall.
    + rewrite <- (length_fmap ref ([p0] ++ ext)), <- (length_fmap ref points).
      apply submseteq_length, NoDup_submseteq; [exact Hdistinct |].
      intros x Hx. apply list_elem_of_fmap in Hx as (p & -> & Hp).
      apply list_elem_of_fmap. exists p. split; [reflexivity | now apply Hall].
    + rewrite Hpoints. reflexivity.
    + intros b Hb. apply Hlast. rewrite last_lookup in Hb.
      replace (length points - 1)%nat with (pred (length points)) by lia.
      exact Hb.
    + intros _. exact Hdistinct.
    + lia.
Qed.

(** With a negative tolerance every distance exceeds the tolerance,
    and the recursion goes on for ever. *)
Lemma simplifySegment_diverges (points : list point) (tolerance : R) :
  tolerance < 0 ->
  forall (fuel s e : nat) (result : list point),
    (s < length points)%nat ->
    (e < length points)%nat ->
    simplifySegment points tolerance fuel s e result = OutOfFuel.
Proof.
  intros Htol. induction fuel as [| fuel IH]; intros s e result Hs He;
    [reflexivity |].
  cbn [simplifySegment].
  destruct (findFurthestPoint_returns points s e Hs He)
    as (r & k & Hfind & Hr & Hcase).
  rewrite Hfind. cbn [bind].
  assert (Hgt : gtb r tolerance = true) by (apply gtb_true; lra).
  rewrite Hgt, IH; [reflexivity | exact Hs |].
  destruct Hcase as [(_ & ->) | (Hk & _)]; lia.
Qed.

(** X11. With a negative tolerance and more than two points,
    [simplifyPolygon] neither returns nor throws a type error: the
    recursion of [simplifySegment] does not end, however deep it is
    allowed to go. *)
Theorem simplifyPolygon_negative_tolerance_diverges (points : list point)
    (tolerance : R) (fuel : nat) :
  tolerance < 0 ->
  (2 < length points)%nat ->
  simplifyPolygon points tolerance fuel = OutOfFuel.
Proof.
  intros Htol Hlen. unfold simplifyPolygon.
  assert (H : Nat.leb (length points) 2 = false) by (apply Nat.leb_gt; lia).
  rewrite H.
  destruct (lookup_lt_is_Some_2 points 0 ltac:(lia)) as [p0 H0].
  unfold at_index. rewrite H0. cbn [bind].
  apply simplifySegment_diverges; [exact Htol | lia | lia].
Qed.

End simplify_any_array.

(** ** Simplification: points on a line *)

Section collinear.

Import MapUtils.
Local Open Scope R_scope.



End collinear.

(** ** Containment in a rectangle *)

Section rectangle.

Import MapUtils.
Local Open Scope R_scope.

Ltac compared :=
  repeat match goal with
         | H : gtb _ _ = true |- _ => apply gtb_true in H
         | H : gtb _ _ = false |- _ => apply gtb_false in H
         | H : ltb _ _ = true |- _ => apply ltb_true in H
         | H : ltb _ _ = false |- _ => apply ltb_false in H
         end.

(** X13. For a rectangle with sides along the meridians and the
    parallels, [isPointInPolygon] answers true exactly for the points
    whose latitude and longitude lie between those of the sides, the
    lower sides included and the upper sides excluded. *)
Theorem isPointInPolygon_rectangle (pt : point) (r1 r2 r3 r4 : nat)
    (lat0 lat1 lng0 lng1 : R) :
  lat0 < lat1 ->
  lng0 < lng1 ->
  let polygon :=
    [ {| ref := r1; lat := lat0; lng := lng0 |};
      {| ref := r2; lat := lat0; lng := lng1 |};
      {| ref := r3; lat := lat1; lng := lng1 |};
      {| ref := r4; lat := lat1; lng := lng0 |} ] in
  exists inside : bool,
    isPointInPolygon pt polygon = Ok inside /\
    (inside = true <->
     lat0 <= lat pt < lat1 /\ lng0 <= lng pt < lng1).
Proof.
  intros Hlat Hlng polygon. subst polygon.
  unfold isPointInPolygon.
  cbn [length Nat.sub isPointInPolygon_loop at_index lookup list_lookup bind].
  unfold intersect, neqb. cbn [lat lng].
  replace ((lng0 - lng0) * (lat pt - lat0) / (lat1 - lat0) + lng0) with lng0
    by (unfold Rdiv; ring).
  replace ((lng1 - lng1) * (lat pt - lat1) / (lat0 - lat1) + lng1) with lng1
    by (unfold Rdiv; ring).
  destruct (gtb lat0 (lat pt)) eqn:H0, (gtb lat1 (lat pt)) eqn:H1,
           (ltb (lng pt) lng0) eqn:H2, (ltb (lng pt) lng1) eqn:H3;
    cbn [xorb andb negb];
    eexists; (split; [reflexivity |]); compared;
    (split; intros Hin;
       [ first [discriminate Hin | lra]
       | first [reflexivity | exfalso; lra] ]).
Qed.

End rectangle.

(** ** The boundary, walked in either direction *)

Section boundary_direction.

Import MapUtils.
Local Open Scope R_scope.




End boundary_direction.

(** ** Transitions: progress and parameters *)

Section transition_parameters.

Import BoundaryTransitionManager.
Local Open Scope R_scope.

Ltac entry_type H :=
  unfold applyEntryTransition; rewrite H; vm_compute case; cbv iota zeta.

Ltac exit_type H :=
  unfold applyExitTransition; rewrite H; vm_compute case; cbv iota zeta.

Lemma exitProgress_unit (radius d : R) : 0 <= exitProgress radius d <= 1.
Proof. apply clamp_unit. Qed.

Lemma entryProgress_exitProgress (radius d : R) :
  radius <> 0 -> entryProgress radius d = exitProgress radius d.
Proof.
  intros Hr. unfold entryProgress, exitProgress. f_equal. f_equal. now field.
Qed.

Lemma exitProgress_monotone (radius d d' : R) :
  0 < radius -> d <= d' -> exitProgress radius d' <= exitProgress radius d.
Proof.
  intros Hr Hd.
  assert (Hq : d / radius <= d' / radius).
  { unfold Rdiv. apply Rmult_le_compat_r; [| exact Hd].
    left. now apply Rinv_0_lt_compat. }
  unfold exitProgress.
  apply Rle_min_compat_l, Rle_max_compat_l. lra.
Qed.

Lemma exitProgress_linear (radius d : R) :
  0 < radius -> 0 <= d <= radius -> exitProgress radius d = 1 - d / radius.
Proof.
  intros Hr [H0 H1]. unfold exitProgress. apply clamp_inside.
  assert (0 <= d / radius).
  { unfold Rdiv. apply Rmult_le_pos; [lra |].
    left. now apply Rinv_0_lt_compat. }
  assert (d / radius <= 1).
  { apply (Rmult_le_reg_r radius); [exact Hr |].
    unfold Rdiv. rewrite Rmult_assoc, Rinv_l by lra. lra. }
  lra.
Qed.

Lemma exitProgress_one (radius d : R) :
  0 < radius -> exitProgress radius d = 1 <-> d <= 0.
Proof.
  intros Hr. split.
  - intros H1. destruct (Rle_dec d 0) as [Hle | Hgt]; [exact Hle | exfalso].
    destruct (Rle_dec d radius) as [Hin | Hout].
    + rewrite exitProgress_linear in H1 by lra.
      assert (0 < d / radius) by (apply Rdiv_lt_0_compat; lra). lra.
    + pose proof (exitProgress_monotone radius radius d Hr ltac:(lra)) as Hm.
      rewrite (exitProgress_linear radius radius) in Hm by lra.
      replace (radius / radius) with 1 in Hm by (field; lra). lra.
  - intros Hd. apply Rle_antisym; [apply exitProgress_unit |].
    pose proof (exitProgress_monotone radius d 0 Hr Hd) as Hm.
    rewrite (exitProgress_linear radius 0) in Hm by lra. lra.
Qed.

Lemma exitProgress_zero (radius d : R) :
  0 < radius -> exitProgress radius d = 0 <-> radius <= d.
Proof.
  intros Hr. split.
  - intros H0. destruct (Rle_dec radius d) as [Hle | Hgt]; [exact Hle | exfalso].
    destruct (Rle_dec 0 d) as [Hin | Hout].
    + rewrite exitProgress_linear in H0 by lra.
      assert (d / radius < 1).
      { apply (Rmult_lt_reg_r radius); [exact Hr |].
        unfold Rdiv. rewrite Rmult_assoc, Rinv_l by lra. lra. }
      lra.
    + pose proof (exitProgress_monotone radius d 0 Hr ltac:(lra)) as Hm.
      rewrite (exitProgress_linear radius 0) in Hm by lra. lra.
  - intros Hd. apply Rle_antisym; [| apply exitProgress_unit].
    pose proof (exitProgress_monotone radius radius d Hr Hd) as Hm.
    rewrite (exitProgress_linear radius radius) in Hm by lra.
    replace (radius / radius) with 1 in Hm by (field; lra). lra.
Qed.

(** X15. Entering and leaving, the progress is the same function of
    the distance to the edge, for a radius that is positive: it does
    not grow with the distance, it is 1 exactly at distances that are
    not positive, 0 exactly from the radius on, and falls linearly in
    between. *)
Theorem progress_falls_with_distance (radius d d' : R) :
  0 < radius ->
  entryProgress radius d = exitProgress radius d /\
  (d <= d' -> exitProgress radius d' <= exitProgress radius d) /\
  (exitProgress radius d = 1 <-> d <= 0) /\
  (exitProgress radius d = 0 <-> radius <= d) /\
  (0 <= d <= radius -> exitProgress radius d = 1 - d / radius).
Proof.
  intros Hr. split; [| split; [| split; [| split]]].
  - apply entryProgress_exitProgress. lra.
  - now apply exitProgress_monotone.
  - now apply exitProgress_one.
  - now apply exitProgress_zero.
  - now apply exitProgress_linear.
Qed.


Lemma interpolate_bounds (r : range) (progress : R) :
  0 <= progress <= 1 ->
  Rmin (start r) (end_ r) <= interpolate r progress <= Rmax (start r) (end_ r).
Proof.
  intros Hp. unfold interpolate, Rmin, Rmax.
  destruct (Rle_dec (start r) (end_ r)); split; nra.
Qed.

(** X17. For the lowpass, highpass and pitch transitions, entering and
    leaving compute the same value of the parameter at the same
    distance, for a radius that is positive: the value between the
    ends of its range that is the start of the range at distances that
    are not positive and the end of the range from the radius on. *)
Theorem transition_parameter_continuous (regionId : string) (audio : audioData)
    (settings : transitionSettings) (distanceToEdge : R) :
  0 < transitionRadius settings ->
  let progress := exitProgress (transitionRadius settings) distanceToEdge in
  let entry := applyEntryTransition regionId audio settings distanceToEdge in
  let exit := applyExitTransition regionId settings distanceToEdge in
  let played effectSettings :=
    [PlayAudio regionId (url audio)
       (entryOptions (fadeInLength settings) progress (Some effectSettings))] in
  (forall r : range,
      Rmin (start r) (end_ r) <= interpolate r progress <= Rmax (start r) (end_ r) /\
      (distanceToEdge <= 0 -> interpolate r progress = start r) /\
      (transitionRadius settings <= distanceToEdge ->
       interpolate r progress = end_ r)) /\
  (let value := interpolate (lowpassFrequency (advancedSettings settings)) progress in
   (fadeInType settings = LOWPASS_FILTER ->
    entry = played [("lowpass", VBool true); ("lowpassFrequency", VNum value)]) /\
   (fadeOutType settings = LOWPASS_FILTER ->
    exists rest,
      exit = ApplyEffect regionId "lowpass" [("frequency", value); ("Q", 1.0)]
             :: SetVolume regionId progress :: rest)) /\
  (let value := interpolate (highpassFrequency (advancedSettings settings)) progress in
   (fadeInType settings = HIGHPASS_FILTER ->
    entry = played [("highpass", VBool true); ("highpassFrequency", VNum value)]) /\
   (fadeOutType settings = HIGHPASS_FILTER ->
    exists rest,
      exit = ApplyEffect regionId "highpass" [("frequency", value); ("Q", 1.0)]
             :: SetVolume regionId progress :: rest)) /\
  (let value := interpolate (pitchShift (advancedSettings settings)) progress in
   (fadeInType settings = PITCH_SHIFT ->
    entry = played [("pitchShift", VBool true); ("pitchAmount", VNum value)]) /\
   (fadeOutType settings = PITCH_SHIFT ->
    exists rest,
      exit = ApplyEffect regionId "pitchShift" [("amount", value)]
             :: SetVolume regionId progress :: rest)).
Proof.
  intros Hr progress entry exit played.
  assert (Hentry : entryProgress (transitionRadius settings) distanceToEdge
                   = progress)
    by (apply entryProgress_exitProgress; lra).
  assert (Hsame : forall r : range,
             end_ r + progress * (start r - end_ r) = interpolate r progress)
    by (intros r; unfold interpolate; ring).
  split; [| split; [| split]].
  - intros r. split; [| split].
    + apply interpolate_bounds. apply exitProgress_unit.
    + intros Hd. apply (exitProgress_one _ _ Hr) in Hd.
      fold progress in Hd. unfold interpolate. rewrite Hd. ring.
    + intros Hd. apply (exitProgress_zero _ _ Hr) in Hd.
      fold progress in Hd. unfold interpolate. rewrite Hd. ring.
  - split.
    + intros H. subst entry played. entry_type H.
      rewrite Hentry, Hsame. reflexivity.
    + intros H. subst exit. exit_type H. fold progress.
      eexists. reflexivity.
  - split.
    + intros H. subst entry played. entry_type H.
      rewrite Hentry, Hsame. reflexivity.
    + intros H. subst exit. exit_type H. fold progress.
      eexists. reflexivity.
  - split.
    + intros H. subst entry played. entry_type H.
      rewrite Hentry, Hsame. reflexivity.
    + intros H. subst exit. exit_type H. fold progress.
      eexists. reflexivity.
Qed.

(** X18. The pan of a spatial blend lies between -0.8 and 0.8, and the
    pitch amount of a doppler transition between 0 and 0.05 on entry
    and between -0.05 and 0 on exit, at every distance. *)
Theorem spatial_doppler_bounds (regionId : string) (audio : audioData)
    (settings : transitionSettings) (distanceToEdge : R) :
  let entry := applyEntryTransition regionId audio settings distanceToEdge in
  let exit := applyExitTransition regionId settings distanceToEdge in
  let played effectSettings :=
    [PlayAudio regionId (url audio)
       (entryOptions (fadeInLength settings)
          (entryProgress (transitionRadius settings) distanceToEdge)
          (Some effectSettings))] in
  (fadeInType settings = SPATIAL_BLEND ->
   exists value,
     entry = played [("spatialAudio", VBool true); ("pan", VNum value)] /\
     -0.8 <= value <= 0.8) /\
  (fadeOutType settings = SPATIAL_BLEND ->
   exists value rest,
     exit = ApplyEffect regionId "spatialAudio" [("pan", value)] :: rest /\
     -0.8 <= value <= 0.8) /\
  (fadeInType settings = DOPPLER ->
   exists value,
     entry = played [("pitchShift", VBool true); ("pitchAmount", VNum value)] /\
     0 <= value <= 0.05) /\
  (fadeOutType settings = DOPPLER ->
   exists value rest,
     exit = ApplyEffect regionId "pitchShift" [("amount", value)] :: rest /\
     -0.05 <= value <= 0).
Proof.
  intros entry exit played.
  pose proof (clamp_unit ((transitionRadius settings - distanceToEdge)
                          / transitionRadius settings)) as Hin.
  fold (entryProgress (transitionRadius settings) distanceToEdge) in Hin.
  pose proof (exitProgress_unit (transitionRadius settings) distanceToEdge)
    as Hout.
  split; [| split; [| split]].
  - intros H. subst entry played. entry_type H.
    eexists. split; [reflexivity |].
    pose proof (COS_bound (entryProgress (transitionRadius settings)
                             distanceToEdge * PI)). lra.
  - intros H. subst exit. exit_type H.
    eexists _, _. split; [reflexivity |].
    pose proof (COS_bound (exitProgress (transitionRadius settings)
                             distanceToEdge * PI)). lra.
  - intros H. subst entry played. entry_type H.
    eexists. split; [reflexivity |].
    destruct (ltb _ 0.5) eqn:Hlt; [apply ltb_true in Hlt |]; lra.
  - intros H. subst exit. exit_type H.
    eexists _, _. split; [reflexivity |].
    destruct (gtb _ 0.5) eqn:Hgt; [apply gtb_true in Hgt |]; lra.
Qed.

End transition_parameters.

(** ** Crossfades: which region is louder, and how many calls *)

Section crossfade_balance.

Import BoundaryTransitionManager.
Local Open Scope R_scope.

Lemma crossfadePair_length (region1 region2 : region) (position : point) :
  (length (crossfadePair region1 region2 position) <= 2)%nat /\
  (crossfadeOverlap (settings region1) = true ->
   crossfadeOverlap (settings region2) = true ->
   calculateDistance position (center region2) <> 0 ->
   length (crossfadePair region1 region2 position) = 2%nat).
Proof.
  destruct (crossfadePair_calls region1 region2 position)
    as [(-> & Hwhy) | (-> & H1 & H2 & Hsum)]; cbn [length].
  - split; [lia |]. intros H1 H2 Hd.
    destruct Hwhy as [H | [H | H]]; try congruence.
    pose proof (calculateDistance_nonneg position (center region1)).
    pose proof (calculateDistance_nonneg position (center region2)).
    lra.
  - split; [lia | reflexivity].
Qed.

Lemma crossfadeWithLater_length (region1 : region) (later : list region)
    (position : point) :
  (length (crossfadeWithLater region1 later position) <= 2 * length later)%nat /\
  (crossfadeOverlap (settings region1) = true ->
   (forall r, r ∈ later ->
      crossfadeOverlap (settings r) = true /\
      calculateDistance position (center r) <> 0) ->
   length (crossfadeWithLater region1 later position) = (2 * length later)%nat).
Proof.
  induction later as [| region2 later [IHle IHeq]]; cbn [crossfadeWithLater length].
  - split; [lia | reflexivity].
  - rewrite length_app.
    destruct (crossfadePair_length region1 region2 position) as [Hle Heq].
    split; [lia |]. intros H1 Hall.
    destruct (Hall region2 ltac:(now left)) as [H2 Hd].
    rewrite Heq, IHeq; auto; [lia |].
    intros r Hr. apply Hall. now right.
Qed.

Lemma crossfadeAll_length (activeRegions : list region) (position : point) :
  (length (crossfadeAll activeRegions position)
   <= length activeRegions * (length activeRegions - 1))%nat /\
  ((forall r, r ∈ activeRegions ->
      crossfadeOverlap (settings r) = true /\
      calculateDistance position (center r) <> 0) ->
   length (crossfadeAll activeRegions position)
   = (length activeRegions * (length activeRegions - 1))%nat).
Proof.
  induction activeRegions as [| region1 later [IHle IHeq]];
    cbn [crossfadeAll length].
  - split; [lia | reflexivity].
  - rewrite length_app.
    destruct (crossfadeWithLater_length region1 later position) as [Hle Heq].
    split; [nia |]. intros Hall.
    destruct (Hall region1 ltac:(now left)) as [H1 _].
    rewrite Heq, IHeq; auto; [nia | |].
    + intros r Hr. apply Hall. now right.
    + intros r Hr. apply Hall. now right.
Qed.

(** X19. [handleCrossfades] does nothing with fewer than two regions.
    With [n] regions it sets at most [n * (n - 1)] volumes, and exactly
    as many when every region has the crossfade enabled and none is
    centered at the position of the listener: every region gets its
    volume set once for each of the other regions. *)
Theorem handleCrossfades_count (activeRegions : list region) (position : point) :
  let n := length activeRegions in
  ((n <= 1)%nat -> handleCrossfades activeRegions position = []) /\
  (length (handleCrossfades activeRegions position) <= n * (n - 1))%nat /\
  ((forall r, r ∈ activeRegions ->
      crossfadeOverlap (settings r) = true /\
      calculateDistance position (center r) <> 0) ->
   length (handleCrossfades activeRegions position) = (n * (n - 1))%nat).
Proof.
  intros n. subst n. unfold handleCrossfades.
  destruct (crossfadeAll_length activeRegions position) as [Hle Heq].
  destruct (Nat.leb (length activeRegions) 1) eqn:Hn.
  - apply Nat.leb_le in Hn. cbn [length].
    split; [reflexivity |]. split; [lia |]. intros _. nia.
  - apply Nat.leb_gt in Hn. split; [lia |]. split; [exact Hle | exact Heq].
Qed.


(** X21. A region whose volume is set to 0 is crossfaded like a region
    of volume 1: [settings.volume || 1.0] takes 0 for a missing
    volume, and the region is set to a volume between 0.7 and 1. *)
Theorem crossfade_zero_volume_is_one (region1 region2 : region)
    (position : point) :
  volume (settings region1) = Some 0 ->
  crossfadeOverlap (settings region1) = true ->
  crossfadeOverlap (settings region2) = true ->
  calculateDistance position (center region1)
  + calculateDistance position (center region2) <> 0 ->
  baseVolume region1 = 1 /\
  exists (applied : R) (rest : list call),
    crossfadePair region1 region2 position
    = SetVolume (id region1) applied :: rest /\
    0.7 <= applied <= 1.
Proof.
  intros Hvol H1 H2 Hsum.
  assert (Hbase : baseVolume region1 = 1).
  { unfold baseVolume. rewrite Hvol.
    assert (H0 : eqb 0 0 = true) by (unfold eqb; destruct (Req_dec_T 0 0); congruence).
    rewrite H0. lra. }
  split; [exact Hbase |].
  destruct (crossfadePair_calls region1 region2 position)
    as [(_ & Hwhy) | (Hcalls & _)].
  { destruct Hwhy as [H | [H | H]]; [congruence | congruence |].
    now contradict Hsum. }
  eexists _, _. split; [exact Hcalls |].
  pose proof (crossfadeVolume_bounds (baseVolume region1)
                (calculateDistance position (center region1))
                (calculateDistance position (center region2))) as Hb.
  rewrite Hbase in Hb |- *.
  destruct Hb as [Hlo Hhi];
    [lra | apply calculateDistance_nonneg | apply calculateDistance_nonneg
    | exact Hsum |].
  lra.
Qed.

End crossfade_balance.

(** ** The audio service: runs of events *)

Section service_runs.

Import WebAudio EnhancedAudioService.
Local Open Scope R_scope.

(** X22. The audio service never throws: in every state that a run of
    events leads to from a new service, every call, every callback and
    every change of the master volume is carried out and leads to such
    a state again.  In particular [applyEffect] finds, under every
    effect type, an effect with the parts that it sets. *)
Theorem service_never_throws (st : service) (e : event) :
  reachable st ->
  exists st' : service, step e st = Ok st' /\ reachable st'.
Proof.
  intros Hr.
  assert (Hstep : exists st', step e st = Ok st').
  { destruct e as [c audioBuffer | volume | k | now reading]; cbn [step];
      try (eexists; reflexivity).
    destruct c as [id url options | id fadeOut | id volume | id duration
                  | id effectType parameters];
      cbn [perform bind]; try (eexists; reflexivity).
    destruct (effectNodes st !! id) as [effectsMap |] eqn:Hid.
    - destruct (effectsMap !! effectType) as [effectNode |] eqn:Hty.
      + destruct (applyEffect_returns id effectType parameters st effectsMap
                    effectNode (reachable_shaped st Hr) Hid Hty) as [st' ->].
        cbn [bind]. eexists. reflexivity.
      + unfold applyEffect. rewrite Hid, Hty. cbn [bind]. eexists. reflexivity.
    - unfold applyEffect. rewrite Hid. cbn [bind]. eexists. reflexivity. }
  destruct Hstep as [st' Hstep]. exists st'. split; [exact Hstep |].
  eapply reachable_step; eassumption.
Qed.

(** What one event does to the maps of sources and gain nodes: it
    leaves them, or stores two new nodes under one id, or deletes one
    id from both. *)
Lemma step_maps (e : event) (st st' : service) :
  step e st = Ok st' ->
  (sources st' = sources st /\ gainNodes st' = gainNodes st) \/
  (exists id,
      sources st' = <[id := nextNode st]> (sources st) /\
      gainNodes st' = <[id := S (nextNode st)]> (gainNodes st)) \/
  (exists id,
      sources st' = delete id (sources st) /\
      gainNodes st' = delete id (gainNodes st)).
Proof.
  intros Hstep.
  destruct e as [c audioBuffer | volume | k | now reading]; cbn [step] in Hstep.
  - destruct c as [id url options | id fadeOut | id volume | id duration
                  | id effectType parameters];
      cbn [perform bind fst] in Hstep.
    + inversion Hstep; subst; clear Hstep.
      destruct audioBuffer as [buffer |]; [| now left].
      destruct (playAudio_started id url options buffer st)
        as (st1 & -> & Hs & Hg & _).
      right. left. exists id. auto.
    + inversion Hstep; subst. left.
      destruct (stopAudio_same_ids id fadeOut st) as (Hs & Hg & _). auto.
    + inversion Hstep; subst. left.
      destruct (setVolume_same_ids id volume st) as (Hs & Hg & _). auto.
    + inversion Hstep; subst. left.
      destruct (fadeOutAudio_same_ids id duration st) as (Hs & Hg & _). auto.
    + destruct (applyEffect id effectType parameters st) as [[st1 b] | |] eqn:Ha;
        cbn [bind fst] in Hstep; inversion Hstep; subst.
      left. apply applyEffect_same_ids in Ha as (Hs & Hg & _). auto.
  - inversion Hstep; subst. now left.
  - inversion Hstep; subst. unfold fireTimer.
    destruct (timers st !! k) as [[delay source id | delay id] |];
      [| | now left]; cbn [runTimer].
    + right. right. exists id. auto.
    + left. cbn [sources with_timers].
      destruct (sources st !! id); [| auto].
      destruct (stopAudio_same_ids id 0 (with_timers (delete k (timers st)) st))
        as (Hs & Hg & _).
      auto.
  - inversion Hstep; subst. now left.
Qed.

Lemma reachable_distinct (st : service) :
  reachable st ->
  (forall id id' node,
      sources st !! id = Some node -> sources st !! id' = Some node -> id = id') /\
  (forall id id' node,
      gainNodes st !! id = Some node -> gainNodes st !! id' = Some node ->
      id = id') /\
  (forall id id' node,
      sources st !! id = Some node -> gainNodes st !! id' <> Some node).
Proof.
  induction 1 as [now reading | e st st' Hr (IHs & IHg & IHsg) Hstep].
  - cbn. repeat split; intros id id' node H; now rewrite lookup_empty in H.
  - destruct (reachable_invariant st Hr) as [_ Hcr].
    destruct (step_maps e st st' Hstep)
      as [(Hs & Hg) | [(id0 & Hs & Hg) | (id0 & Hs & Hg)]];
      rewrite Hs, Hg.
    + auto.
    + assert (Hfresh : forall id node,
                 sources st !! id = Some node \/ gainNodes st !! id = Some node ->
                 node <> nextNode st /\ node <> S (nextNode st)).
      { intros id node H. apply Hcr in H. lia. }
      split; [| split]; intros id id' node H1 H2;
        apply lookup_insert_Some in H1 as [[<- <-] | [_ H1]];
        apply lookup_insert_Some in H2 as [[<- E] | [_ H2]];
        try reflexivity; try lia.
      * pose proof (Hfresh id' (nextNode st) ltac:(auto)) as [Ha Hb]. congruence.
      * pose proof (Hfresh id node ltac:(auto)) as [Ha Hb]. congruence.
      * eauto.
      * pose proof (Hfresh id' (S (nextNode st)) ltac:(auto)) as [Ha Hb]. congruence.
      * pose proof (Hfresh id node ltac:(auto)) as [Ha Hb]. congruence.
      * eauto.
      * pose proof (Hfresh id' (nextNode st) ltac:(auto)) as [Ha Hb]. congruence.
      * pose proof (Hfresh id node ltac:(auto)) as [Ha Hb]. congruence.
      * now apply (IHsg id id' node).
    + repeat split; intros id id' node H1;
        apply lookup_delete_Some in H1 as [_ H1].
      * intros H2. apply lookup_delete_Some in H2 as [_ H2]. eauto.
      * intros H2. apply lookup_delete_Some in H2 as [_ H2]. eauto.
      * intros H2. apply lookup_delete_Some in H2 as [_ H2].
        now apply (IHsg id id' node).
Qed.

(** X23. In every state of the service the three maps hold the same
    ids; the source and the gain node of an id are nodes that the
    context has created; no two ids share a source or a gain node, and
    no node is the source of one id and the gain node of another or
    of the same id. *)
Theorem stored_nodes_distinct (st : service) (id id' : string) (node : nat) :
  reachable st ->
  (is_Some (sources st !! id) <-> is_Some (gainNodes st !! id)) /\
  (is_Some (sources st !! id) <-> is_Some (effectNodes st !! id)) /\
  (sources st !! id = Some node \/ gainNodes st !! id = Some node ->
   (node < nextNode st)%nat) /\
  (sources st !! id = Some node -> sources st !! id' = Some node -> id = id') /\
  (gainNodes st !! id = Some node -> gainNodes st !! id' = Some node ->
   id = id') /\
  (sources st !! id = Some node -> gainNodes st !! id' <> Some node).
Proof.
  intros Hr.
  destruct (reachable_invariant st Hr) as [Hc Hcr].
  destruct (reachable_distinct st Hr) as (Hs & Hg & Hsg).
  destruct (Hc id) as [H1 H2].
  repeat split; eauto.
  - rewrite <- !not_eq_None_Some. tauto.
  - rewrite <- !not_eq_None_Some. tauto.
  - rewrite <- !not_eq_None_Some. tauto.
  - rewrite <- !not_eq_None_Some. tauto.
Qed.

End service_runs.

(** ** The audio service: the life of one id *)

Section service_ids.

Import WebAudio EnhancedAudioService.
Local Open Scope R_scope.

(** The effects of the other ids are left alone. *)
Lemma connectEffects_frame (id : string) (parameters : list (string * jsval)) :
  forall (entries : list (string * jsval)) (lastNode : nat) (st : service),
    delete id (effectNodes (snd (connectEffects id parameters entries lastNode st)))
    = delete id (effectNodes st).
Proof.
  induction entries as [| [effectType enabled] rest IH]; intros lastNode st.
  - reflexivity.
  - cbn [connectEffects].
    destruct (if truthy enabled then effectFactories effectType else None)
      as [factory |] eqn:Hfactory; [| apply IH].
    assert (Hf : effectFactories effectType = Some factory).
    { destruct (truthy enabled); [exact Hfactory | discriminate]. }
    destruct (effectFactories_made effectType factory parameters st Hf)
      as [Hsame _].
    destruct (factory parameters st) as [effectNode st1]. cbn [snd] in Hsame.
    rewrite IH. cbn [effectNodes with_maps emit].
    now rewrite delete_alter_eq, Hsame.
Qed.

Lemma playAudio_frame (id url : string) (options : playOptions)
    (buffer : nat) (st : service) :
  delete id (effectNodes (fst (playAudio id url options (Some buffer) st)))
  = delete id (effectNodes st).
Proof.
  unfold playAudio. cbn [allocate].
  match goal with
  | |- context [connectEffects ?i ?p ?e ?l ?s] =>
      pose proof (connectEffects_frame i p e l s) as Hframe;
      destruct (connectEffects i p e l s) as [lastNode st1]
  end.
  cbn [snd] in Hframe. cbn [fst effectNodes emit].
  rewrite Hframe. cbn [effectNodes with_maps emit].
  apply delete_insert_eq.
Qed.

Lemma stopAudio_active (id : string) (fadeOut : R) (st : service)
    (source gainNode : nat) :
  sources st !! id = Some source ->
  gainNodes st !! id = Some gainNode ->
  stopAudio id fadeOut st
  = (with_timers (timers st ++ [stopCleanup (fadeOut * 1000) source id])
       (emit [setValueAtTime gainNode gain (gainValue st gainNode) (currentTime st);
              linearRampToValueAtTime gainNode gain 0 (currentTime st + fadeOut)]
             st),
     true).
Proof. intros Hs Hg. unfold stopAudio. rewrite Hs, Hg. reflexivity. Qed.


Lemma fadeOutAudio_active (id : string) (duration : R) (st : service)
    (gainNode : nat) :
  gainNodes st !! id = Some gainNode ->
  fadeOutAudio id duration st
  = (with_timers (timers st ++ [fadeOutCleanup (duration * 1000) id])
       (emit [setValueAtTime gainNode gain (gainValue st gainNode) (currentTime st);
              linearRampToValueAtTime gainNode gain 0 (currentTime st + duration)]
             st),
     true).
Proof. intros Hg. unfold fadeOutAudio. rewrite Hg. reflexivity. Qed.

(** X25. [fadeOutAudio] on an active id ramps its gain to 0 and
    schedules a callback; the id stays active.  When the callback runs
    and finds the id still active it calls [stopAudio] with a fade of
    0, which schedules the cleanup; the id is still active.  When the
    cleanup runs, the source is stopped and the id is deleted from the
    three maps.  A callback of a fade that finds the id gone only
    leaves the queue. *)
Theorem fadeOutAudio_then_cleanup (st : service) (id : string) (duration : R)
    (source gainNode : nat) :
  sources st !! id = Some source ->
  gainNodes st !! id = Some gainNode ->
  let faded := fadeOutAudio id duration st in
  let k := length (timers st) in
  let st1 := fireTimer k (fst faded) in
  let st2 := fireTimer k st1 in
  (snd faded = true /\
   timers (fst faded) = timers st ++ [fadeOutCleanup (duration * 1000) id] /\
   sources (fst faded) !! id = Some source /\
   exists now,
     commands (fst faded)
     = commands st ++ [setValueAtTime gainNode gain (gainValue st gainNode) now;
                       linearRampToValueAtTime gainNode gain 0 (now + duration)]) /\
  (timers st1 = timers st ++ [stopCleanup (0 * 1000) source id] /\
   sources st1 !! id = Some source) /\
  (sources st2 = delete id (sources st) /\
   gainNodes st2 = delete id (gainNodes st) /\
   effectNodes st2 = delete id (effectNodes st) /\
   timers st2 = timers st /\
   exists cs, commands st2 = commands st ++ cs ++ [stop source] /\
              Forall quiet cs) /\
  (forall (st' : service) (k' : nat) (delay : R),
      timers st' !! k' = Some (fadeOutCleanup delay id) ->
      sources st' !! id = None ->
      fireTimer k' st' = with_timers (delete k' (timers st')) st').
Proof.
  intros Hs Hg faded k st1 st2.
  assert (Hfaded : faded = fadeOutAudio id duration st) by reflexivity.
  rewrite (fadeOutAudio_active id duration st gainNode Hg) in Hfaded.
  assert (H1 : st1
    = with_timers (timers st ++ [stopCleanup (0 * 1000) source id])
        (emit [setValueAtTime gainNode gain (gainValue st gainNode) (currentTime st);
               linearRampToValueAtTime gainNode gain 0 (currentTime st + duration);
               setValueAtTime gainNode gain (gainValue st gainNode) (currentTime st);
               linearRampToValueAtTime gainNode gain 0 (currentTime st + 0)]
              st)).
  { subst st1 k. rewrite Hfaded. cbn [fst]. unfold fireTimer.
    cbn [timers with_timers emit].
    rewrite list_lookup_middle by reflexivity.
    cbn [runTimer sources with_timers emit]. rewrite Hs.
    rewrite (stopAudio_active id 0 _ source gainNode) by assumption.
    cbn [fst timers with_timers emit]. rewrite delete_middle, app_nil_r.
    unfold with_timers, emit.
    cbn [sources gainNodes effectNodes masterGain nextNode currentTime
         gainValue timers commands].
    rewrite <- app_assoc. reflexivity. }
  split; [| split; [| split]].
  - rewrite Hfaded. cbn [fst snd timers sources commands with_timers emit].
    split; [reflexivity |]. split; [reflexivity |]. split; [exact Hs |].
    exists (currentTime st). reflexivity.
  - rewrite H1. cbn [timers sources with_timers emit].
    split; [reflexivity | exact Hs].
  - subst st2 k. rewrite H1. unfold fireTimer. cbn [timers with_timers emit].
    rewrite list_lookup_middle by reflexivity.
    cbn [runTimer sources gainNodes effectNodes timers commands
         with_timers with_maps emit].
    rewrite delete_middle, app_nil_r.
    split; [reflexivity |]. split; [reflexivity |]. split; [reflexivity |].
    split; [reflexivity |].
    exists [setValueAtTime gainNode gain (gainValue st gainNode) (currentTime st);
            linearRampToValueAtTime gainNode gain 0 (currentTime st + duration);
            setValueAtTime gainNode gain (gainValue st gainNode) (currentTime st);
            linearRampToValueAtTime gainNode gain 0 (currentTime st + 0)].
    split; [rewrite <- app_assoc; reflexivity |].
    repeat constructor; intros ? ?; discriminate.
  - intros st' k' delay Hk Hnone. unfold fireTimer. rewrite Hk.
    cbn [runTimer sources with_timers]. now rewrite Hnone.
Qed.

(** X26. A call for one id and a callback for one id leave the other
    ids alone: their sources, gain nodes and effects are what they
    were. *)
Theorem other_ids_untouched (st : service) (id' : string) :
  (forall (c : call) (audioBuffer : option nat) (st' : service) (b : bool),
      perform c audioBuffer st = Ok (st', b) ->
      id' <> target c ->
      sources st' !! id' = sources st !! id' /\
      gainNodes st' !! id' = gainNodes st !! id' /\
      effectNodes st' !! id' = effectNodes st !! id') /\
  (forall (k : nat) (t : timer),
      timers st !! k = Some t ->
      id' <> timerId t ->
      sources (fireTimer k st) !! id' = sources st !! id' /\
      gainNodes (fireTimer k st) !! id' = gainNodes st !! id' /\
      effectNodes (fireTimer k st) !! id' = effectNodes st !! id').
Proof.
  split.
  - intros c audioBuffer st' b Hperform Hne.
    destruct c as [id url options | id fadeOut | id volume | id duration
                  | id effectType parameters];
      cbn [perform target] in Hperform, Hne.
    + inversion Hperform as [Hplay]; clear Hperform.
      destruct audioBuffer as [buffer |];
        [| inversion Hplay; subst; auto].
      pose proof (playAudio_frame id url options buffer st) as Hframe.
      destruct (playAudio_started id url options buffer st)
        as (st1 & Hplay' & Hs & Hg & _).
      rewrite Hplay' in Hplay, Hframe. inversion Hplay; subst st1 b.
      cbn [fst] in Hframe. rewrite Hs, Hg.
      rewrite !lookup_insert_ne by congruence. repeat split.
      rewrite <- (lookup_delete_ne (effectNodes st') id id') by congruence.
      rewrite Hframe. apply lookup_delete_ne. congruence.
    + inversion Hperform as [Hstop]. unfold stopAudio in Hstop.
      destruct (sources st !! id), (gainNodes st !! id);
        inversion Hstop; subst; auto.
    + inversion Hperform as [Hset]. unfold setVolume in Hset.
      destruct (gainNodes st !! id); inversion Hset; subst; auto.
    + inversion Hperform as [Hfade]. unfold fadeOutAudio in Hfade.
      destruct (gainNodes st !! id); inversion Hfade; subst; auto.
    + apply applyEffect_cases in Hperform
        as [(_ & -> & _)
           | (_ & m & e & _ & _ & [(cs & -> & _) | (ratio & ->)])];
        auto.
      cbn [sources gainNodes effectNodes with_maps].
      rewrite lookup_insert_ne by congruence. auto.
  - intros k t Hk Hne. unfold fireTimer. rewrite Hk.
    destruct t as [delay source id | delay id]; cbn [timerId] in Hne;
      cbn [runTimer sources gainNodes effectNodes with_timers with_maps emit].
    + rewrite !lookup_delete_ne by congruence. auto.
    + destruct (sources st !! id); [| auto].
      unfold stopAudio. cbn [sources gainNodes with_timers].
      destruct (sources st !! id), (gainNodes st !! id); auto.
Qed.






End service_ids.

(** ** The audio service: the route of a source *)

Section service_routes.

Import WebAudio EnhancedAudioService.
Local Open Scope R_scope.









End service_routes.

(** ** Transitions carried out by the audio service *)

Section transitions_on_service.

Import WebAudio EnhancedAudioService.
Local Open Scope R_scope.

(** An effect that is stored under an id stays stored while the loop
    of [playAudio] adds the other effects. *)
Lemma connectEffects_keeps (id : string) (parameters : list (string * jsval))
    (effectType : string) :
  forall (entries : list (string * jsval)) (lastNode : nat) (st : service),
    (exists effectsMap,
        effectNodes st !! id = Some effectsMap /\
        is_Some (effectsMap !! effectType)) ->
    exists effectsMap,
      effectNodes (snd (connectEffects id parameters entries lastNode st)) !! id
      = Some effectsMap /\
      is_Some (effectsMap !! effectType).
Proof.
  induction entries as [| [key enabled] rest IH]; intros lastNode st Hstored.
  - exact Hstored.
  - cbn [connectEffects].
    destruct (if truthy enabled then effectFactories key else None)
      as [factory |] eqn:Hfactory; [| now apply IH].
    assert (Hf : effectFactories key = Some factory).
    { destruct (truthy enabled); [exact Hfactory | discriminate]. }
    destruct (effectFactories_made key factory parameters st Hf) as [Hsame _].
    destruct (factory parameters st) as [effectNode st1]. cbn [snd] in Hsame.
    apply IH. cbn [effectNodes with_maps emit]. rewrite Hsame.
    destruct Hstored as (effectsMap & Hid & Hty).
    exists (<[key := effectNode]> effectsMap). split.
    + rewrite lookup_alter_eq, Hid. reflexivity.
    + destruct (decide (key = effectType)) as [-> | Hne].
      * rewrite lookup_insert_eq. eauto.
      * now rewrite lookup_insert_ne.
Qed.

(** An enabled entry that names a factory has its effect stored. *)
Lemma connectEffects_stores (id : string) (parameters : list (string * jsval))
    (effectType : string)
    (factory : list (string * jsval) -> service -> effectNode * service) :
  effectFactories effectType = Some factory ->
  forall (entries : list (string * jsval)) (lastNode : nat) (st : service),
    (effectType, VBool true) ∈ entries ->
    is_Some (effectNodes st !! id) ->
    exists effectsMap,
      effectNodes (snd (connectEffects id parameters entries lastNode st)) !! id
      = Some effectsMap /\
      is_Some (effectsMap !! effectType).
Proof.
  intros Hfactory.
  induction entries as [| [key enabled] rest IH]; intros lastNode st Hin Hid.
  - now apply not_elem_of_nil in Hin.
  - cbn [connectEffects].
    apply elem_of_cons in Hin as [Hhere | Hlater].
    + inversion Hhere; subst key enabled. cbn [truthy]. rewrite Hfactory.
      destruct (effectFactories_made effectType factory parameters st Hfactory)
        as [Hsame _].
      destruct (factory parameters st) as [effectNode st1]. cbn [snd] in Hsame.
      apply connectEffects_keeps. cbn [effectNodes with_maps emit].
      rewrite Hsame. destruct Hid as [effectsMap Hid].
      exists (<[effectType := effectNode]> effectsMap). split.
      * rewrite lookup_alter_eq, Hid. reflexivity.
      * rewrite lookup_insert_eq. eauto.
    + destruct (if truthy enabled then effectFactories key else None)
        as [other |] eqn:Hother; [| now apply IH].
      assert (Hf : effectFactories key = Some other).
      { destruct (truthy enabled); [exact Hother | discriminate]. }
      destruct (effectFactories_made key other parameters st Hf) as [Hsame _].
      destruct (other parameters st) as [effectNode st1]. cbn [snd] in Hsame.
      apply IH; [exact Hlater |]. cbn [effectNodes with_maps emit].
      rewrite Hsame, lookup_alter_eq. destruct Hid as [effectsMap ->].
      cbn. eauto.
Qed.

Lemma playAudio_stores (id url : string) (fadeIn progress : R)
    (entries : list (string * jsval)) (buffer : nat) (st : service)
    (effectType : string)
    (factory : list (string * jsval) -> service -> effectNode * service) :
  effectFactories effectType = Some factory ->
  (effectType, VBool true) ∈ entries ->
  exists effectsMap effectNode,
    effectNodes (fst (playAudio id url (entryOptions fadeIn progress (Some entries))
                                (Some buffer) st)) !! id
    = Some effectsMap /\
    effectsMap !! effectType = Some effectNode.
Proof.
  intros Hfactory Hin. unfold playAudio.
  cbn [allocate entryOptions effects default].
  match goal with
  | |- context [connectEffects ?i ?p ?e ?l ?s] =>
      destruct (connectEffects_stores i p effectType factory Hfactory e l s Hin)
        as (effectsMap & Hid & [effectNode Hty]);
      [| destruct (connectEffects i p e l s) as [lastNode st1]]
  end.
  - cbn [effectNodes with_maps emit]. rewrite lookup_insert_eq. eauto.
  - cbn [snd] in Hid. cbn [fst effectNodes emit]. eauto.
Qed.

Lemma applyEffect_missing (id effectType : string) (parameters : object)
    (st : service) :
  effectNodes st !! id = Some ∅ ->
  applyEffect id effectType parameters st = Ok (st, false).
Proof.
  intros Hid. unfold applyEffect. rewrite Hid, lookup_empty. reflexivity.
Qed.

Ltac entry_leaf E :=
  unfold BoundaryTransitionManager.applyEntryTransition;
  rewrite E; vm_compute BoundaryTransitionManager.case; cbv iota zeta.

Ltac exit_leaf E H :=
  unfold BoundaryTransitionManager.applyExitTransition in H;
  rewrite E in H; vm_compute BoundaryTransitionManager.case in H;
  cbv iota zeta in H.

(** The effect of the only [applyEffect] among the calls of an exit
    transition of a given type. *)
Ltac exit_effect H :=
  apply elem_of_app in H as [H | H];
  [ apply elem_of_cons in H as [H | H];
    [ inversion H; subst; clear H
    | apply list_elem_of_singleton in H; discriminate ]
  | unfold BoundaryTransitionManager.stopWhenFaded in H;
    destruct (leb _ _);
    [ apply list_elem_of_singleton in H; discriminate
    | now apply not_elem_of_nil in H ] ].

(** X29. An entry transition followed by an exit transition of the
    same type, on a service in any state it can reach: the
    [playAudio] of the entry, once the audio is delivered, returns
    [true] and creates the effect that the [applyEffect] of the exit
    changes, so that this [applyEffect] returns [true].  After an
    entry of type VOLUME_FADE no effect is stored, and every
    [applyEffect] for the region returns [false] and changes nothing:
    an exit transition of another type then changes only the volume. *)
Theorem entry_creates_exit_effect (st : service) (regionId : string)
    (audio : BoundaryTransitionManager.audioData)
    (settings : BoundaryTransitionManager.transitionSettings)
    (entryDistance exitDistance : R) (buffer : nat) :
  reachable st ->
  exists (options : playOptions) (st1 : service),
    BoundaryTransitionManager.applyEntryTransition regionId audio settings
      entryDistance
    = [PlayAudio regionId (BoundaryTransitionManager.url audio) options] /\
    perform (PlayAudio regionId (BoundaryTransitionManager.url audio) options)
            (Some buffer) st
    = Ok (st1, true) /\
    (BoundaryTransitionManager.fadeOutType settings
     = BoundaryTransitionManager.fadeInType settings ->
     forall (effectType : string) (parameters : object),
       ApplyEffect regionId effectType parameters
       ∈ BoundaryTransitionManager.applyExitTransition regionId settings
           exitDistance ->
       exists st2, applyEffect regionId effectType parameters st1 = Ok (st2, true)) /\
    (BoundaryTransitionManager.fadeInType settings
     = BoundaryTransitionManager.VOLUME_FADE ->
     forall (effectType : string) (parameters : object),
       applyEffect regionId effectType parameters st1 = Ok (st1, false)).
Proof.
  intros Hr.
  pose proof (reachable_shaped st Hr) as Hshaped.
  assert (Hfound : forall fadeIn progress entries effectType factory parameters,
             effectFactories effectType = Some factory ->
             (effectType, VBool true) ∈ entries ->
             exists st2,
               applyEffect regionId effectType parameters
                 (fst (playAudio regionId (BoundaryTransitionManager.url audio)
                         (entryOptions fadeIn progress (Some entries))
                         (Some buffer) st))
               = Ok (st2, true)).
  { intros fadeIn progress entries effectType factory parameters Hfactory Hin.
    destruct (playAudio_stores regionId (BoundaryTransitionManager.url audio)
                fadeIn progress entries buffer st effectType factory Hfactory Hin)
      as (effectsMap & effectNode & Hid & Hty).
    eapply applyEffect_returns; [| exact Hid | exact Hty].
    now apply playAudio_shaped. }
  assert (Hplain : forall fadeIn progress effectType parameters,
             let st1 := fst (playAudio regionId (BoundaryTransitionManager.url audio)
                               (entryOptions fadeIn progress None)
                               (Some buffer) st) in
             applyEffect regionId effectType parameters st1 = Ok (st1, false)).
  { intros fadeIn progress effectType parameters st1.
    apply applyEffect_missing. subst st1.
    rewrite playAudio_no_effects by reflexivity. apply lookup_insert_eq. }
  assert (Hplay : forall options,
             perform (PlayAudio regionId (BoundaryTransitionManager.url audio) options)
                     (Some buffer) st
             = Ok (fst (playAudio regionId (BoundaryTransitionManager.url audio)
                          options (Some buffer) st), true)).
  { intros options. cbn [perform].
    destruct (playAudio_started regionId (BoundaryTransitionManager.url audio)
                options buffer st) as (st1 & -> & _).
    reflexivity. }
  set (type := BoundaryTransitionManager.fadeInType settings).
  assert (Htype : BoundaryTransitionManager.fadeInType settings = type)
    by reflexivity.
  clearbody type.
  destruct (String.eqb_spec type BoundaryTransitionManager.LOWPASS_FILTER) as [-> | H1];
    [| destruct (String.eqb_spec type BoundaryTransitionManager.HIGHPASS_FILTER) as [-> | H2];
    [| destruct (String.eqb_spec type BoundaryTransitionManager.REVERB_TAIL) as [-> | H3];
    [| destruct (String.eqb_spec type BoundaryTransitionManager.PITCH_SHIFT) as [-> | H4];
    [| destruct (String.eqb_spec type BoundaryTransitionManager.DELAY_FEEDBACK) as [-> | H5];
    [| destruct (String.eqb_spec type BoundaryTransitionManager.DOPPLER) as [-> | H6];
    [| destruct (String.eqb_spec type BoundaryTransitionManager.SPATIAL_BLEND) as [-> | H7]]]]]]].
  1-7: eexists _, _; split; [entry_leaf Htype; reflexivity |];
       split; [apply Hplay |]; split;
       [ intros Hsame effectType parameters Hin;
         exit_leaf Hsame Hin; exit_effect Hin;
         eapply Hfound; [reflexivity | apply list_elem_of_here]
       | intros Hvolume; vm_compute in Hvolume; discriminate ].
  assert (Hentry : exists fadeIn progress,
             BoundaryTransitionManager.applyEntryTransition regionId audio
               settings entryDistance
             = [PlayAudio regionId (BoundaryTransitionManager.url audio)
                  (entryOptions fadeIn progress None)]).
  { unfold BoundaryTransitionManager.applyEntryTransition,
      BoundaryTransitionManager.case.
    rewrite Htype.
    repeat match goal with
           | |- context [String.eqb type ?y] =>
               destruct (String.eqb_spec type y); [try congruence |]
           end; eauto. }
  destruct Hentry as (fadeIn & progress & Hentry).
  eexists _, _. split; [exact Hentry |]. split; [apply Hplay |]. split.
  - intros Hsame effectType parameters Hin. exfalso.
    unfold BoundaryTransitionManager.applyExitTransition,
      BoundaryTransitionManager.case in Hin.
    rewrite Hsame in Hin.
    repeat match type of Hin with
           | context [String.eqb type ?y] =>
               destruct (String.eqb_spec type y); [try congruence |]
           end;
      apply list_elem_of_singleton in Hin; discriminate.
  - intros _ effectType parameters. apply Hplain.
Qed.

End transitions_on_service.

(** ** The recorded path *)

Section recorded_path.

Import PathRecorderService.
Local Open Scope R_scope.

(** What one delivered position does to the path: nothing, when it is
    nearer than [minDistance] to the last recorded point, or one more
    point. *)
Lemma capturePosition_path (newPoint : point) (rec : recorder) :
  settings (capturePosition newPoint rec) = settings rec /\
  isRecording (capturePosition newPoint rec) = isRecording rec /\
  (recordedPath (capturePosition newPoint rec) = recordedPath rec /\
   (exists lastPoint,
       last (recordedPath rec) = Some lastPoint /\
       MapUtils.calculateDistance lastPoint newPoint < minDistance (settings rec))
   \/
   recordedPath (capturePosition newPoint rec) = recordedPath rec ++ [newPoint] /\
   (forall lastPoint,
       last (recordedPath rec) = Some lastPoint ->
       minDistance (settings rec)
       <= MapUtils.calculateDistance lastPoint newPoint)).
Proof.
  unfold capturePosition.
  destruct (last (recordedPath rec)) as [lastPoint |] eqn:Hlast.
  - destruct (leb _ _) eqn:Hfar.
    + apply leb_true in Hfar. cbn [settings includeAudioSnapshot].
      destruct (includeAudioSnapshot (settings rec)); cbn;
        repeat split; right; (split; [reflexivity |]);
        intros p Hp; inversion Hp; subst; exact Hfar.
    + apply leb_false in Hfar. repeat split. left. split; [reflexivity |].
      exists lastPoint. split; [reflexivity | lra].
  - cbn [settings includeAudioSnapshot].
    destruct (includeAudioSnapshot (settings rec)); cbn;
      repeat split; right; (split; [reflexivity |]); intros p Hp; discriminate.
Qed.

Lemma capturePositions_path (positions : list point) :
  forall rec : recorder,
    (forall (i : nat) (p q : point),
        recordedPath rec !! i = Some p ->
        recordedPath rec !! S i = Some q ->
        minDistance (settings rec) <= MapUtils.calculateDistance p q) ->
    let rec' := capturePositions positions rec in
    settings rec' = settings rec /\
    isRecording rec' = isRecording rec /\
    (exists added,
        recordedPath rec' = recordedPath rec ++ added /\
        added `sublist_of` positions /\
        (recordedPath rec = [] -> head added = head positions)) /\
    (forall (i : nat) (p q : point),
        recordedPath rec' !! i = Some p ->
        recordedPath rec' !! S i = Some q ->
        minDistance (settings rec) <= MapUtils.calculateDistance p q).
Proof.
  induction positions as [| newPoint positions IH]; intros rec Hfar.
  - cbn. repeat split; auto. exists []. rewrite app_nil_r. repeat split; auto.
  - unfold capturePositions. cbn [foldl].
    fold (capturePositions positions (capturePosition newPoint rec)).
    destruct (capturePosition_path newPoint rec) as (Hs & Hr & Hpath).
    specialize (IH (capturePosition newPoint rec)).
    rewrite Hs, Hr in IH.
    destruct Hpath as [(Hsame & lastPoint & Hlast & _) | (Hpush & Hnew)].
    + rewrite Hsame in IH.
      destruct (IH Hfar) as (Hs' & Hr' & (added & Hadd & Hsub & _) & Hfar').
      cbv zeta. repeat split; auto.
      exists added. repeat split; auto.
      * now apply sublist_cons.
      * intros Hnil. rewrite Hnil in Hlast. discriminate.
    + rewrite Hpush in IH.
      destruct IH as (Hs' & Hr' & (added & Hadd & Hsub & _) & Hfar').
      { intros i p q Hp Hq.
        destruct (decide (S i < length (recordedPath rec))%nat) as [Hin | Hout].
        - rewrite lookup_app_l in Hp by lia.
          rewrite lookup_app_l in Hq by lia. eauto.
        - assert (Hi : S i = length (recordedPath rec)).
          { apply lookup_lt_Some in Hq. rewrite length_app in Hq.
            cbn in Hq. lia. }
          rewrite lookup_app_l in Hp by lia.
          rewrite Hi, list_lookup_middle in Hq by reflexivity.
          inversion Hq; subst q. apply Hnew.
          rewrite last_lookup. rewrite <- Hi. exact Hp. }
      cbv zeta. repeat split; auto.
      exists (newPoint :: added). repeat split.
      * rewrite Hadd, <- app_assoc. reflexivity.
      * now apply sublist_skip.
Qed.

(** X30. From the start of a recording on, whatever positions the
    watch delivers: the recorded path is made of delivered positions,
    in the order of their delivery; it starts with the first of them;
    and any two points that follow one another in it are at least
    [minDistance] metres apart by [calculateDistance].  Positions that
    all lie nearer than that to the first one leave a path of one
    point, and [stopRecording] then reports that there was not enough
    movement. *)
Theorem recordedPath_spacing (rec : recorder) (compositionId : string)
    (positions : list point) :
  isRecording rec = false ->
  let started := startRecording true compositionId rec in
  let rec' := capturePositions positions (fst started) in
  snd started = true /\
  recordedPath rec' `sublist_of` positions /\
  head (recordedPath rec') = head positions /\
  (forall (i : nat) (p q : point),
      recordedPath rec' !! i = Some p ->
      recordedPath rec' !! S i = Some q ->
      minDistance (settings rec) <= MapUtils.calculateDistance p q) /\
  (forall first rest,
      positions = first :: rest ->
      (forall p, p ∈ rest ->
         MapUtils.calculateDistance first p < minDistance (settings rec)) ->
      recordedPath rec' = [first] /\
      snd (stopRecording rec') = notEnoughMovement).
Proof.
  intros Hidle started rec'. subst started rec'.
  unfold startRecording. rewrite Hidle. cbn [negb fst snd].
  set (rec0 := {| isRecording := true; recordedPath := [];
                  recordedAudio := 0;
                  currentCompositionId := Some compositionId;
                  settings := settings rec |}).
  destruct (capturePositions_path positions rec0)
    as (Hs & Hr & (added & Hadd & Hsub & Hhead) & Hfar).
  { intros i p q Hp. cbn in Hp. discriminate. }
  cbn [recordedPath rec0 app settings isRecording] in Hadd, Hhead, Hs, Hr, Hfar.
  split; [reflexivity |]. split; [now rewrite Hadd |].
  split; [rewrite Hadd; now apply Hhead |]. split; [exact Hfar |].
  intros first rest -> Hnear.
  assert (Hone : recordedPath (capturePositions (first :: rest) rec0) = [first]).
  { unfold capturePositions. cbn [foldl].
    fold (capturePositions rest (capturePosition first rec0)).
    destruct (capturePosition_path first rec0)
      as (Hs1 & _ & [(_ & lastPoint & Hlast & _) | (Hpush & _)]);
      [discriminate |].
    cbn [recordedPath rec0 app] in Hpush.
    destruct (capturePositions_path rest (capturePosition first rec0))
      as (_ & _ & (added' & Hadd' & Hsub' & _) & Hfar').
    { rewrite Hpush. intros i p q _ Hq. destruct i; discriminate. }
    rewrite Hpush in Hadd'. rewrite Hadd'.
    destruct added' as [| b added']; [reflexivity | exfalso].
    rewrite Hadd', Hs1 in Hfar'.
    specialize (Hfar' 0%nat first b eq_refl eq_refl).
    assert (Hb : b ∈ rest).
    { eapply elem_of_sublist; [| exact Hsub']. now left. }
    specialize (Hnear b Hb). cbn [settings rec0] in Hfar'. lra. }
  split; [exact Hone |].
  unfold stopRecording. rewrite Hr. cbn [negb].
  destruct (includeAudioSnapshot _); cbn [recordedPath captureAudioState];
    rewrite Hone; reflexivity.
Qed.

End recorded_path.

(** ** Further instances *)

Section further_instances.

Import WebAudio EnhancedAudioService.
Local Open Scope R_scope.

Lemma calculateDistance_symmetric_bounded_witness :
  let p := {| ref := 0; lat := 40; lng := -74 |} in
  let q := {| ref := 1; lat := 51; lng := 0 |} in
  -90 <= lat p <= 90 /\
  -90 <= lat q <= 90 /\
  0 <= MapUtils.haversineTerm (lat p) (lng p) (lat q) (lng q) <= 1 /\
  0 <= MapUtils.calculateDistance p q <= 6371000 * PI.
Proof.
  intros p q.
  assert (Hp : -90 <= lat p <= 90) by (cbn; lra).
  assert (Hq : -90 <= lat q <= 90) by (cbn; lra).
  split; [exact Hp |]. split; [exact Hq |].
  exact (proj2 (proj2 (calculateDistance_symmetric_bounded p q)) Hp Hq).
Defined.

Lemma calculateDistance_arc_length_witness :
  let p := {| ref := 0; lat := 10; lng := 5 |} in
  let q := {| ref := 1; lat := 40; lng := 5 |} in
  lng p = lng q /\
  Rabs (lat q - lat p) <= 180 /\
  MapUtils.calculateDistance p q
  = 6371000 * MapUtils.toRad (Rabs (lat q - lat p)).
Proof.
  intros p q.
  assert (Hlng : lng p = lng q) by reflexivity.
  assert (Hlat : Rabs (lat q - lat p) <= 180).
  { cbn [lat p q]. rewrite Rabs_right; lra. }
  split; [exact Hlng |]. split; [exact Hlat |].
  exact (proj1 (calculateDistance_arc_length p q) Hlng Hlat).
Defined.

Lemma calculatePolygonCenter_inside_box_witness :
  let points := [ {| ref := 0; lat := 0; lng := 0 |};
                  {| ref := 1; lat := 2; lng := 4 |} ] in
  points <> [] /\
  (forall p, p ∈ points -> 0 <= lat p <= 2 /\ 0 <= lng p <= 4) /\
  exists centerLat centerLng,
    MapUtils.calculatePolygonCenter points = Some (centerLat, centerLng) /\
    0 <= centerLat <= 2 /\ 0 <= centerLng <= 4.
Proof.
  intros points.
  assert (Hne : points <> []) by discriminate.
  assert (Hall : forall p, p ∈ points -> 0 <= lat p <= 2 /\ 0 <= lng p <= 4).
  { intros p Hp. apply elem_of_cons in Hp as [-> | Hp]; [cbn; lra |].
    apply list_elem_of_singleton in Hp as ->. cbn. lra. }
  split; [exact Hne |]. split; [exact Hall |].
  exact (proj2 (calculatePolygonCenter_inside_box points 0 2 0 4) Hne Hall).
Defined.

Lemma getDistanceToBoundaryEdge_nearest_edge_witness :
  let position := {| ref := 0; lat := 1; lng := 1 |} in
  let polygon := [ {| ref := 1; lat := 0; lng := 0 |};
                   {| ref := 2; lat := 0; lng := 4 |};
                   {| ref := 3; lat := 4; lng := 0 |} ] in
  polygon <> [] /\
  exists (inside : bool) (m : R),
    MapUtils.isPointInPolygon position polygon = Ok inside /\
    MapUtils.getDistanceToBoundaryEdge position polygon
    = Ok (Real (if inside then - m else m)) /\
    0 <= m.
Proof.
  intros position polygon.
  assert (Hne : polygon <> []) by discriminate.
  split; [exact Hne |].
  destruct (proj2 (getDistanceToBoundaryEdge_nearest_edge position polygon) Hne)
    as (inside & m & Hin & Hd & Hm & _).
  exists inside, m. auto.
Defined.

Lemma simplifyPolygon_within_tolerance_witness :
  let points := [ {| ref := 0; lat := 0; lng := 0 |};
                  {| ref := 1; lat := 1; lng := 1 |};
                  {| ref := 2; lat := 2; lng := 0 |} ] in
  NoDup (ref <$> points) /\
  0 <= 0 /\
  exists simplified : list point,
    (exists f0 : nat, forall fuel : nat, (f0 <= fuel)%nat ->
        MapUtils.simplifyPolygon points 0 fuel = Ok simplified) /\
    simplified `sublist_of` points.
Proof.
  intros points.
  assert (Hnd : NoDup (ref <$> points)).
  { apply (bool_decide_unpack _). vm_compute. exact I. }
  assert (Htol : 0 <= 0) by lra.
  split; [exact Hnd |]. split; [exact Htol |].
  destruct (simplifyPolygon_within_tolerance points 0 Hnd Htol)
    as (simplified & Hrun & Hsub & _).
  exists simplified. auto.
Defined.

Lemma simplifyPolygon_returns_witness :
  let a := {| ref := 0; lat := 0; lng := 0 |} in
  let points := [ a; {| ref := 1; lat := 1; lng := 1 |}; a;
                  {| ref := 2; lat := 2; lng := 0 |} ] in
  0 <= 1 /\
  exists simplified : list point,
    (forall fuel : nat, (4 <= fuel)%nat ->
       MapUtils.simplifyPolygon points 1 fuel = Ok simplified) /\
    NoDup (ref <$> simplified).
Proof.
  intros a points.
  assert (Htol : 0 <= 1) by lra.
  split; [exact Htol |].
  destruct (simplifyPolygon_returns points 1 Htol)
    as (simplified & Hrun & _ & _ & _ & _ & Hnd & _).
  exists simplified. split; [exact Hrun |].
  apply Hnd. cbn. lia.
Defined.

Lemma simplifyPolygon_negative_tolerance_diverges_witness :
  let points := [ {| ref := 0; lat := 0; lng := 0 |};
                  {| ref := 1; lat := 1; lng := 1 |};
                  {| ref := 2; lat := 2; lng := 0 |} ] in
  -1 < 0 /\
  (2 < length points)%nat /\
  MapUtils.simplifyPolygon points (-1) 1000 = OutOfFuel.
Proof.
  intros points.
  assert (Htol : -1 < 0) by lra.
  assert (Hlen : (2 < length points)%nat) by (cbn; lia).
  split; [exact Htol |]. split; [exact Hlen |].
  exact (simplifyPolygon_negative_tolerance_diverges points (-1) 1000 Htol Hlen).
Defined.

Lemma progress_falls_with_distance_witness :
  0 < 10 /\
  BoundaryTransitionManager.entryProgress 10 5
  = BoundaryTransitionManager.exitProgress 10 5 /\
  BoundaryTransitionManager.exitProgress 10 7
  <= BoundaryTransitionManager.exitProgress 10 5 /\
  BoundaryTransitionManager.exitProgress 10 5 = 1 - 5 / 10.
Proof.
  assert (Hr : 0 < 10) by lra.
  destruct (progress_falls_with_distance 10 5 7 Hr)
    as (Hsame & Hmono & _ & _ & Hlinear).
  split; [exact Hr |]. split; [exact Hsame |].
  split; [apply Hmono; lra | apply Hlinear; lra].
Defined.

Lemma transition_parameter_continuous_witness :
  let settings := BoundaryTransitionManager.defaultSettings in
  let range :=
    BoundaryTransitionManager.lowpassFrequency
      (BoundaryTransitionManager.advancedSettings settings) in
  0 < BoundaryTransitionManager.transitionRadius settings /\
  interpolate range
    (BoundaryTransitionManager.exitProgress
       (BoundaryTransitionManager.transitionRadius settings) 10)
  = BoundaryTransitionManager.end_ range.
Proof.
  intros settings range.
  assert (Hr : 0 < BoundaryTransitionManager.transitionRadius settings)
    by (cbn; lra).
  split; [exact Hr |].
  destruct (transition_parameter_continuous "region"
              {| BoundaryTransitionManager.url := "a.mp3" |} settings 10 Hr)
    as (Hrange & _).
  destruct (Hrange range) as (_ & _ & Hend).
  apply Hend. cbn. lra.
Defined.


Lemma crossfade_zero_volume_is_one_witness :
  let position := {| ref := 0; lat := 0; lng := 0 |} in
  let muted :=
    {| BoundaryTransitionManager.fadeInLength := 1.5;
       BoundaryTransitionManager.fadeOutLength := 2.0;
       BoundaryTransitionManager.fadeInType := BoundaryTransitionManager.VOLUME_FADE;
       BoundaryTransitionManager.fadeOutType := BoundaryTransitionManager.VOLUME_FADE;
       BoundaryTransitionManager.transitionRadius := 10;
       BoundaryTransitionManager.blendingEnabled := true;
       BoundaryTransitionManager.crossfadeOverlap := true;
       BoundaryTransitionManager.advancedSettings :=
         BoundaryTransitionManager.advancedSettings
           BoundaryTransitionManager.defaultSettings;
       BoundaryTransitionManager.volume := Some 0 |} in
  let region1 :=
    {| BoundaryTransitionManager.id := "one";
       BoundaryTransitionManager.settings := muted;
       BoundaryTransitionManager.center := position |} in
  let region2 :=
    {| BoundaryTransitionManager.id := "two";
       BoundaryTransitionManager.settings := BoundaryTransitionManager.defaultSettings;
       BoundaryTransitionManager.center := {| ref := 1; lat := 3; lng := 4 |} |} in
  BoundaryTransitionManager.volume (BoundaryTransitionManager.settings region1)
  = Some 0 /\
  BoundaryTransitionManager.calculateDistance position
    (BoundaryTransitionManager.center region1)
  + BoundaryTransitionManager.calculateDistance position
      (BoundaryTransitionManager.center region2) <> 0 /\
  exists (applied : R) (rest : list call),
    BoundaryTransitionManager.crossfadePair region1 region2 position
    = SetVolume "one" applied :: rest /\
    0.7 <= applied <= 1.
Proof.
  intros position muted region1 region2.
  assert (Hsum : BoundaryTransitionManager.calculateDistance position
                   (BoundaryTransitionManager.center region1)
                 + BoundaryTransitionManager.calculateDistance position
                     (BoundaryTransitionManager.center region2) <> 0).
  { cbn [BoundaryTransitionManager.center region1 region2].
    unfold position. rewrite distance_same, distance_3_4. lra. }
  split; [reflexivity |]. split; [exact Hsum |].
  exact (proj2 (crossfade_zero_volume_is_one region1 region2 position
                  eq_refl eq_refl eq_refl Hsum)).
Defined.

Lemma service_never_throws_witness :
  let options := entryOptions 1.5 1 (Some [("lowpass", VBool true)]) in
  let st := fst (playAudio "region" "a.mp3" options (Some 0%nat)
                           (new 0 (fun _ => 0))) in
  let e := called (ApplyEffect "region" "lowpass" [("frequency", 500)]) None in
  reachable st /\
  exists st' : service, step e st = Ok st' /\ reachable st'.
Proof.
  intros options st e.
  assert (Hr : reachable st) by apply playing_reachable.
  split; [exact Hr |].
  exact (service_never_throws st e Hr).
Defined.

Lemma stored_nodes_distinct_witness :
  let options := entryOptions 1.5 1 (Some [("lowpass", VBool true)]) in
  let st := fst (playAudio "region" "a.mp3" options (Some 0%nat)
                           (new 0 (fun _ => 0))) in
  reachable st /\
  sources st !! "region" = Some 2%nat /\
  gainNodes st !! "region" <> Some 2%nat /\
  (2 < nextNode st)%nat.
Proof.
  intros options st.
  assert (Hr : reachable st) by apply playing_reachable.
  assert (Hs : sources st !! "region" = Some 2%nat) by (vm_compute; reflexivity).
  split; [exact Hr |]. split; [exact Hs |].
  destruct (stored_nodes_distinct st "region" "region" 2 Hr)
    as (_ & _ & Hcreated & _ & _ & Hapart).
  split; [now apply Hapart | apply Hcreated; now left].
Defined.


Lemma fadeOutAudio_then_cleanup_witness :
  let options := entryOptions 1.5 1 None in
  let st := fst (playAudio "region" "a.mp3" options (Some 0%nat)
                           (new 0 (fun _ => 0))) in
  let faded := fadeOutAudio "region" 2 st in
  let st1 := fireTimer (length (timers st)) (fst faded) in
  let st2 := fireTimer (length (timers st)) st1 in
  sources st !! "region" = Some 2%nat /\
  gainNodes st !! "region" = Some 3%nat /\
  snd faded = true /\
  timers st1 = timers st ++ [stopCleanup (0 * 1000) 2 "region"] /\
  sources st2 = delete "region" (sources st) /\
  timers st2 = timers st.
Proof.
  intros options st faded st1 st2.
  assert (Hs : sources st !! "region" = Some 2%nat) by (vm_compute; reflexivity).
  assert (Hg : gainNodes st !! "region" = Some 3%nat) by (vm_compute; reflexivity).
  split; [exact Hs |]. split; [exact Hg |].
  destruct (fadeOutAudio_then_cleanup st "region" 2 2 3 Hs Hg)
    as ((Hfaded & _) & (Ht1 & _) & (Hs2 & _ & _ & Ht2 & _) & _).
  auto.
Defined.


Lemma recordedPath_spacing_witness :
  let first := {| ref := 0; lat := 40; lng := -74 |} in
  let positions := [first; {| ref := 1; lat := 40; lng := -74 |}] in
  let started :=
    PathRecorderService.startRecording true "composition"
      PathRecorderService.new in
  let rec' := PathRecorderService.capturePositions positions (fst started) in
  PathRecorderService.isRecording PathRecorderService.new = false /\
  snd started = true /\
  PathRecorderService.recordedPath rec' = [first] /\
  snd (PathRecorderService.stopRecording rec')
  = PathRecorderService.notEnoughMovement.
Proof.
  intros first positions started rec'.
  assert (Hidle : PathRecorderService.isRecording PathRecorderService.new = false)
    by reflexivity.
  split; [exact Hidle |].
  destruct (recordedPath_spacing PathRecorderService.new "composition" positions
              Hidle) as (Hstarted & _ & _ & _ & Hstill).
  split; [exact Hstarted |].
  apply (Hstill first [ {| ref := 1; lat := 40; lng := -74 |} ] eq_refl).
  intros p Hp. apply list_elem_of_singleton in Hp as ->.
  unfold MapUtils.calculateDistance. cbn [lat lng first].
  rewrite haversine_same. cbn. lra.
Defined.


Lemma entry_creates_exit_effect_witness :
  let st := new 0 (fun _ => 0) in
  let audio := {| BoundaryTransitionManager.url := "a.mp3" |} in
  let settings := BoundaryTransitionManager.defaultSettings in
  reachable st /\
  exists (options : playOptions) (st1 : service),
    BoundaryTransitionManager.applyEntryTransition "region" audio settings 5
    = [PlayAudio "region" "a.mp3" options] /\
    perform (PlayAudio "region" "a.mp3" options) (Some 0%nat) st = Ok (st1, true) /\
    applyEffect "region" "lowpass" [("frequency", 500)] st1 = Ok (st1, false).
Proof.
  intros st audio settings.
  assert (Hr : reachable st) by apply reachable_new.
  split; [exact Hr |].
  destruct (entry_creates_exit_effect st "region" audio settings 5 5 0 Hr)
    as (options & st1 & Hentry & Hplay & _ & Hplain).
  exists options, st1. split; [exact Hentry |]. split; [exact Hplay |].
  apply Hplain. reflexivity.
Defined.

Lemma isPointInPolygon_rectangle_witness :
  let pt := {| ref := 0; lat := 1; lng := 1 |} in
  let polygon :=
    [ {| ref := 1; lat := 0; lng := 0 |};
      {| ref := 2; lat := 0; lng := 2 |};
      {| ref := 3; lat := 2; lng := 2 |};
      {| ref := 4; lat := 2; lng := 0 |} ] in
  0 < 2 /\
  MapUtils.isPointInPolygon pt polygon = Ok true.
Proof.
  intros pt polygon.
  assert (Hside : 0 < 2) by lra.
  split; [exact Hside |].
  destruct (isPointInPolygon_rectangle pt 1 2 3 4 0 2 0 2 Hside Hside)
    as (inside & Hrun & Hinside).
  assert (Htrue : inside = true) by (apply Hinside; cbn; lra).
  rewrite Htrue in Hrun. exact Hrun.
Defined.


End further_instances.
